(** * ssh-mcp: connection manager and profile store, embedded and verified

    The development follows the TypeScript sources:
    - [src/ssh/connection-manager.ts]: retry classification, [connect],
      the one-shot execution channel;
    - [src/profile/profile-manager.ts], [src/config/loader.ts] and
      [src/config/types.ts]: the profile store, its validation pass and the
      two-phase confirmed delete.

    JavaScript strings are modelled as Rocq strings whose characters stand
    for UTF-16 code units in the range 0..255 (the Latin-1 subset); on that
    range [toLowerCase], [trim] and [includes] below are the ECMAScript
    functions. *)

From Stdlib Require Import ZArith QArith Bool List Ascii String Lia Sorted Permutation.
From stdpp Require Import base option list strings gmap pretty.

Open Scope string_scope.
Open Scope Z_scope.

(** ** ECMAScript string primitives *)
Module JsString.

Definition code (c : ascii) : N := N_of_ascii c.

(** [String.prototype.toLowerCase] on code units 0..255: A-Z and the
    Latin-1 capitals U+00C0..U+00DE (except the multiplication sign
    U+00D7) move up by 32. *)
Definition lowerChar (c : ascii) : ascii :=
  let n := code c in
  if ((65 <=? n) && (n <=? 90))%N then ascii_of_N (n + 32)
  else if ((192 <=? n) && (n <=? 222) && negb (n =? 215))%N then ascii_of_N (n + 32)
  else c.

Fixpoint toLowerCase (s : string) : string :=
  match s with
  | EmptyString => EmptyString
  | String c r => String (lowerChar c) (toLowerCase r)
  end.

(** WhiteSpace and LineTerminator code units below 256: TAB, LF, VT, FF,
    CR, SP and NBSP. This is the class of [trim] and of the regular
    expression [\s]. *)
Definition isWhiteSpace (c : ascii) : bool :=
  let n := code c in
  ((n =? 9) || (n =? 10) || (n =? 11) || (n =? 12) || (n =? 13)
   || (n =? 32) || (n =? 160))%N.

Fixpoint trimStart (s : string) : string :=
  match s with
  | EmptyString => EmptyString
  | String c r => if isWhiteSpace c then trimStart r else s
  end.

(** The string is rebuilt from the right: a character is dropped when it
    is white space and everything after it has been dropped. *)
Fixpoint trimEnd (s : string) : string :=
  match s with
  | EmptyString => EmptyString
  | String c r =>
      match trimEnd r with
      | EmptyString => if isWhiteSpace c then EmptyString else String c EmptyString
      | r' => String c r'
      end
  end.

Definition trim (s : string) : string := trimEnd (trimStart s).

Fixpoint startsWith (s p : string) : bool :=
  match p, s with
  | EmptyString, _ => true
  | String _ _, EmptyString => false
  | String b p', String a s' => if Ascii.eqb a b then startsWith s' p' else false
  end.

(** [s.includes(sub)]: [sub] occurs in [s] at some position. *)
Fixpoint includes (s sub : string) : bool :=
  startsWith s sub ||
  match s with
  | EmptyString => false
  | String _ r => includes r sub
  end.

(** Truthiness of a string value: only the empty string is falsy. *)
Definition truthy (s : string) : bool := negb (String.eqb s "").

(** Truthiness of an optional string ([undefined] is falsy). *)
Definition truthyOpt (o : option string) : bool :=
  match o with
  | Some s => truthy s
  | None => false
  end.

(** The text between double quotes, as in a template literal that
    quotes a value. *)
Definition quoted (s : string) : string :=
  String (ascii_of_N 34) s ++ String (ascii_of_N 34) "".

(** [Array.prototype.join]. *)
Fixpoint join (sep : string) (l : list string) : string :=
  match l with
  | [] => ""
  | [x] => x
  | x :: r => x ++ sep ++ join sep r
  end.

End JsString.

(** ** src/ssh/connection-manager.ts *)
Module Conn.
Import JsString.

Record SSHConfig := {
  profileId : option string;
  host : string;
  port : Z;
  username : string;
  password : option string;
  privateKey : option string;
  suPassword : option string;
  sudoPassword : option string
}.

(** An [Error] object, with the optional [code] property that Node puts
    on socket errors. *)
Record JsError := { message : string; code : option string }.

Definition DEFAULT_CONNECT_RETRY_DELAYS_MS : list Z := [200; 400].

Definition toErrorMessage (err : JsError) : string := message err.

Definition isAuthFailure (err : JsError) : bool :=
  let message := toLowerCase (toErrorMessage err) in
  includes message "authentication" ||
  includes message "permission denied" ||
  includes message "all configured authentication methods failed" ||
  includes message "auth failed".

Definition transportCodes : list string :=
  ["ECONNREFUSED"; "ECONNRESET"; "EHOSTUNREACH"; "ENETUNREACH"; "ETIMEDOUT"].

Definition codeIsTransport (c : option string) : bool :=
  match c with
  | Some c => truthy c && existsb (String.eqb c) transportCodes
  | None => false
  end.

Definition messageIsHandshakeClass (err : JsError) : bool :=
  let message := toLowerCase (toErrorMessage err) in
  includes message "handshake" ||
  includes message "kex" ||
  includes message "timeout" ||
  includes message "timed out" ||
  includes message "connection closed" ||
  includes message "protocol".

Definition isRetryableConnectionError (err : JsError) : bool :=
  if isAuthFailure err then false
  else if codeIsTransport (code err) then true
  else messageIsHandshakeClass err.

Definition formatTargetContext (config : SSHConfig) : string :=
  let profileId :=
    match profileId config with
    | Some p => if truthy p then p else "unknown"
    | None => "unknown"
    end in
  "profileId=" ++ profileId ++ " host=" ++ host config ++ " port=" ++ pretty (port config).

Definition wrapConnectionError (config : SSHConfig) (err : JsError) : string :=
  "SSH connection error (" ++ formatTargetContext config ++ "): " ++ toErrorMessage err.

(** How the interactive su protocol of [ensureElevated] ends. *)
Inductive ElevationOutcome :=
| SuGranted
| SuRejected (reason : string).

(** What the transport does during one [connectOnce]: it becomes ready,
    emits an error, or stays silent until the 30 s timer fires. The
    handler of [error] stays installed after [ready], and the promise is
    resolved only once [ensureElevated] has been awaited:
    [ReadyThenError err later] is a client that becomes ready and emits
    [err] while the su dialogue awaited is under way. The dialogue goes
    on unawaited, and [later] tells how it ends before the manager is
    used again, if it does. Where no dialogue is awaited the promise is
    resolved from the handler of [ready], and an error that follows is no
    part of the attempt (it is [transportDropped] below). *)
Inductive TransportOutcome :=
| Ready
| ErrorEvent (err : JsError)
| Silent
| ReadyThenError (err : JsError) (later : option ElevationOutcome).

Record Attempt := { transport : TransportOutcome; elevation : ElevationOutcome }.

(** Observable actions, in the order in which the manager performs them. *)
Inductive Action :=
| ActClientConnect (attempt : nat)
| ActEnsureElevated
| ActOpenSuShell
| ActSleep (ms : Z).

(** [this.suPromise]: [null], the promise of a su dialogue that is under
    way, or the promise that was rejected when its executor threw, which
    nothing sets back to [null]. *)
Inductive SuPromise :=
| SuIdle
| SuPending
| SuBroken (reason : string).

(** The session state of [SSHConnectionManager]. [sockAlive] is the
    liveness of the transport's socket, read by [isConnected]. *)
Record Manager := {
  sshConfig : SSHConfig;
  conn : option bool;
  suShell : bool;
  isElevated : bool;
  suPromise : SuPromise
}.

Definition isConnected (m : Manager) : bool :=
  match conn m with
  | Some sockAlive => sockAlive
  | None => false
  end.

Definition setConn (m : Manager) (c : option bool) : Manager :=
  {| sshConfig := sshConfig m; conn := c; suShell := suShell m; isElevated := isElevated m;
     suPromise := suPromise m |}.

Definition setSuPromise (m : Manager) (p : SuPromise) : Manager :=
  {| sshConfig := sshConfig m; conn := conn m; suShell := suShell m;
     isElevated := isElevated m; suPromise := p |}.

(** The dialogue succeeds: [suShell], [isElevated] and [suPromise] are
    set together. *)
Definition setElevated (m : Manager) : Manager :=
  {| sshConfig := sshConfig m; conn := conn m; suShell := true; isElevated := true;
     suPromise := SuIdle |}.

(** The su dialogue ends as [o] says; every way of ending sets
    [suPromise] back to [null]. *)
Definition dialogueEnds (m : Manager) (o : ElevationOutcome) : (string + unit) * Manager :=
  match o with
  | SuGranted => (inr tt, setElevated m)
  | SuRejected reason => (inl reason, setSuPromise m SuIdle)
  end.

(** [ensureElevated], awaited to its end: the two early returns and the
    promise that is already there, then a new su shell, whose dialogue
    ends as the outcome says. The executor of the new promise starts with
    [getConnection], which throws when there is no connection. *)
Definition ensureElevated (m : Manager) (o : ElevationOutcome)
  : (string + unit) * Manager * list Action :=
  if isElevated m && suShell m then (inr tt, m, [])
  else if negb (truthyOpt (suPassword (sshConfig m))) then (inr tt, m, [])
  else
    match suPromise m with
    | SuBroken reason => (inl reason, m, [])
    | SuPending => let '(r, m') := dialogueEnds m o in (r, m', [])
    | SuIdle =>
        match conn m with
        | None =>
            let reason :=
              "SSH connection not established (" ++ formatTargetContext (sshConfig m) ++ ")" in
            (inl reason, setSuPromise m (SuBroken reason), [])
        | Some _ =>
            let '(r, m') := dialogueEnds (setSuPromise m SuPending) o in
            (r, m', [ActOpenSuShell])
        end
    end.

(** [ensureElevated] has a su dialogue to wait for: neither of the early
    returns applies, and the promise, new or already there, is pending. *)
Definition awaitsDialogue (m : Manager) : bool :=
  negb (isElevated m && suShell m)
  && truthyOpt (suPassword (sshConfig m))
  && match suPromise m with
     | SuBroken _ => false
     | SuPending => true
     | SuIdle => match conn m with Some _ => true | None => false end
     end.

(** The handler of [error] runs while [ensureElevated] is awaited: the
    connection is forgotten, and the dialogue goes on unawaited, to end
    as [later] says if it ends before the manager is used again. *)
Definition interrupted (m : Manager) (later : option ElevationOutcome) : Manager :=
  let m := setConn (setSuPromise m SuPending) None in
  match later with
  | Some o => snd (dialogueEnds m o)
  | None => m
  end.

Definition timeoutError : JsError :=
  {| message := "SSH connection timeout"; code := Some "ETIMEDOUT" |}.

(** The error with which one attempt fails before its client is ready,
    if it does. *)
Definition failure (a : Attempt) : option JsError :=
  match transport a with
  | Ready => None
  | ErrorEvent err => Some err
  | Silent => Some timeoutError
  | ReadyThenError _ _ => None
  end.

(** The handler of [ready] in [connectOnce], when no error comes in its
    way. *)
Definition onReady (testMode : option string) (m : Manager) (n : nat) (o : ElevationOutcome)
  : (JsError + unit) * Manager * list Action :=
  if truthyOpt (suPassword (sshConfig m)) && negb (truthyOpt testMode) then
    (* try { await this.ensureElevated(); } catch { } *)
    let '(_, m', acts) := ensureElevated m o in
    (inr tt, m', ActClientConnect n :: ActEnsureElevated :: acts)
  else (inr tt, m, [ActClientConnect n]).

(** [connectOnce]. [testMode] is [process.env.SSH_MCP_TEST]. *)
Definition connectOnce (testMode : option string) (m : Manager) (n : nat) (a : Attempt)
  : (JsError + unit) * Manager * list Action :=
  let m := setConn m (Some true) in
  match transport a with
  | Silent => (inl timeoutError, setConn m None, [ActClientConnect n])
  | ErrorEvent err => (inl err, setConn m None, [ActClientConnect n])
  | Ready => onReady testMode m n (elevation a)
  | ReadyThenError err later =>
      if negb (truthyOpt testMode) && awaitsDialogue m then
        (* reject(err) comes before the resolve() that follows the await *)
        (inl err, interrupted m later,
         ActClientConnect n :: ActEnsureElevated ::
         match suPromise m with SuIdle => [ActOpenSuShell] | _ => [] end)
      else onReady testMode m n (elevation a)
  end.

(** [connectWithRetry]: the [for] loop over [attempt], with [remaining]
    counting the iterations that are left. The last equation is the
    [throw] after the loop. *)
Fixpoint retryLoop (testMode : option string) (script : nat -> Attempt)
    (remaining attempt : nat) (lastError : JsError) (m : Manager)
  : (string + unit) * Manager * list Action :=
  match remaining with
  | O => (inl (wrapConnectionError (sshConfig m) lastError), m, [])
  | S remaining' =>
      match connectOnce testMode m attempt (script attempt) with
      | (inr _, m', acts) => (inr tt, m', acts)
      | (inl err, m', acts) =>
          if negb (isRetryableConnectionError err)
             || (attempt =? length DEFAULT_CONNECT_RETRY_DELAYS_MS)%nat
          then (inl (wrapConnectionError (sshConfig m') err), m', acts)
          else
            let delay := nth attempt DEFAULT_CONNECT_RETRY_DELAYS_MS 0 in
            let '(r, m'', acts') :=
              retryLoop testMode script remaining' (S attempt) err m' in
            (r, m'', (acts ++ ActSleep delay :: acts')%list)
      end
  end.

Definition undefinedError : JsError := {| message := "undefined"; code := None |}.

Definition connectWithRetry (testMode : option string) (script : nat -> Attempt) (m : Manager)
  : (string + unit) * Manager * list Action :=
  retryLoop testMode script (S (length DEFAULT_CONNECT_RETRY_DELAYS_MS)) 0 undefinedError m.

(** [connect] of a manager with no connect in flight. *)
Definition connect (testMode : option string) (script : nat -> Attempt) (m : Manager)
  : (string + unit) * Manager * list Action :=
  if isConnected m then (inr tt, m, [])
  else connectWithRetry testMode script m.

End Conn.

(** ** execSshCommandWithConnection *)
Module Exec.
Import JsString Conn.

Definition newline : string := String (ascii_of_N 10) "".

(** The [code] argument of the channel's close event: an exit status,
    [null] (the process died on a signal) or [undefined]. *)
Inductive ExitCode :=
| ExitStatus (n : Z)
| ExitNull
| ExitUndefined.

Definition showExitCode (c : ExitCode) : string :=
  match c with
  | ExitStatus n => pretty n
  | ExitNull => "null"
  | ExitUndefined => "undefined"
  end.

(** How the returned promise settles. *)
Inductive Settlement :=
| Resolved (text : string)
| Rejected (message : string).

(** What can happen while a command is in flight. *)
Inductive Event :=
| TimerFired
| ExecCallback (err : option string)
| StdoutData (chunk : string)
| StderrData (chunk : string)
| ChannelClose (code : ExitCode)
| ShellData (chunk : string).

Record Run := {
  isResolved : bool;
  settlement : option Settlement;
  streamOpen : bool;
  stdout : string;
  stderr : string;
  listening : bool;
  buffer : string
}.

Definition settle (r : Run) (s : Settlement) : Run :=
  {| isResolved := true; settlement := Some s; streamOpen := streamOpen r;
     stdout := stdout r; stderr := stderr r;
     listening := listening r; buffer := buffer r |}.

(** [s.split('\n')]. *)
Fixpoint splitLines (s : string) : list string :=
  match s with
  | EmptyString => [""]
  | String c r =>
      if Ascii.eqb c (ascii_of_N 10) then "" :: splitLines r
      else
        match splitLines r with
        | [] => [String c ""]
        | l :: ls => String c l :: ls
        end
  end.

(** [lines.slice(1, -1)]. *)
Definition sliceInner (lines : list string) : list string :=
  removelast (tl lines).

Definition timeoutMessage (timeoutMs : Z) (target : string) : string :=
  "Command execution timed out after " ++ pretty timeoutMs ++ "ms (" ++ target ++ ")".

(** The elevated path: the data handler on the su shell. *)
Definition onShellData (r : Run) (chunk : string) : Run :=
  if negb (listening r) then r
  else
    let buffer' := buffer r ++ chunk in
    let r := {| isResolved := isResolved r; settlement := settlement r;
                streamOpen := streamOpen r; stdout := stdout r; stderr := stderr r;
                listening := listening r; buffer := buffer' |} in
    if negb (includes buffer' "#") then r
    else
      let r :=
        if negb (isResolved r) then
          let output := join newline (sliceInner (splitLines buffer')) in
          settle r (Resolved (output ++ (if truthy output then newline else "")))
        else r in
      {| isResolved := isResolved r; settlement := settlement r;
         streamOpen := streamOpen r; stdout := stdout r; stderr := stderr r;
         listening := false; buffer := buffer r |}.

(** One event of the run, on either path. *)
Definition step (target : string) (timeoutMs : Z) (elevated : bool) (r : Run) (e : Event) : Run :=
  match e with
  | TimerFired =>
      if negb (isResolved r) then settle r (Rejected (timeoutMessage timeoutMs target))
      else r
  | ShellData chunk => if elevated then onShellData r chunk else r
  | ExecCallback err =>
      if elevated || streamOpen r then r
      else
        match err with
        | Some msg =>
            if negb (isResolved r)
            then settle r (Rejected ("SSH exec error (" ++ target ++ "): " ++ msg))
            else r
        | None =>
            {| isResolved := isResolved r; settlement := settlement r;
               streamOpen := true; stdout := ""; stderr := "";
               listening := listening r; buffer := buffer r |}
        end
  | StdoutData chunk =>
      if streamOpen r then
        {| isResolved := isResolved r; settlement := settlement r;
           streamOpen := true; stdout := stdout r ++ chunk; stderr := stderr r;
           listening := listening r; buffer := buffer r |}
      else r
  | StderrData chunk =>
      if streamOpen r then
        {| isResolved := isResolved r; settlement := settlement r;
           streamOpen := true; stdout := stdout r; stderr := stderr r ++ chunk;
           listening := listening r; buffer := buffer r |}
      else r
  | ChannelClose code =>
      if negb (streamOpen r) then r
      else if isResolved r then r
      else if truthy (stderr r) then
        settle r (Rejected ("Error (code " ++ showExitCode code ++ ") (" ++ target ++ "):"
                            ++ newline ++ stderr r))
      else settle r (Resolved (stdout r))
  end.

Definition start (elevated : bool) : Run :=
  {| isResolved := false; settlement := None; streamOpen := false;
     stdout := ""; stderr := ""; listening := elevated; buffer := "" |}.

Definition runEvents (target : string) (timeoutMs : Z) (elevated : bool)
    (r : Run) (events : list Event) : Run :=
  fold_left (step target timeoutMs elevated) events r.

(** [execSshCommandWithConnection(manager, command, timeoutMs)]: how the
    promise has settled once [events] have been delivered, [None] while
    it is pending. A missing connection makes the executor throw. *)
Definition execSshCommandWithConnection (m : Manager) (timeoutMs : Z) (events : list Event)
  : option Settlement :=
  let target := formatTargetContext (sshConfig m) in
  match conn m with
  | None => Some (Rejected ("SSH connection not established (" ++ target ++ ")"))
  | Some _ => settlement (runEvents target timeoutMs (suShell m) (start (suShell m)) events)
  end.

(** The standard-error text and the state of the stream at the moment
    [events] have been delivered (default path). *)
Definition stateAfter (m : Manager) (timeoutMs : Z) (events : list Event) : Run :=
  runEvents (formatTargetContext (sshConfig m)) timeoutMs (suShell m) (start (suShell m)) events.

(** The promise is pending, or it has been rejected. *)
Definition notResolved (r : Run) : Prop :=
  match settlement r with
  | Some (Resolved _) => False
  | Some (Rejected _) => isResolved r = true
  | None => isResolved r = false
  end.

(** Data events that leave the captured standard error empty. *)
Definition quietData (e : Event) : bool :=
  match e with
  | StdoutData _ => true
  | StderrData chunk => String.eqb chunk ""
  | _ => false
  end.

(** The standard output carried by a sequence of events. *)
Fixpoint stdoutOf (events : list Event) : string :=
  match events with
  | [] => ""
  | StdoutData chunk :: rest => chunk ++ stdoutOf rest
  | _ :: rest => stdoutOf rest
  end.

End Exec.

(** ** Untyped documents *)
Module Json.

(** A parsed YAML/JSON document. Numbers are rationals; an object is the
    list of its own properties in insertion order. *)
#[warnings="-register-all"]
Inductive json :=
| JNull
| JBool (b : bool)
| JNum (q : Q)
| JStr (s : string)
| JArr (items : list json)
| JObj (fields : list (string * json)).

Definition obj := list (string * json).

Definition jint (n : Z) : json := JNum (inject_Z n).

(** [o[k]]; [None] is [undefined]. *)
Fixpoint getProp (k : string) (o : obj) : option json :=
  match o with
  | [] => None
  | (k', v) :: r => if String.eqb k' k then Some v else getProp k r
  end.

(** [o[k] = v]: an existing property keeps its place, a new one goes last. *)
Fixpoint setProp (k : string) (v : json) (o : obj) : obj :=
  match o with
  | [] => [(k, v)]
  | (k', v') :: r => if String.eqb k' k then (k, v) :: r else (k', v') :: setProp k v r
  end.

(** The value is an integer: [Number.isInteger]. *)
Definition asInteger (q : Q) : option Z :=
  if (Qnum q mod Zpos (Qden q) =? 0)%Z then Some (Qnum q / Zpos (Qden q))%Z else None.

End Json.

(** ** Results of fallible operations: [inl message] is a thrown [Error]. *)
Module Res.

Definition result (A : Type) : Type := string + A.

Definition ok {A} (a : A) : result A := inr a.
Definition throw {A} (message : string) : result A := inl message.

Definition bind {A B} (r : result A) (k : A -> result B) : result B :=
  match r with
  | inl e => inl e
  | inr a => k a
  end.

Fixpoint mapM {A B} (f : A -> result B) (l : list A) : result (list B) :=
  match l with
  | [] => ok []
  | x :: r => bind (f x) (fun y => bind (mapM f r) (fun ys => ok (y :: ys)))
  end.

Definition isOk {A} (r : result A) : bool :=
  match r with
  | inr _ => true
  | inl _ => false
  end.

End Res.

Notation "'do' x <- r ; k" := (Res.bind r (fun x => k))
  (at level 10, x name, r at level 100, k at level 200).

(** ** The collaborators of the store that are not part of the repository:
    Node's [path] module, the two serializers and the ISO rendering of a
    time stamp, and the host. Of the host the store sees
    [process.platform], and a file system of which the model tracks the
    content of the readable files; what else it holds or refuses is given
    here: [unreadable p] is the error of [readFile] on a path [p] that
    exists without being a file that can be read (a directory, a file
    without the permission), [mkdirError] and [chmodError] are the errors
    with which [mkdir] and [chmod] fail on a path, if they do. *)
Class Platform := {
  isAbsolute : string -> bool;
  dirname : string -> string;
  basename : string -> string;
  resolve : string -> string -> string;
  relative : string -> string -> string;
  stringifyYaml : Json.obj -> string;
  stringifyJson : Json.obj -> string;
  toISOString : Z -> string;
  isWin32 : bool;
  unreadable : string -> option string;
  mkdirError : string -> option string;
  chmodError : string -> option string
}.

(** ** src/config/types.ts *)
Module Types.
Import JsString Json Res.

Inductive ProfileAuth :=
| PasswordAuth (password : string)
| KeyAuth (keyPath : string).

Inductive MaxChars :=
| MaxCharsNone
| MaxCharsInt (n : Z).

Record ProfileDefaults := {
  timeout : option Z;
  maxChars : option MaxChars;
  disableSudo : option bool
}.

Record ProfileDefinition := {
  id : string;
  name : string;
  host : string;
  port : Z;
  user : string;
  auth : ProfileAuth;
  suPassword : option string;
  sudoPassword : option string;
  note : string;
  tags : list string
}.

Record ProfilesConfig := {
  activeProfile : string;
  defaults : ProfileDefaults;
  profiles : list ProfileDefinition
}.

Inductive Format := Yaml | JsonFormat.

Record LoadedProfilesConfig := {
  filePath : string;
  format : Format;
  config : ProfilesConfig;
  rawConfig : obj
}.

Definition zod {A} (issue : string) : result A := throw ("ZodError: " ++ issue).

Definition isDigit (c : ascii) : bool :=
  let n := code c in ((48 <=? n) && (n <=? 57))%N.

Fixpoint allDigits (s : string) : bool :=
  match s with
  | EmptyString => true
  | String c r => isDigit c && allDigits r
  end.

Fixpoint digitsValue (acc : Z) (s : string) : Z :=
  match s with
  | EmptyString => acc
  | String c r => digitsValue (10 * acc + (Z.of_N (code c) - 48)) r
  end.

(** [z.string().regex(/^-?\d+$/)] followed by [Number.parseInt(value, 10)]. *)
Definition intFromString (s : string) : option Z :=
  match s with
  | String "-" r =>
      if truthy r && allDigits r then Some (- digitsValue 0 r) else None
  | _ => if truthy s && allDigits s then Some (digitsValue 0 s) else None
  end.

(** [intLikeSchema]: an integer number or a string of digits. *)
Definition intLike (v : json) : result Z :=
  match v with
  | JNum q =>
      match asInteger q with
      | Some n => ok n
      | None => zod "Expected integer, received float"
      end
  | JStr s =>
      match intFromString s with
      | Some n => ok n
      | None => zod "Invalid input"
      end
  | _ => zod "Invalid input"
  end.

Definition positiveIntLike (v : json) : result Z :=
  do n <- intLike v;
  if 0 <? n then ok n else zod "must be a positive integer".

Definition booleanLike (v : json) : result bool :=
  match v with
  | JBool b => ok b
  | JStr s =>
      let lowered := toLowerCase (trim s) in
      if existsb (String.eqb lowered) ["true"; "1"; "yes"; "on"] then ok true
      else if existsb (String.eqb lowered) ["false"; "0"; "no"; "off"] then ok false
      else zod "must be a boolean-like value"
  | _ => zod "Invalid input"
  end.

Definition maxCharsConfig (v : json) : result MaxChars :=
  match v with
  | JStr "none" => ok MaxCharsNone
  | _ => do n <- intLike v; ok (MaxCharsInt n)
  end.

(** [schema.optional()]: [undefined] passes through. *)
Definition optional {A} (schema : json -> result A) (v : option json) : result (option A) :=
  match v with
  | None => ok None
  | Some v => do a <- schema v; ok (Some a)
  end.

(** [schema.default(d)]: [undefined] becomes [d]. *)
Definition withDefault {A} (schema : json -> result A) (d : A) (v : option json) : result A :=
  match v with
  | None => ok d
  | Some v => schema v
  end.

Definition required {A} (schema : json -> result A) (v : option json) : result A :=
  match v with
  | None => zod "Required"
  | Some v => schema v
  end.

Definition zString (v : json) : result string :=
  match v with
  | JStr s => ok s
  | _ => zod "Expected string"
  end.

(** [z.string().min(1, message)]. *)
Definition zStringMin1 (message : string) (v : json) : result string :=
  do s <- zString v;
  if truthy s then ok s else zod message.

(** [.strict()]: the input has no key outside the shape. *)
Definition strictKeys (shape : list string) (o : obj) : bool :=
  forallb (fun kv => existsb (String.eqb (fst kv)) shape) o.

Definition zObject (v : json) : result obj :=
  match v with
  | JObj o => ok o
  | _ => zod "Expected object"
  end.

Definition zStrictObject (shape : list string) (v : json) : result obj :=
  do o <- zObject v;
  if strictKeys shape o then ok o else zod "Unrecognized key(s) in object".

(** [profileAuthSchema]: the union discriminated by [type]. *)
Definition profileAuthSchema (v : json) : result ProfileAuth :=
  do o <- zObject v;
  match getProp "type" o with
  | Some (JStr "password") =>
      do o <- zStrictObject ["type"; "password"] v;
      do p <- required (zStringMin1 "password auth requires a non-empty password")
                (getProp "password" o);
      ok (PasswordAuth p)
  | Some (JStr "key") =>
      do o <- zStrictObject ["type"; "keyPath"] v;
      do p <- required (zStringMin1 "key auth requires a non-empty keyPath")
                (getProp "keyPath" o);
      ok (KeyAuth p)
  | _ => zod "Invalid discriminator value"
  end.

(** [profileDefaultsSchema]: unknown keys are stripped, not rejected. *)
Definition profileDefaultsSchema (v : json) : result ProfileDefaults :=
  do o <- zObject v;
  do t <- optional positiveIntLike (getProp "timeout" o);
  do m <- optional maxCharsConfig (getProp "maxChars" o);
  do d <- optional booleanLike (getProp "disableSudo" o);
  ok {| timeout := t; maxChars := m; disableSudo := d |}.

Definition emptyDefaults : ProfileDefaults :=
  {| timeout := None; maxChars := None; disableSudo := None |}.

Definition portSchema (v : json) : result Z :=
  do n <- positiveIntLike v;
  if n <=? 65535 then ok n else zod "port must be between 1 and 65535".

Definition zStringArray (v : json) : result (list string) :=
  match v with
  | JArr items => mapM zString items
  | _ => zod "Expected array"
  end.

Definition profileSchema (v : json) : result ProfileDefinition :=
  do o <- zStrictObject
            ["id"; "name"; "host"; "port"; "user"; "auth"; "suPassword";
             "sudoPassword"; "note"; "tags"] v;
  do id <- required (zStringMin1 "profile id is required") (getProp "id" o);
  do name <- required (zStringMin1 "profile name is required") (getProp "name" o);
  do host <- required (zStringMin1 "profile host is required") (getProp "host" o);
  do port <- withDefault portSchema 22 (getProp "port" o);
  do user <- required (zStringMin1 "profile user is required") (getProp "user" o);
  do auth <- required profileAuthSchema (getProp "auth" o);
  do su <- optional (zStringMin1 "String must contain at least 1 character(s)")
             (getProp "suPassword" o);
  do sudo <- optional (zStringMin1 "String must contain at least 1 character(s)")
               (getProp "sudoPassword" o);
  do note <- withDefault zString "" (getProp "note" o);
  do tags <- withDefault zStringArray [] (getProp "tags" o);
  ok {| id := id; name := name; host := host; port := port; user := user;
        auth := auth; suPassword := su; sudoPassword := sudo;
        note := note; tags := tags |}.

(** The [superRefine] of [profilesConfigSchema]: no id is seen twice. *)
Fixpoint uniqueIds (seen : list string) (ps : list ProfileDefinition) : bool :=
  match ps with
  | [] => true
  | p :: r =>
      if existsb (String.eqb (id p)) seen then false
      else uniqueIds (id p :: seen) r
  end.

Definition zVersion1 (v : json) : result unit :=
  match v with
  | JNum q => if Qeq_bool q 1 then ok tt else zod "Invalid literal value, expected 1"
  | _ => zod "Invalid literal value, expected 1"
  end.

Definition profilesConfigSchema (v : json) : result ProfilesConfig :=
  do o <- zStrictObject ["version"; "activeProfile"; "defaults"; "profiles"] v;
  do _ <- required zVersion1 (getProp "version" o);
  do active <- required (zStringMin1 "activeProfile is required") (getProp "activeProfile" o);
  do defaults <- withDefault profileDefaultsSchema emptyDefaults (getProp "defaults" o);
  do profiles <- required (fun v =>
                   match v with
                   | JArr [] => zod "at least one profile is required"
                   | JArr items => mapM profileSchema items
                   | _ => zod "Expected array"
                   end) (getProp "profiles" o);
  if uniqueIds [] profiles
  then ok {| activeProfile := active; defaults := defaults; profiles := profiles |}
  else zod "duplicate profile id".

End Types.

(** ** src/config/loader.ts *)
Module Loader.
Import JsString Json Res Types.

Definition isEnvNameChar (c : ascii) : bool :=
  let n := code c in
  (((65 <=? n) && (n <=? 90)) || ((48 <=? n) && (n <=? 57)) || (n =? 95))%N.

(** Where the scanner of [ENV_PATTERN] stands: outside a candidate, after
    a dollar sign, or inside the braces with the name read so far. *)
Inductive Scan :=
| Outside
| Dollar
| Name (acc : string).

(** [input.replace(ENV_PATTERN, ...)], one character at a time. A
    candidate that breaks off is copied as it stands and the offending
    character is read again from [Outside]; a candidate never contains a
    second dollar sign, so no match can start inside it. *)
Fixpoint expandScan (env : gmap string string) (st : Scan) (s : string) : result string :=
  match s with
  | EmptyString =>
      ok match st with
         | Outside => ""
         | Dollar => "$"
         | Name acc => "${" ++ acc
         end
  | String c r =>
      let restart (pending : string) :=
        if Ascii.eqb c "$" then
          do t <- expandScan env Dollar r; ok (pending ++ t)
        else
          do t <- expandScan env Outside r; ok (pending ++ String c t) in
      match st with
      | Outside => restart ""
      | Dollar =>
          if Ascii.eqb c "{" then expandScan env (Name "") r
          else restart "$"
      | Name acc =>
          if isEnvNameChar c then expandScan env (Name (acc ++ String c "")) r
          else if Ascii.eqb c "}" && truthy acc then
            match env !! acc with
            | None => throw ("Missing required environment variable: " ++ acc)
            | Some envValue => do t <- expandScan env Outside r; ok (envValue ++ t)
            end
          else restart ("${" ++ acc)
      end
  end.

Definition expandEnvString (env : gmap string string) (input : string) : result string :=
  expandScan env Outside input.

Fixpoint expandEnv (env : gmap string string) (value : json) : result json :=
  match value with
  | JStr s => do s' <- expandEnvString env s; ok (JStr s')
  | JArr items =>
      do items' <-
        (fix each (l : list json) : result (list json) :=
           match l with
           | [] => ok []
           | x :: r => do x' <- expandEnv env x; do r' <- each r; ok (x' :: r')
           end) items;
      ok (JArr items')
  | JObj fields =>
      do fields' <-
        (fix each (l : list (string * json)) : result (list (string * json)) :=
           match l with
           | [] => ok []
           | (k, x) :: r => do x' <- expandEnv env x; do r' <- each r; ok ((k, x') :: r')
           end) fields;
      ok (JObj fields')
  | _ => ok value
  end.

Definition ensureActiveProfileExists (config : ProfilesConfig) : result unit :=
  if existsb (fun profile => String.eqb (id profile) (activeProfile config)) (profiles config)
  then ok tt
  else throw ("activeProfile " ++ quoted (activeProfile config)
              ++ " does not exist in profiles").

Section WithPlatform.
Context {platform : Platform}.

Definition resolveKeyPath (keyPath configFilePath : string) : string :=
  if isAbsolute keyPath then keyPath
  else resolve (dirname configFilePath) keyPath.

(** [access(path)]: the path exists, as a file that can be read or as
    another entry of the file system. *)
Definition access (files : gmap string string) (path : string) : bool :=
  bool_decide (is_Some (files !! path)) || bool_decide (is_Some (unreadable path)).

(** [readFile(path, 'utf8')]. *)
Definition readFile (files : gmap string string) (path : string) : result string :=
  match files !! path with
  | Some content => ok content
  | None =>
      match unreadable path with
      | Some message => throw message
      | None => throw ("ENOENT: no such file or directory, open '" ++ path ++ "'")
      end
  end.

(** The body of the loop of [validateProfileAuthFields]; [files] is
    the file system, tested by [access]. *)
Definition validateProfileAuth (files : gmap string string) (filePath : string)
    (profile : ProfileDefinition) : result unit :=
  match auth profile with
  | PasswordAuth password =>
      if negb (truthy password) || String.eqb (trim password) ""
      then throw ("Profile " ++ quoted (id profile) ++ " requires auth.password")
      else ok tt
  | KeyAuth keyPath =>
      if negb (truthy keyPath) || String.eqb (trim keyPath) ""
      then throw ("Profile " ++ quoted (id profile) ++ " requires auth.keyPath")
      else
        let resolvedPath := resolveKeyPath keyPath filePath in
        if access files resolvedPath then ok tt
        else throw ("Profile " ++ quoted (id profile)
                    ++ " keyPath does not exist: " ++ resolvedPath)
  end.

Fixpoint validateProfileAuthFields (files : gmap string string) (filePath : string)
    (ps : list ProfileDefinition) : result unit :=
  match ps with
  | [] => ok tt
  | profile :: r =>
      do _ <- validateProfileAuth files filePath profile;
      validateProfileAuthFields files filePath r
  end.

(** [validateRawProfilesConfig]. The deep clone is the identity on
    document trees. *)
Definition validateRawProfilesConfig (env files : gmap string string)
    (rawConfig : obj) (filePath : string) : result ProfilesConfig :=
  do expandedConfig <- expandEnv env (JObj rawConfig);
  do parsedConfig <- profilesConfigSchema expandedConfig;
  do _ <- ensureActiveProfileExists parsedConfig;
  do _ <- validateProfileAuthFields files filePath (profiles parsedConfig);
  ok parsedConfig.

Definition serializeRawConfig (rawConfig : obj) (format : Format) : string :=
  match format with
  | JsonFormat => stringifyJson rawConfig ++ String (ascii_of_N 10) ""
  | Yaml => stringifyYaml rawConfig
  end.

(** [saveRawProfilesConfig]: the one write to the configuration file. *)
Definition saveRawProfilesConfig (loaded : LoadedProfilesConfig)
    (files : gmap string string) : gmap string string :=
  <[filePath loaded := serializeRawConfig (rawConfig loaded) (format loaded)]> files.

End WithPlatform.

End Loader.

(** The summary of a profile shown by the listing operations. *)
Module Summary.
Import Types.

Inductive AuthSummary :=
| PasswordSummary (mask : string)
| KeySummary (keyFile : string).

Record t := {
  id : string;
  name : string;
  host : string;
  port : Z;
  user : string;
  note : string;
  tags : list string;
  auth : AuthSummary;
  active : bool
}.

Definition profileSummary {platform : Platform} (profile : ProfileDefinition) (activeProfileId : string) : t :=
  {| id := Types.id profile;
     name := Types.name profile;
     host := Types.host profile;
     port := Types.port profile;
     user := Types.user profile;
     note := Types.note profile;
     tags := Types.tags profile;
     auth := match Types.auth profile with
             | PasswordAuth _ => PasswordSummary "***"
             | KeyAuth keyPath => KeySummary (basename keyPath)
             end;
     active := String.eqb (Types.id profile) activeProfileId |}.

End Summary.

(** ** src/profile/profile-manager.ts *)
Module Store.
Import JsString Json Res Types Loader.

Record PendingDeleteRequest := {
  requestId : string;
  profileId : string;
  backupPath : string;
  createdAt : Z;
  expiresAt : Z
}.

(** The fields of a [ProfileManager] instance. *)
Record ProfileManager := {
  loadedConfig : option LoadedProfilesConfig;
  activeProfileId : option string;
  profileOverride : option string;
  configPath : string;
  pendingDeletes : gmap string PendingDeleteRequest
}.

(** A manager together with the file system it reads and writes. *)
Record Sys := {
  manager : ProfileManager;
  files : gmap string string
}.

(** A method of the manager: it ends with a value or a thrown error, and
    the effects made before a throw stay. *)
Definition M (A : Type) : Type := Sys -> result A * Sys.

Definition ret {A} (a : A) : M A := fun s => (ok a, s).

Definition raise {A} (message : string) : M A := fun s => (throw message, s).

Definition bindM {A B} (m : M A) (k : A -> M B) : M B :=
  fun s =>
    match m s with
    | (inl e, s') => (inl e, s')
    | (inr a, s') => k a s'
    end.

Definition lift {A} (r : result A) : M A := fun s => (r, s).

Definition getManager : M ProfileManager := fun s => (ok (manager s), s).

Definition getFiles : M (gmap string string) := fun s => (ok (files s), s).

Definition putFiles (f : gmap string string) : M unit :=
  fun s => (ok tt, {| manager := manager s; files := f |}).

Definition modifyManager (f : ProfileManager -> ProfileManager) : M unit :=
  fun s => (ok tt, {| manager := f (manager s); files := files s |}).

(** The method [m] leaves every pending request whose id is [untouched]
    as it found it, whether it returns or throws. *)
Definition keepsRequests {A} (untouched : string -> Prop) (m : M A) : Prop :=
  forall s r,
    untouched r ->
    pendingDeletes (manager (snd (m s))) !! r = pendingDeletes (manager s) !! r.

End Store.

Notation "'await' x <- m ; k" := (Store.bindM m (fun x => k))
  (at level 10, x name, m at level 100, k at level 200).

Module Prepared.
(** The value returned by [prepareDeleteProfile]. *)
Record t := {
  deleteRequestId : string;
  profile : Summary.t;
  backupPath : string;
  expiresAt : string;
  confirmationText : string;
  warning : string
}.
End Prepared.

Module Confirmed.
(** The value returned by [confirmDeleteProfile]. *)
Record t := {
  deletedProfileId : string;
  deletedProfile : Summary.t;
  activeProfile : string;
  persistedActiveProfile : string;
  backupPath : string
}.
End Confirmed.

Module CreateInput.
Import Types.
(** [ProfileCreateInput]. *)
Record t := {
  id : string;
  name : string;
  host : string;
  port : option Z;
  user : string;
  auth : ProfileAuth;
  suPassword : option string;
  sudoPassword : option string;
  note : option string;
  tags : option (list string);
  contextSummary : option string;
  activate : option bool
}.
End CreateInput.

Module Reloaded.
(** The value returned by [reload]. *)
Record t := {
  configPath : string;
  activeProfile : string;
  profileCount : nat;
  profiles : list Summary.t
}.
End Reloaded.

Module Found.
(** An entry returned by [findProfiles]: the summary, and [matchScore]
    when the entry went through the scoring. *)
Record t := {
  profile : Summary.t;
  matchScore : option Z
}.
End Found.

Module Manager.
Import JsString Json Res Types Loader Store.

Definition hasProfile (profiles : list ProfileDefinition) (profileId : string) : bool :=
  existsb (fun profile => String.eqb (id profile) profileId) profiles.

(** [profiles.find((item) => item.id === profileId)]. *)
Definition findProfile (profiles : list ProfileDefinition) (profileId : string)
  : option ProfileDefinition :=
  List.find (fun item => String.eqb (id item) profileId) profiles.

(** [cloneRawConfig]: a deep copy, so that the document held by the
    manager is not touched by the edits that follow. *)
Definition cloneRawConfig (rawConfig : obj) : obj := rawConfig.

Definition isReasonChar (c : ascii) : bool :=
  let n := code c in
  (((97 <=? n) && (n <=? 122)) || ((65 <=? n) && (n <=? 90)) || ((48 <=? n) && (n <=? 57))
   || (n =? 46) || (n =? 95) || (n =? 45))%N.

(** Every maximal run of at least [least] characters satisfying [p] is
    replaced by [repl]; [run] is the run read so far. *)
Fixpoint replaceRuns (p : ascii -> bool) (least : nat) (repl : string) (run : string) (s : string)
  : string :=
  let flush := if (least <=? String.length run)%nat then repl else run in
  match s with
  | EmptyString => match run with EmptyString => "" | _ => flush end
  | String c r =>
      if p c then replaceRuns p least repl (run ++ String c "") r
      else match run with
           | EmptyString => String c (replaceRuns p least repl "" r)
           | _ => flush ++ String c (replaceRuns p least repl "" r)
           end
  end.

Fixpoint dropLeading (p : ascii -> bool) (s : string) : string :=
  match s with
  | EmptyString => EmptyString
  | String c r => if p c then dropLeading p r else s
  end.

Fixpoint dropTrailing (p : ascii -> bool) (s : string) : string :=
  match s with
  | EmptyString => EmptyString
  | String c r =>
      match dropTrailing p r with
      | EmptyString => if p c then EmptyString else String c EmptyString
      | r' => String c r'
      end
  end.

Definition isUnderscore (c : ascii) : bool := Ascii.eqb c "_".
Definition isDot (c : ascii) : bool := Ascii.eqb c ".".

Definition sanitizeBackupReason (reason : string) : string :=
  let s1 := replaceRuns (fun c => negb (isReasonChar c)) 1 "_" "" reason in
  let s2 := replaceRuns isDot 2 "_" "" s1 in
  let s3 := replaceRuns isUnderscore 1 "_" "" s2 in
  let sanitized := dropTrailing isUnderscore (dropLeading isUnderscore s3) in
  if (String.length sanitized =? 0)%nat then "backup"
  else substring 0 80 sanitized.

Definition readPersistedActiveProfileId (rawConfig : obj) (fallback : string) : string :=
  match getProp "activeProfile" rawConfig with
  | Some (JStr rawActive) =>
      if (0 <? String.length (trim rawActive))%nat then rawActive else fallback
  | _ => fallback
  end.

Definition toShortNote (input : string) : string :=
  let normalized := trim (replaceRuns isWhiteSpace 1 " " "" input) in
  if (String.length normalized <=? 120)%nat then normalized
  else substring 0 117 normalized ++ "...".

Definition defaultNoteForProfile (input : CreateInput.t) : string :=
  let explicit :=
    match CreateInput.note input with
    | Some note => truthy note && (0 <? String.length (trim note))%nat
    | None => false
    end in
  if explicit then toShortNote (default "" (CreateInput.note input))
  else
    let hints1 :=
      match CreateInput.contextSummary input with
      | Some summary =>
          if truthy summary && (0 <? String.length (trim summary))%nat
          then [trim summary] else []
      | None => []
      end in
    let hints2 :=
      match CreateInput.tags input with
      | Some tags =>
          if (0 <? length tags)%nat then ["tags:" ++ join "," tags] else []
      | None => []
      end in
    let hints3 := [CreateInput.name input ++ "(" ++ CreateInput.host input ++ ")"] in
    toShortNote (join " | " (hints1 ++ hints2 ++ hints3)%list).

Definition setLoadedConfig (loaded : LoadedProfilesConfig) (this : ProfileManager) : ProfileManager :=
  {| loadedConfig := Some loaded; activeProfileId := activeProfileId this;
     profileOverride := profileOverride this; configPath := configPath this;
     pendingDeletes := pendingDeletes this |}.

Definition setActiveProfileId (active : string) (this : ProfileManager) : ProfileManager :=
  {| loadedConfig := loadedConfig this; activeProfileId := Some active;
     profileOverride := profileOverride this; configPath := configPath this;
     pendingDeletes := pendingDeletes this |}.

Definition setPendingDeletes (pending : gmap string PendingDeleteRequest) (this : ProfileManager)
  : ProfileManager :=
  {| loadedConfig := loadedConfig this; activeProfileId := activeProfileId this;
     profileOverride := profileOverride this; configPath := configPath this;
     pendingDeletes := pending |}.

Definition ensureLoaded : M LoadedProfilesConfig :=
  await this <- getManager;
  match loadedConfig this with
  | Some loaded =>
      if truthyOpt (activeProfileId this) then ret loaded
      else raise "ProfileManager is not initialized"
  | None => raise "ProfileManager is not initialized"
  end.

(** The loop of [pickActiveProfileId] over its candidates. *)
Fixpoint firstCandidate (profiles : list ProfileDefinition) (candidates : list (option string))
  : result string :=
  match candidates with
  | [] => throw "Unable to resolve an active profile from configuration"
  | candidate :: rest =>
      if negb (truthyOpt candidate) then firstCandidate profiles rest
      else if hasProfile profiles (default "" candidate) then ok (default "" candidate)
      else firstCandidate profiles rest
  end.

Definition pickActiveProfileId (this : ProfileManager) (loaded : LoadedProfilesConfig)
    (preferred : option string) : result string :=
  firstCandidate (profiles (config loaded))
    [preferred; profileOverride this; Some (activeProfile (config loaded))].

(** [getRawProfiles]: the items of [rawConfig.profiles], each an object. *)
Definition getRawProfiles (rawConfig : obj) : result (list obj) :=
  match getProp "profiles" rawConfig with
  | Some (JArr rawProfiles) =>
      mapM (fun item =>
              match item with
              | JObj o => ok o
              | _ => throw "Invalid raw profile item"
              end) rawProfiles
  | _ => throw "Invalid raw config: profiles is not an array"
  end.

(** [item.id !== profileId] on a raw item. *)
Definition rawIdDiffers (profileId : string) (item : obj) : bool :=
  match getProp "id" item with
  | Some (JStr s) => negb (String.eqb s profileId)
  | _ => true
  end.

Definition getActiveProfileId : M string :=
  await _ <- ensureLoaded;
  await this <- getManager;
  ret (default "" (activeProfileId this)).

Definition getProfile (profileId : string) : M ProfileDefinition :=
  await loaded <- ensureLoaded;
  match findProfile (profiles (config loaded)) profileId with
  | Some profile => ret profile
  | None => raise ("Profile " ++ quoted profileId ++ " does not exist")
  end.

Definition getProfileMaybe (profileId : string) : M (option ProfileDefinition) :=
  await loaded <- ensureLoaded;
  ret (findProfile (profiles (config loaded)) profileId).

Section Methods.
Context {platform : Platform}.

Definition persistRawConfig (env : gmap string string) (rawConfig : obj)
    (preferredActiveId : option string) : M unit :=
  await currentLoaded <- ensureLoaded;
  await this <- getManager;
  await disk <- getFiles;
  await parsedConfig <- lift (validateRawProfilesConfig env disk rawConfig (configPath this));
  let nextLoaded :=
    {| filePath := filePath currentLoaded; format := format currentLoaded;
       config := parsedConfig; rawConfig := rawConfig |} in
  await _ <- putFiles (saveRawProfilesConfig nextLoaded disk);
  await _ <- modifyManager (setLoadedConfig nextLoaded);
  await this <- getManager;
  await active <- lift (pickActiveProfileId this nextLoaded
                          match preferredActiveId with
                          | Some p => Some p
                          | None => activeProfileId this
                          end);
  modifyManager (setActiveProfileId active).

(** [initialize], from the point where the parser has turned the content
    of the file into [rawConfig]: the rest of [loadProfilesConfig]
    validates the document, and the active id is picked. *)
Definition initialize (env : gmap string string) (format : Format) (rawConfig : obj) : M unit :=
  await this <- getManager;
  await disk <- getFiles;
  await parsedConfig <- lift (validateRawProfilesConfig env disk rawConfig (configPath this));
  let loaded :=
    {| filePath := configPath this; format := format;
       config := parsedConfig; rawConfig := rawConfig |} in
  await _ <- modifyManager (setLoadedConfig loaded);
  await active <- lift (pickActiveProfileId this loaded (profileOverride this));
  modifyManager (setActiveProfileId active).

Definition listProfiles : M (list Summary.t) :=
  await loaded <- ensureLoaded;
  await this <- getManager;
  let activeId := default "" (activeProfileId this) in
  ret (map (fun profile => Summary.profileSummary profile activeId) (profiles (config loaded))).

Definition useProfile (profileId : string) : M Summary.t :=
  await loaded <- ensureLoaded;
  match findProfile (profiles (config loaded)) profileId with
  | None => raise ("Profile " ++ quoted profileId ++ " does not exist")
  | Some profile =>
      await _ <- modifyManager (setActiveProfileId profileId);
      ret (Summary.profileSummary profile profileId)
  end.

Definition setActiveProfile (env : gmap string string) (profileId : string) (persist : bool)
  : M Summary.t :=
  await profile <- getProfile profileId;
  await _ <-
    (if persist then
       await loaded <- ensureLoaded;
       let nextRawConfig := cloneRawConfig (rawConfig loaded) in
       let nextRawConfig := setProp "activeProfile" (JStr profileId) nextRawConfig in
       persistRawConfig env nextRawConfig (Some profileId)
     else modifyManager (setActiveProfileId profileId));
  await active <- getActiveProfileId;
  ret (Summary.profileSummary profile active).

(** The score that [findProfiles] gives to one summary. *)
Definition scoreOf (normalized : string) (record : Summary.t) : Z :=
  let id := toLowerCase (Summary.id record) in
  let name := toLowerCase (Summary.name record) in
  let host := toLowerCase (Summary.host record) in
  let user := toLowerCase (Summary.user record) in
  let note := toLowerCase (Summary.note record) in
  let tags := map toLowerCase (Summary.tags record) in
  let score := 0 in
  let score := if String.eqb id normalized then score + 100 else score in
  let score := if includes id normalized then score + 50 else score in
  let score := if String.eqb host normalized then score + 40 else score in
  let score := if includes host normalized then score + 20 else score in
  let score := if includes name normalized then score + 15 else score in
  let score := if includes user normalized then score + 10 else score in
  let score := if includes note normalized then score + 8 else score in
  let score := if existsb (fun tag => includes tag normalized) tags then score + 12 else score in
  score.

(** The eight tests of [scoreOf] in the order of the source, each with a
    label and the weight it adds. *)
Definition criteria (normalized : string) (record : Summary.t) : list (string * bool * Z) :=
  let id := toLowerCase (Summary.id record) in
  let name := toLowerCase (Summary.name record) in
  let host := toLowerCase (Summary.host record) in
  let user := toLowerCase (Summary.user record) in
  let note := toLowerCase (Summary.note record) in
  let tags := map toLowerCase (Summary.tags record) in
  [("exact id", String.eqb id normalized, 100);
   ("id substring", includes id normalized, 50);
   ("exact host", String.eqb host normalized, 40);
   ("host substring", includes host normalized, 20);
   ("name substring", includes name normalized, 15);
   ("user substring", includes user normalized, 10);
   ("note substring", includes note normalized, 8);
   ("tag substring", existsb (fun tag => includes tag normalized) tags, 12)].

(** The weights of the tests that hold, added up. *)
Definition earned (tests : list (string * bool * Z)) : Z :=
  fold_right (fun (t : string * bool * Z) acc => if snd (fst t) then snd t + acc else acc) 0 tests.

(** Every test of [scoreOf] other than the exact id holds. *)
Definition matchesAllButExactId (normalized : string) (record : Summary.t) : bool :=
  forallb (fun t : string * bool * Z => snd (fst t)) (tl (criteria normalized record)).

(** [Array.prototype.sort] with the comparator [(a, b) => b.score - a.score]:
    the sort is stable, so an item goes in front of the first item whose
    score is not greater than its own among those that followed it. *)
Fixpoint insertByScore (item : Z * Summary.t) (sorted : list (Z * Summary.t))
  : list (Z * Summary.t) :=
  match sorted with
  | [] => [item]
  | other :: rest =>
      if fst other <=? fst item then item :: other :: rest
      else other :: insertByScore item rest
  end.

(** The order in which the sort leaves two items. *)
Definition descending (a b : Z * Summary.t) : Prop := fst b <= fst a.

Definition sortByScore (items : list (Z * Summary.t)) : list (Z * Summary.t) :=
  foldr insertByScore [] items.

Definition findProfiles (query : string) : M (list Found.t) :=
  let normalized := toLowerCase (trim query) in
  await all <- listProfiles;
  if negb (truthy normalized) then
    ret (map (fun profile => {| Found.profile := profile; Found.matchScore := None |}) all)
  else
    let scored := map (fun profile => (scoreOf normalized profile, profile)) all in
    let kept := List.filter (fun item => 0 <? fst item) scored in
    let sorted := sortByScore kept in
    ret (map (fun item => {| Found.profile := snd item; Found.matchScore := Some (fst item) |})
           sorted).

(** [reload], from the point where the parser has turned the content of
    the file into [rawConfig]. *)
Definition reload (env : gmap string string) (format : Format) (rawConfig : obj)
  : M Reloaded.t :=
  await this <- getManager;
  let previousActiveId := activeProfileId this in
  await disk <- getFiles;
  await parsedConfig <- lift (validateRawProfilesConfig env disk rawConfig (configPath this));
  let loaded :=
    {| filePath := configPath this; format := format;
       config := parsedConfig; rawConfig := rawConfig |} in
  await _ <- modifyManager (setLoadedConfig loaded);
  await active <- lift (pickActiveProfileId this loaded previousActiveId);
  await _ <- modifyManager (setActiveProfileId active);
  await listing <- listProfiles;
  ret {| Reloaded.configPath := configPath this;
         Reloaded.activeProfile := active;
         Reloaded.profileCount := length (profiles (config loaded));
         Reloaded.profiles := listing |}.

(** [rawProfile.note = note] on the item that [findRawProfile] returns,
    the first one with [item.id === profileId]; [None] when there is
    none. *)
Fixpoint setRawNote (profileId note : string) (items : list obj) : option (list obj) :=
  match items with
  | [] => None
  | item :: rest =>
      if rawIdDiffers profileId item then
        match setRawNote profileId note rest with
        | Some rest' => Some (item :: rest')
        | None => None
        end
      else Some (setProp "note" (JStr note) item :: rest)
  end.

Definition updateNote (env : gmap string string) (profileId note : string) : M Summary.t :=
  await _ <- getProfile profileId;
  await loaded <- ensureLoaded;
  let nextRawConfig := cloneRawConfig (rawConfig loaded) in
  await rawProfiles <- lift (getRawProfiles nextRawConfig);
  match setRawNote profileId note rawProfiles with
  | None => raise ("Raw config profile " ++ quoted profileId ++ " not found")
  | Some rawProfiles' =>
      let nextRawConfig := setProp "profiles" (JArr (map JObj rawProfiles')) nextRawConfig in
      await _ <- persistRawConfig env nextRawConfig None;
      await profile <- getProfile profileId;
      await active <- getActiveProfileId;
      ret (Summary.profileSummary profile active)
  end.

Definition authJson (a : ProfileAuth) : json :=
  match a with
  | PasswordAuth password => JObj [("type", JStr "password"); ("password", JStr password)]
  | KeyAuth keyPath => JObj [("type", JStr "key"); ("keyPath", JStr keyPath)]
  end.

(** A property that is present only when its value is defined. *)
Definition definedProp (k : string) (v : option string) : obj :=
  match v with
  | Some s => [(k, JStr s)]
  | None => []
  end.

(** A property that is set only when its value is truthy. *)
Definition truthyProp (k : string) (v : option string) : obj :=
  if truthyOpt v then definedProp k v else [].

(** The object handed to [profileSchema.parse] by [createProfile]. *)
Definition candidateProfile (input : CreateInput.t) : json :=
  JObj ([("id", JStr (CreateInput.id input));
         ("name", JStr (CreateInput.name input));
         ("host", JStr (CreateInput.host input));
         ("port", jint (default 22 (CreateInput.port input)));
         ("user", JStr (CreateInput.user input));
         ("auth", authJson (CreateInput.auth input))]
        ++ definedProp "suPassword" (CreateInput.suPassword input)
        ++ definedProp "sudoPassword" (CreateInput.sudoPassword input)
        ++ [("note", JStr (defaultNoteForProfile input));
            ("tags", JArr (map JStr (default [] (CreateInput.tags input))))])%list.

(** The raw profile that [createProfile] appends to the document. *)
Definition rawProfileOf (input : CreateInput.t) (note : string) : obj :=
  ([("id", JStr (CreateInput.id input));
    ("name", JStr (CreateInput.name input));
    ("host", JStr (CreateInput.host input));
    ("port", jint (default 22 (CreateInput.port input)));
    ("user", JStr (CreateInput.user input));
    ("auth", authJson (CreateInput.auth input));
    ("note", JStr note);
    ("tags", JArr (map JStr (default [] (CreateInput.tags input))))]
   ++ truthyProp "suPassword" (CreateInput.suPassword input)
   ++ truthyProp "sudoPassword" (CreateInput.sudoPassword input))%list.

(** The edits that [createProfile] makes on the clone of the document:
    the raw profile is pushed onto [profiles], and [activeProfile] is set
    when the new profile is to be activated. *)
Definition appendRawProfile (rawConfig : obj) (input : CreateInput.t) (note : string)
  : result obj :=
  let nextRawConfig := cloneRawConfig rawConfig in
  do rawProfiles <- getRawProfiles nextRawConfig;
  let rawProfile := rawProfileOf input note in
  let nextRawConfig :=
    setProp "profiles" (JArr (map JObj (rawProfiles ++ [rawProfile])%list)) nextRawConfig in
  let shouldActivate := default true (CreateInput.activate input) in
  ok (if shouldActivate
      then setProp "activeProfile" (JStr (CreateInput.id input)) nextRawConfig
      else nextRawConfig).

Definition createProfile (env : gmap string string) (input : CreateInput.t) : M Summary.t :=
  await loaded <- ensureLoaded;
  await existing <- getProfileMaybe (CreateInput.id input);
  match existing with
  | Some _ => raise ("Profile " ++ quoted (CreateInput.id input) ++ " already exists")
  | None =>
      await parsed <- lift (profileSchema (candidateProfile input));
      await nextRawConfig <- lift (appendRawProfile (rawConfig loaded) input (note parsed));
      let shouldActivate := default true (CreateInput.activate input) in
      await this <- getManager;
      await _ <- persistRawConfig env nextRawConfig
                   (if shouldActivate then Some (CreateInput.id input)
                    else activeProfileId this);
      await profile <- getProfile (CreateInput.id input);
      await active <- getActiveProfileId;
      ret (Summary.profileSummary profile active)
  end.

(** [stamp.replace(/[:.]/g, '-')]. *)
Fixpoint dashStamp (s : string) : string :=
  match s with
  | EmptyString => EmptyString
  | String c r =>
      String (if Ascii.eqb c ":" || Ascii.eqb c "." then "-"%char else c) (dashStamp r)
  end.

(** [mkdir(dir, { recursive: true, mode: 0o700 })] and
    [chmod(path, 0o600)]: directories and modes are not tracked by the
    file system of the model, so that the calls leave it as it is; they
    fail when the host says so. *)
Definition mkdir (dir : string) : M unit :=
  match mkdirError dir with
  | Some message => raise message
  | None => ret tt
  end.

Definition chmod (path : string) : M unit :=
  match chmodError path with
  | Some message => raise message
  | None => ret tt
  end.

(** [backupCurrentConfig]. [clock] is the time read by [new Date()]. *)
Definition backupCurrentConfig (clock : Z) (reason : string) : M string :=
  await this <- getManager;
  let directory := dirname (configPath this) in
  let fileName := basename (configPath this) in
  let stamp := dashStamp (toISOString clock) in
  let safeReason := sanitizeBackupReason reason in
  let backupDir := resolve directory ".ssh-mcp-backups" in
  await _ <- mkdir backupDir;
  let backupFileName := fileName ++ "." ++ stamp ++ "." ++ safeReason ++ ".bak" in
  let backupPath := resolve backupDir backupFileName in
  let relativePath := relative backupDir backupPath in
  if startsWith relativePath ".." || isAbsolute relativePath then
    raise "Backup path escaped backup directory"
  else
    await disk <- getFiles;
    await content <- lift (readFile disk (configPath this));
    await _ <- putFiles (<[backupPath := content]> disk);
    await _ <- (if isWin32 then ret tt else chmod backupPath);
    ret backupPath.

(** [prepareDeleteProfile]. [clock] is read by the backup, [now] is
    [Date.now()], [uuid] is the value drawn by [randomUUID()]. *)
Definition prepareDeleteProfile (clock now : Z) (uuid : string) (profileId : string)
  : M Prepared.t :=
  await loaded <- ensureLoaded;
  await profile <- getProfile profileId;
  if (length (profiles (config loaded)) <=? 1)%nat then
    raise "Cannot delete the last profile in config"
  else
    await backupPath <- backupCurrentConfig clock ("delete-" ++ profileId);
    let createdAt := now in
    let expiresAt := createdAt + 10 * 60 * 1000 in
    let requestId := uuid in
    await this <- getManager;
    await _ <- modifyManager (setPendingDeletes
                 (<[requestId := {| requestId := requestId; profileId := profileId;
                                    backupPath := backupPath; createdAt := createdAt;
                                    expiresAt := expiresAt |}]> (pendingDeletes this)));
    await active <- getActiveProfileId;
    ret {| Prepared.deleteRequestId := requestId;
           Prepared.profile := Summary.profileSummary profile active;
           Prepared.backupPath := backupPath;
           Prepared.expiresAt := toISOString expiresAt;
           Prepared.confirmationText := "DELETE " ++ profileId;
           Prepared.warning := "Deletion is destructive. Confirm with the user before calling profiles-delete-confirm." |}.

(** [confirmDeleteProfile]. [now] is [Date.now()]. *)
Definition confirmDeleteProfile (env : gmap string string) (now : Z)
    (deleteRequestId profileId confirmationText : string) : M Confirmed.t :=
  await this <- getManager;
  match pendingDeletes this !! deleteRequestId with
  | None => raise ("Delete request " ++ quoted deleteRequestId ++ " does not exist or expired")
  | Some pending =>
      if expiresAt pending <? now then
        await _ <- modifyManager (setPendingDeletes (delete deleteRequestId (pendingDeletes this)));
        raise ("Delete request " ++ quoted deleteRequestId ++ " has expired")
      else if negb (String.eqb (Store.profileId pending) profileId) then
        raise "Delete request profile mismatch"
      else
        let expected := "DELETE " ++ profileId in
        if negb (String.eqb (trim confirmationText) expected) then
          raise ("Invalid confirmationText. Expected exactly: " ++ quoted expected)
        else
          await loaded <- ensureLoaded;
          await profileToDelete <- getProfile profileId;
          let nextProfiles :=
            List.filter (fun item => negb (String.eqb (id item) profileId))
              (profiles (config loaded)) in
          match nextProfiles with
          | [] => raise "Cannot delete the last profile in config"
          | first :: _ =>
              await runtimeActiveId <- getActiveProfileId;
              let persistedActiveId :=
                readPersistedActiveProfileId (rawConfig loaded) (activeProfile (config loaded)) in
              let nextPersistedActiveId :=
                if String.eqb persistedActiveId profileId then id first
                else persistedActiveId in
              let normalizedPersistedActiveId :=
                if hasProfile nextProfiles nextPersistedActiveId then nextPersistedActiveId
                else id first in
              let nextRuntimeActiveId :=
                if String.eqb runtimeActiveId profileId then normalizedPersistedActiveId
                else runtimeActiveId in
              let normalizedRuntimeActiveId :=
                if hasProfile nextProfiles nextRuntimeActiveId then nextRuntimeActiveId
                else normalizedPersistedActiveId in
              let nextRawConfig := cloneRawConfig (rawConfig loaded) in
              await rawProfiles <- lift (getRawProfiles nextRawConfig);
              let filteredRawProfiles := List.filter (rawIdDiffers profileId) rawProfiles in
              if (length filteredRawProfiles =? length rawProfiles)%nat then
                raise ("Raw config profile " ++ quoted profileId ++ " not found")
              else
                let nextRawConfig :=
                  setProp "profiles" (JArr (map JObj filteredRawProfiles)) nextRawConfig in
                let nextRawConfig :=
                  setProp "activeProfile" (JStr normalizedPersistedActiveId) nextRawConfig in
                await _ <- persistRawConfig env nextRawConfig (Some normalizedRuntimeActiveId);
                await this <- getManager;
                await _ <- modifyManager
                             (setPendingDeletes (delete deleteRequestId (pendingDeletes this)));
                ret {| Confirmed.deletedProfileId := profileId;
                       Confirmed.deletedProfile :=
                         Summary.profileSummary profileToDelete normalizedRuntimeActiveId;
                       Confirmed.activeProfile := normalizedRuntimeActiveId;
                       Confirmed.persistedActiveProfile := normalizedPersistedActiveId;
                       Confirmed.backupPath := backupPath pending |}
          end
  end.

End Methods.

End Manager.

(** ** Documents whose profile ids are written out

    [confirmDeleteProfile] and the other edits compare the ids of the
    validated profiles with the ids as they are written in the document.
    The two agree where the ids are written out: the id of each item of
    [profiles] is a string that the expansion of the environment leaves
    as it is. *)
Module Literal.
Import JsString Json Res Types Loader.



End Literal.

(** ** Concrete sessions used by the examples *)
Module Scenario.
Import Conn Exec.

Definition target : SSHConfig :=
  {| profileId := Some "alpha"; host := "10.0.0.5"; port := 22; username := "deploy";
     password := Some "secret-alpha"; privateKey := None;
     suPassword := Some "root-secret"; sudoPassword := None |}.

Definition fresh : Manager :=
  {| sshConfig := target; conn := None; suShell := false; isElevated := false;
     suPromise := SuIdle |}.

Definition connected : Manager :=
  {| sshConfig := target; conn := Some true; suShell := false; isElevated := false;
     suPromise := SuIdle |}.

Definition refused : JsError :=
  {| message := "connect ECONNREFUSED 10.0.0.5:22"; code := Some "ECONNREFUSED" |}.

Definition authFailed : JsError :=
  {| message := "All configured authentication methods failed"; code := None |}.

Definition alwaysRefused (n : nat) : Attempt :=
  {| transport := ErrorEvent refused; elevation := SuGranted |}.

(** Every attempt runs into the timer of thirty seconds. *)
Definition neverAnswers : nat -> Attempt :=
  fun _ => {| transport := Silent; elevation := SuGranted |}.

Definition wrongPassword (n : nat) : Attempt :=
  {| transport := ErrorEvent authFailed; elevation := SuGranted |}.

Definition readyButSuRejected (n : nat) : Attempt :=
  {| transport := Ready; elevation := SuRejected "su authentication failed" |}.

Definition brokenPipe : JsError := {| message := "write EPIPE"; code := Some "EPIPE" |}.

(** The client becomes ready, and its socket breaks while the su dialogue
    is awaited. *)
Definition brokenDuringSu (n : nat) : Attempt :=
  {| transport := ReadyThenError brokenPipe None; elevation := SuGranted |}.

(** A command that prints to both streams and exits with status 0. *)
Definition noisyRun : list Event :=
  [ExecCallback None; StdoutData "listing"; StderrData "warning: slow disk";
   ChannelClose (ExitStatus 0)].

(** A command whose timer fires before the channel closes with status 1. *)
Definition lateClose : list Event :=
  [ExecCallback None; StdoutData "partial"; TimerFired; ChannelClose (ExitStatus 1)].

(** A command that prints and exits with status 3, in time. *)
Definition failingQuietly : list Event :=
  [StdoutData "no match"; StderrData ""].

End Scenario.

(** ** A concrete platform and store used by the examples *)
Module StoreScenario.
Import JsString Json Res Types Loader Store Manager.

(** The part of a path before and after its last slash. *)
Fixpoint splitLast (s : string) : option (string * string) :=
  match s with
  | EmptyString => None
  | String c r =>
      match splitLast r with
      | Some (d, b) => Some (String c d, b)
      | None => if Ascii.eqb c "/" then Some ("", r) else None
      end
  end.

Fixpoint render (v : json) : string :=
  match v with
  | JNull => "null"
  | JBool b => if b then "true" else "false"
  | JNum q => pretty (Qnum q) ++ (if (Qden q =? 1)%positive then "" else "/" ++ pretty (Zpos (Qden q)))
  | JStr s => quoted s
  | JArr items =>
      "[" ++ (fix each (l : list json) : string :=
                match l with
                | [] => ""
                | x :: r => render x ++ "," ++ each r
                end) items ++ "]"
  | JObj fields =>
      "{" ++ (fix each (l : list (string * json)) : string :=
                match l with
                | [] => ""
                | (k, x) :: r => quoted k ++ ":" ++ render x ++ "," ++ each r
                end) fields ++ "}"
  end.

(** Paths without dot segments on a POSIX system whose file system
    holds readable files only and refuses nothing; the serializers and
    the time stamp are stand-ins with the right types. *)
Definition posix : Platform :=
  {| isAbsolute := fun p => startsWith p "/";
     dirname := fun p => match splitLast p with Some (d, _) => d | None => "." end;
     basename := fun p => match splitLast p with Some (_, b) => b | None => p end;
     resolve := fun a b => if startsWith b "/" then b else a ++ "/" ++ b;
     relative := fun from to =>
       if startsWith to (from ++ "/")
       then substring (S (String.length from)) (String.length to) to
       else "../" ++ to;
     stringifyYaml := fun o => render (JObj o);
     stringifyJson := fun o => render (JObj o);
     toISOString := fun ms => "T+" ++ pretty ms ++ ".000Z";
     isWin32 := false;
     unreadable := fun _ => None;
     mkdirError := fun _ => None;
     chmodError := fun _ => None |}.

Definition rawProfile (id name host secret : string) (tags : list string) : json :=
  JObj [("id", JStr id); ("name", JStr name); ("host", JStr host); ("user", JStr "root");
        ("auth", JObj [("type", JStr "password"); ("password", JStr secret)]);
        ("note", JStr (name ++ " note")); ("tags", JArr (map JStr tags))].

(** The document of the delete tests: three profiles, [beta] persisted as
    the active one. *)
Definition document : obj :=
  [("version", jint 1);
   ("activeProfile", JStr "beta");
   ("profiles", JArr [rawProfile "alpha" "Alpha" "alpha.example.com" "secret-alpha" ["prod"];
                      rawProfile "beta" "Beta" "beta.example.com" "secret-beta" ["staging"];
                      rawProfile "gamma" "Gamma Relay" "gamma.example.com" "secret-gamma"
                        ["relay"; "jp"]])].

Definition configFile : string := "/etc/ssh-mcp/profiles.yaml".

Definition blank : Sys :=
  {| manager := {| loadedConfig := None; activeProfileId := None; profileOverride := None;
                   configPath := configFile; pendingDeletes := ∅ |};
     files := {[ configFile := @serializeRawConfig posix document Yaml ]} |}.

(** The store after [initialize]. *)
Definition ready : Sys := snd (@initialize posix ∅ Yaml document blank).

(** The store after the runtime switch to [gamma], which is not persisted. *)
Definition onGamma : Sys := snd (@useProfile posix "gamma" ready).

(** The store after [prepareDeleteProfile("gamma")], drawn request id
    [req-1], at time 1000. *)
Definition prepared : Sys := snd (@prepareDeleteProfile posix 1000 1000 "req-1" "gamma" onGamma).

(** The same document with its active profile written as a reference to
    the environment, in which [ACTIVE] is [beta]. *)
Definition envDocument : obj :=
  [("version", jint 1);
   ("activeProfile", JStr "${ACTIVE}");
   ("profiles", JArr [rawProfile "alpha" "Alpha" "alpha.example.com" "secret-alpha" ["prod"];
                      rawProfile "beta" "Beta" "beta.example.com" "secret-beta" ["staging"];
                      rawProfile "gamma" "Gamma Relay" "gamma.example.com" "secret-gamma"
                        ["relay"; "jp"]])].

Definition activeIsBeta : gmap string string := {[ "ACTIVE" := "beta" ]}.

(** The store after [initialize] on that document, and after
    [prepareDeleteProfile("gamma")] at time 1000. *)
Definition envReady : Sys :=
  snd (@initialize posix activeIsBeta Yaml envDocument
         {| manager := manager blank;
            files := {[ configFile := @serializeRawConfig posix envDocument Yaml ]} |}).

Definition envPrepared : Sys :=
  snd (@prepareDeleteProfile posix 1000 1000 "req-1" "gamma" envReady).

Definition searchProfile (id name host user note : string) (tags : list string) : json :=
  JObj [("id", JStr id); ("name", JStr name); ("host", JStr host); ("user", JStr user);
        ("auth", JObj [("type", JStr "password"); ("password", JStr "secret")]);
        ("note", JStr note); ("tags", JArr (map JStr tags))].

(** A document for the search examples. For the query [db]: the first
    profile matches on its id exactly, the second on everything but the
    exact id, the third on its note only, the fourth on a tag only. *)
Definition searchDocument : obj :=
  [("version", jint 1);
   ("activeProfile", JStr "db");
   ("profiles",
     JArr [searchProfile "db" "Primary" "10.0.0.1" "root" "" [];
           searchProfile "db-replica" "DB replica" "db" "db" "db standby" ["db"];
           searchProfile "cache" "Cache" "10.0.0.3" "root" "in front of the db" [];
           searchProfile "web" "Web" "10.0.0.4" "root" "" ["db"]])].

Definition searchStore : Sys :=
  snd (@initialize posix ∅ Yaml searchDocument
         {| manager := manager blank;
            files := {[ configFile := @serializeRawConfig posix searchDocument Yaml ]} |}).

(** Two profiles whose ids differ by case only. *)
Definition caseDocument : obj :=
  [("version", jint 1);
   ("activeProfile", JStr "DB");
   ("profiles",
     JArr [searchProfile "DB" "Upper" "10.0.0.1" "root" "" [];
           searchProfile "db" "Lower" "10.0.0.2" "root" "" []])].

Definition caseStore : Sys :=
  snd (@initialize posix ∅ Yaml caseDocument
         {| manager := manager blank;
            files := {[ configFile := @serializeRawConfig posix caseDocument Yaml ]} |}).

Definition webSummary : Summary.t :=
  {| Summary.id := "web"; Summary.name := "Web"; Summary.host := "10.0.0.4";
     Summary.port := 22; Summary.user := "root"; Summary.note := "";
     Summary.tags := ["db"]; Summary.auth := Summary.PasswordSummary "***";
     Summary.active := false |}.

(** The listing of the search store. *)
Definition searchListing : list Summary.t :=
  match fst (@listProfiles posix searchStore) with
  | inr all => all
  | inl _ => []
  end.

(** The ids and scores of the entries of a search result. *)
Definition idsAndScores (r : result (list Found.t)) : result (list (string * option Z)) :=
  do found <- r; ok (map (fun e => (Summary.id (Found.profile e), Found.matchScore e)) found).

(** What [prepareDeleteProfile] returned when [prepared] was reached. *)
Definition preparedResult : Prepared.t :=
  match fst (@prepareDeleteProfile posix 1000 1000 "req-1" "gamma" onGamma) with
  | inr result => result
  | inl message =>
      {| Prepared.deleteRequestId := ""; Prepared.profile := webSummary;
         Prepared.backupPath := ""; Prepared.expiresAt := "";
         Prepared.confirmationText := ""; Prepared.warning := message |}
  end.

Definition brokenKeyInput : CreateInput.t :=
  {| CreateInput.id := "broken-key-profile"; CreateInput.name := "Broken Key";
     CreateInput.host := "broken.example.com"; CreateInput.port := None;
     CreateInput.user := "root"; CreateInput.auth := KeyAuth "./keys/not-exists";
     CreateInput.suPassword := None; CreateInput.sudoPassword := None;
     CreateInput.note := None; CreateInput.tags := None;
     CreateInput.contextSummary := None; CreateInput.activate := Some true |}.

Definition duplicateInput : CreateInput.t :=
  {| CreateInput.id := "beta"; CreateInput.name := "Beta again";
     CreateInput.host := "beta2.example.com"; CreateInput.port := Some 2222;
     CreateInput.user := "root"; CreateInput.auth := PasswordAuth "secret";
     CreateInput.suPassword := None; CreateInput.sudoPassword := None;
     CreateInput.note := Some "second beta"; CreateInput.tags := Some ["dup"];
     CreateInput.contextSummary := None; CreateInput.activate := None |}.

End StoreScenario.

(** ** JavaScript values met by the command-line and command helpers *)
Module JsValue.
Import JsString Types.

(** A Number: a finite value, which is a rational, or one of the three
    values that [Number.isFinite] rejects. *)
Inductive number :=
| Finite (q : Q)
| NaN
| PosInfinity
| NegInfinity.

(** [Math.floor] of a finite value. *)
Definition floor (q : Q) : Z := Qnum q / Zpos (Qden q).

(** A value of type [unknown], as far as [typeof] tells its cases apart. *)
Inductive value :=
| VUndefined
| VNull
| VNumber (n : number)
| VString (s : string)
| VOther.

(** The longest prefix of decimal digits. *)
Fixpoint takeDigits (s : string) : string :=
  match s with
  | EmptyString => EmptyString
  | String c r => if isDigit c then String c (takeDigits r) else EmptyString
  end.

(** [Number.parseInt(s, 10)]: leading white space is skipped, one sign
    is read, then the longest run of digits; [None] is [NaN]. The result
    is the integer that the digits denote. A Number holds it exactly up
    to 2^53; beyond, the source gets the nearest Number, so a statement
    about the value read carries that bound. *)
Definition parseInt10 (s : string) : option Z :=
  let trimmed := trimStart s in
  let '(sign, rest) :=
    match trimmed with
    | String "-" r => (-1, r)
    | String "+" r => (1, r)
    | _ => (1, trimmed)
    end in
  let digits := takeDigits rest in
  if truthy digits then Some (sign * digitsValue 0 digits) else None.

(** [s.indexOf(c)]; [None] is [-1]. *)
Fixpoint indexOf (c : ascii) (s : string) : option nat :=
  match s with
  | EmptyString => None
  | String a r => if Ascii.eqb a c then Some O else option_map S (indexOf c r)
  end.

(** [s.slice(from)] and [s.slice(from, to)] for indices that are not
    negative. *)
Definition sliceFrom (from : nat) (s : string) : string :=
  substring from (String.length s - from) s.

Definition slice (from to : nat) (s : string) : string :=
  substring from (to - from) s.

(** [s.replace(/c/g, repl)] for a pattern that is the single character
    [c]. *)
Fixpoint replaceChar (c : ascii) (repl : string) (s : string) : string :=
  match s with
  | EmptyString => EmptyString
  | String a r =>
      if Ascii.eqb a c then repl ++ replaceChar c repl r
      else String a (replaceChar c repl r)
  end.

(** [s.split(c)] for a separator that is the single character [c]. *)
Fixpoint split (c : ascii) (s : string) : list string :=
  match s with
  | EmptyString => [EmptyString]
  | String a r =>
      if Ascii.eqb a c then EmptyString :: split c r
      else
        match split c r with
        | [] => [String a EmptyString]
        | l :: ls => String a l :: ls
        end
  end.

End JsValue.

(** ** src/ssh/command-utils.ts *)
Module CommandUtils.
Import JsString Res Types JsValue.

(** The limit on the length of a command: [Infinity], or a number of
    characters. These are the values that [parseMaxChars] returns when
    its fallback is one of them. *)
Inductive Limit :=
| Unlimited
| Chars (n : Z).

Definition DEFAULT_MAX_CHARS : Limit := Chars 1000.
Definition DEFAULT_TIMEOUT_MS : Z := 60000.

Definition parseMaxChars (v : value) (fallback : Limit) : Limit :=
  match v with
  | VUndefined | VNull => fallback
  | VNumber n =>
      match n with
      | Finite q => if Qle_bool q 0 then Unlimited else Chars (floor q)
      | _ => fallback
      end
  | VString s =>
      let trimmed := toLowerCase (trim s) in
      if String.eqb trimmed "none" then Unlimited
      else
        match parseInt10 trimmed with
        | None => fallback
        | Some parsed => if parsed <=? 0 then Unlimited else Chars parsed
        end
  | VOther => fallback
  end.

(** [sanitizeCommand] on a string argument. *)
Definition sanitizeCommand (command : string) (maxChars : Limit) : result string :=
  let trimmedCommand := trim command in
  if negb (truthy trimmedCommand) then throw "Command cannot be empty"
  else
    match maxChars with
    | Chars n =>
        if n <? Z.of_nat (String.length trimmedCommand)
        then throw ("Command is too long (max " ++ pretty n ++ " characters)")
        else ok trimmedCommand
    | Unlimited => ok trimmedCommand
    end.

Definition sanitizePassword (password : option string) : option string :=
  match password with
  | Some p => if (String.length p =? 0)%nat then None else Some p
  | None => None
  end.

Definition singleQuote : ascii := ascii_of_N 39.
Definition doubleQuote : ascii := ascii_of_N 34.
Definition backslash : ascii := ascii_of_N 92.

(** The replacement text of [escapeCommandForShell]: a single quote
    between double quotes, between two single quotes. *)
Definition quoteBreak : string :=
  String singleQuote (String doubleQuote (String singleQuote
    (String doubleQuote (String singleQuote EmptyString)))).

Definition escapeCommandForShell (command : string) : string :=
  replaceChar singleQuote quoteBreak command.

(** The text [s] between single quotes. *)
Definition singleQuoted (s : string) : string :=
  String singleQuote s ++ String singleQuote EmptyString.

End CommandUtils.

(** ** src/cli/args.ts *)
Module Args.
Import JsString Res Types JsValue CommandUtils.

(** The own properties of an [ArgvConfig]: a key is absent, or it holds
    [null] ([None]) or a string. *)
Definition ArgvConfig := gmap string (option string).

(** The object that [parseArgv] fills: its own properties, and whether
    its prototype has been cleared. *)
Record ArgvObject := {
  own : ArgvConfig;
  nullProto : bool
}.

(** [config[key] = v]. While the object has [Object.prototype] behind
    it, the key [__proto__] goes to the inherited setter, which clears
    the prototype for [null] and ignores a string. *)
Definition assign (key : string) (v : option string) (o : ArgvObject) : ArgvObject :=
  if String.eqb key "__proto__" && negb (nullProto o) then
    match v with
    | None => {| own := own o; nullProto := true |}
    | Some _ => o
    end
  else {| own := <[key := v]> (own o); nullProto := nullProto o |}.

(** The body of the loop of [parseArgv]. *)
Definition parseArg (o : ArgvObject) (arg : string) : ArgvObject :=
  if negb (startsWith arg "--") then o
  else
    match indexOf "=" arg with
    | None => assign (sliceFrom 2 arg) None o
    | Some equalIndex =>
        assign (slice 2 equalIndex arg) (Some (sliceFrom (equalIndex + 1) arg)) o
    end.

(** [parseArgv(argv)]: the own properties of the object returned. The
    keys that the program reads are not defined by [Object.prototype], so
    reading them is a lookup among the own properties. *)
Definition parseArgv (argv : list string) : ArgvConfig :=
  own (fold_left parseArg argv {| own := ∅; nullProto := false |}).

Definition LEGACY_ARG_KEYS : list string :=
  ["host"; "user"; "port"; "password"; "key"; "suPassword"; "sudoPassword"].

Definition normalizeOptionalString (v : option (option string)) : option string :=
  match v with
  | Some (Some s) =>
      let trimmed := trim s in
      if (0 <? String.length trimmed)%nat then Some trimmed else None
  | _ => None
  end.

Definition parsePositiveInt (input : option (option string)) (fallback : Z) : Z :=
  match input with
  | Some (Some s) =>
      if String.eqb (trim s) "" then fallback
      else
        match parseInt10 s with
        | None => fallback
        | Some parsed => if parsed <=? 0 then fallback else parsed
        end
  | _ => fallback
  end.

Definition hasLegacyTargetArgs (config : ArgvConfig) : bool :=
  existsb (fun key => bool_decide (is_Some (config !! key))) LEGACY_ARG_KEYS.

Definition lineFeed : string := String (ascii_of_N 10) EmptyString.

Definition validateConfig (config : ArgvConfig) : result unit :=
  match normalizeOptionalString (config !! "config") with
  | None =>
      throw ("Configuration error:" ++ lineFeed
             ++ "Missing required --config=<path>. Legacy --host/--user startup is no longer supported.")
  | Some configPath =>
      if hasLegacyTargetArgs config then
        throw ("Configuration error:" ++ lineFeed
               ++ "Legacy target args (--host/--user/--password/--key/...) are no longer supported. Use --config and manage targets via profiles tools.")
      else ok tt
  end.

Record RuntimeOptions := {
  timeoutMs : Z;
  maxChars : Limit;
  disableSudo : bool
}.

Record StartupMode := {
  configPath : string;
  profileIdOverride : option string;
  runtime : RuntimeOptions
}.

(** The value of [defaults?.maxChars]. *)
Definition maxCharsValue (m : option MaxChars) : value :=
  match m with
  | None => VUndefined
  | Some MaxCharsNone => VString "none"
  | Some (MaxCharsInt n) => VNumber (Finite (inject_Z n))
  end.

Definition resolveRuntimeOptions (config : ArgvConfig) (defaults : option ProfileDefaults)
  : RuntimeOptions :=
  let timeoutMs :=
    parsePositiveInt (config !! "timeout")
      (default DEFAULT_TIMEOUT_MS (d ← defaults; timeout d)) in
  let maxCharsSource :=
    match config !! "maxChars" with
    | Some (Some s) => VString s
    | _ => maxCharsValue (d ← defaults; Types.maxChars d)
    end in
  let maxChars := parseMaxChars maxCharsSource DEFAULT_MAX_CHARS in
  let disableSudo :=
    match config !! "disableSudo" with
    | Some _ => true
    | None => default false (d ← defaults; Types.disableSudo d)
    end in
  {| timeoutMs := timeoutMs; maxChars := maxChars; disableSudo := disableSudo |}.

(** [determineStartupMode]. [cwd] is the working directory against
    which [path.resolve] completes a relative path. *)
Definition determineStartupMode {platform : Platform} (cwd : string) (config : ArgvConfig)
  : result StartupMode :=
  do _ <- validateConfig config;
  let configPath := default "" (normalizeOptionalString (config !! "config")) in
  let profileIdOverride := normalizeOptionalString (config !! "profile") in
  ok {| configPath := resolve cwd configPath;
        profileIdOverride := profileIdOverride;
        runtime := resolveRuntimeOptions config None |}.

End Args.

(** ** Classes of characters *)
Module Chars.
Import JsString.

(** Every character of the text is of the class [p]. *)
Fixpoint allChars (p : ascii -> bool) (s : string) : bool :=
  match s with
  | EmptyString => true
  | String c r => p c && allChars p r
  end.

(** A character that is not white space, or the space itself. *)
Definition spaceOrInk (c : ascii) : bool :=
  negb (isWhiteSpace c) || Ascii.eqb c " ".

Definition isSpace (c : ascii) : bool := Ascii.eqb c " ".

(** No two characters of the class [p] stand side by side. *)
Fixpoint noPair (p : ascii -> bool) (s : string) : bool :=
  match s with
  | EmptyString => true
  | String c r =>
      match r with
      | EmptyString => true
      | String d _ => negb (p c && p d) && noPair p r
      end
  end.

End Chars.

(** ** The read accessors of the profile manager *)
Module Accessors.
Import JsString Json Res Types Loader Store Manager.

Definition getConfigPath : M string :=
  await this <- getManager;
  ret (configPath this).

Definition getActiveProfile : M ProfileDefinition :=
  await loaded <- ensureLoaded;
  await this <- getManager;
  let activeId := default "" (activeProfileId this) in
  match findProfile (profiles (config loaded)) activeId with
  | Some profile => ret profile
  | None => raise ("Active profile " ++ quoted activeId ++ " not found")
  end.

Definition getDefaults : M ProfileDefaults :=
  await loaded <- ensureLoaded;
  ret (defaults (config loaded)).

(** The manager holds a configuration whose ids are not empty and
    pairwise different, and its active id names one of the profiles. *)
Definition consistent (s : Sys) : bool :=
  match loadedConfig (manager s), activeProfileId (manager s) with
  | Some loaded, Some active =>
      hasProfile (profiles (config loaded)) active
      && forallb (fun p => truthy (id p)) (profiles (config loaded))
      && uniqueIds [] (profiles (config loaded))
  | _, _ => false
  end.

(** The method [m] keeps a consistent manager consistent, whether it
    returns or throws. *)
Definition keepsConsistent {A} (m : M A) : Prop :=
  forall s, consistent s = true -> consistent (snd (m s)) = true.

(** What a profile shows apart from its secrets: everything but the
    password, the two elevation passwords and the directory of the key. *)
Definition publicPart {platform : Platform} (p : ProfileDefinition)
  : string * string * string * Z * string * string * list string * option string :=
  (id p, name p, host p, port p, user p, note p, tags p,
   match auth p with
   | PasswordAuth _ => None
   | KeyAuth keyPath => Some (basename keyPath)
   end).

End Accessors.

(** ** src/ssh/connection-manager.ts: the rest of the session *)
Module Session.
Import JsString Conn.

(** What the manager does to its transport and to its su shell. *)
Inductive Effect :=
| SuShellEnd
| ConnEnd.

Definition getSudoPassword (m : Manager) : option string := sudoPassword (sshConfig m).



Definition withSudoPassword (c : SSHConfig) (pwd : option string) : SSHConfig :=
  {| profileId := profileId c; host := host c; port := port c; username := username c;
     password := password c; privateKey := privateKey c;
     suPassword := suPassword c; sudoPassword := pwd |}.

Definition setSudoPassword (pwd : option string) (m : Manager) : Manager :=
  {| sshConfig := withSudoPassword (sshConfig m) pwd; conn := conn m;
     suShell := suShell m; isElevated := isElevated m; suPromise := suPromise m |}.

(** [getConnection]. *)
Definition getConnection (m : Manager) : string + unit :=
  match conn m with
  | None => inl ("SSH connection not established (" ++ formatTargetContext (sshConfig m) ++ ")")
  | Some _ => inr tt
  end.


(** [ensureConnected]. *)
Definition ensureConnected (testMode : option string) (script : nat -> Attempt) (m : Manager)
  : (string + unit) * Manager * list Action :=
  if negb (isConnected m) then connect testMode script m
  else (inr tt, m, []).

(** [close]. *)
Definition close (m : Manager) : Manager * list Effect :=
  match conn m with
  | None => (m, [])
  | Some _ =>
      if suShell m then
        ({| sshConfig := sshConfig m; conn := None; suShell := false; isElevated := false;
            suPromise := suPromise m |},
         [SuShellEnd; ConnEnd])
      else
        ({| sshConfig := sshConfig m; conn := None; suShell := suShell m;
            isElevated := isElevated m; suPromise := suPromise m |},
         [ConnEnd])
  end.

(** The transport drops: the handlers of the client's [error], [end]
    and [close] events forget the connection, and nothing else. *)
Definition transportDropped (m : Manager) : Manager := setConn m None.

End Session.

(** ** The su protocol of [ensureElevated] *)
Module Su.
Import JsString Conn.

Inductive Event :=
| ShellCallback (err : option string)
| Data (chunk : string)
| Close
| Timer.

(** The promise of [ensureElevated] and the variables of its closure,
    with the two fields of the manager that the protocol sets and the
    texts written to the shell. *)
Record State := {
  buffer : string;
  passwordSent : bool;
  opened : bool;
  listening : bool;
  closing : bool;
  timerArmed : bool;
  settled : option (string + unit);
  written : list string;
  elevated : bool;
  shell : bool
}.

Definition start : State :=
  {| buffer := ""; passwordSent := false; opened := false; listening := false;
     closing := false; timerArmed := true; settled := None; written := [];
     elevated := false; shell := false |}.

Definition lineFeed : string := String (ascii_of_N 10) "".

Definition isLineTerminator (c : ascii) : bool :=
  let n := JsString.code c in ((n =? 10) || (n =? 13))%N.

(** [sub] occurs in [s] before the first line terminator of [s]. *)
Fixpoint lineIncludes (s sub : string) : bool :=
  startsWith s sub ||
  match s with
  | EmptyString => false
  | String c r => if isLineTerminator c then false else lineIncludes r sub
  end.

(** [F] matches [su: .*failed] somewhere in [s]. *)
Fixpoint suFailed (s : string) : bool :=
  (startsWith s "su: " && lineIncludes (substring 4 (String.length s - 4) s) "failed") ||
  match s with
  | EmptyString => false
  | String _ r => suFailed r
  end.

(** [/password[: ]/i.test(buffer)]. *)
Definition promptSeen (buffer : string) : bool :=
  let lowered := toLowerCase buffer in
  includes lowered "password:" || includes lowered "password ".

(** [/#/.test(buffer)]. *)
Definition hashSeen (buffer : string) : bool := includes buffer "#".

(** [/authentication failure|incorrect password|su: .*failed|su: failure/i.test(buffer)]. *)
Definition failureSeen (buffer : string) : bool :=
  let lowered := toLowerCase buffer in
  includes lowered "authentication failure" ||
  includes lowered "incorrect password" ||
  suFailed lowered ||
  includes lowered "su: failure".

(** A promise settles once: a later [resolve] or [reject] does nothing. *)
Definition settle (r : string + unit) (st : State) : option (string + unit) :=
  match settled st with
  | Some old => Some old
  | None => Some r
  end.

Definition onData (target suPassword : string) (st : State) (chunk : string) : State :=
  let buffer := buffer st ++ chunk in
  let sendNow := negb (passwordSent st) && promptSeen buffer in
  let passwordSent' := passwordSent st || sendNow in
  let written' := if sendNow then (written st ++ [(suPassword ++ lineFeed)%string])%list else written st in
  if passwordSent' && hashSeen buffer then
    {| buffer := buffer; passwordSent := passwordSent'; opened := opened st;
       listening := false; closing := closing st; timerArmed := false;
       settled := settle (inr tt) st; written := written';
       elevated := true; shell := true |}
  else if failureSeen buffer then
    {| buffer := buffer; passwordSent := passwordSent'; opened := opened st;
       listening := false; closing := closing st; timerArmed := false;
       settled := settle (inl ("su authentication failed (" ++ target ++ ")")) st;
       written := written'; elevated := elevated st; shell := shell st |}
  else
    {| buffer := buffer; passwordSent := passwordSent'; opened := opened st;
       listening := listening st; closing := closing st; timerArmed := timerArmed st;
       settled := settled st; written := written';
       elevated := elevated st; shell := shell st |}.

(** One event of the protocol. [target] is the target context,
    [suPassword] the password of the configuration. *)
Definition step (target suPassword : string) (st : State) (e : Event) : State :=
  match e with
  | Timer =>
      if timerArmed st then
        {| buffer := buffer st; passwordSent := passwordSent st; opened := opened st;
           listening := listening st; closing := closing st; timerArmed := false;
           settled := settle (inl ("su elevation timed out (" ++ target ++ ")")) st;
           written := written st; elevated := elevated st; shell := shell st |}
      else st
  | ShellCallback err =>
      if opened st then st
      else
        match err with
        | Some message =>
            {| buffer := buffer st; passwordSent := passwordSent st; opened := true;
               listening := listening st; closing := closing st; timerArmed := false;
               settled := settle (inl ("Failed to start interactive shell for su ("
                                       ++ target ++ "): " ++ message)) st;
               written := written st; elevated := elevated st; shell := shell st |}
        | None =>
            {| buffer := buffer st; passwordSent := passwordSent st; opened := true;
               listening := true; closing := true; timerArmed := timerArmed st;
               settled := settled st; written := (written st ++ [("su -" ++ lineFeed)%string])%list;
               elevated := elevated st; shell := shell st |}
        end
  | Data chunk =>
      if listening st then onData target suPassword st chunk else st
  | Close =>
      if closing st then
        if negb (elevated st) then
          {| buffer := buffer st; passwordSent := passwordSent st; opened := opened st;
             listening := listening st; closing := closing st; timerArmed := false;
             settled := settle (inl ("su shell closed before elevation completed ("
                                     ++ target ++ ")")) st;
             written := written st; elevated := elevated st; shell := shell st |}
        else
          {| buffer := buffer st; passwordSent := passwordSent st; opened := opened st;
             listening := listening st; closing := closing st; timerArmed := false;
             settled := settled st; written := written st;
             elevated := elevated st; shell := shell st |}
      else st
  end.

Definition run (target suPassword : string) (events : list Event) : State :=
  fold_left (step target suPassword) events start.

(** The texts that the protocol may have written: nothing, the [su -]
    command, or the command and then the password. *)
Definition writes (suPassword : string) (passwordSent started : bool) : list string :=
  if passwordSent then ["su -" ++ lineFeed; suPassword ++ lineFeed]
  else if started then ["su -" ++ lineFeed]
  else [].

(** What holds of the protocol after any sequence of events. *)
Record Sound (suPassword : string) (st : State) : Prop := {
  sound_written : written st = writes suPassword (passwordSent st) (closing st);
  sound_sent : passwordSent st = true -> closing st = true /\ promptSeen (buffer st) = true;
  sound_listening : listening st = true -> closing st = true;
  sound_started : closing st = true -> opened st = true;
  sound_elevated : elevated st = true -> passwordSent st = true /\ hashSeen (buffer st) = true;
  sound_resolved : settled st = Some (inr tt) -> elevated st = true;
  sound_shell : shell st = elevated st
}.

End Su.

(** ** [testSshConnection] and its two probes *)
Module Probe.
Import JsString Conn JsValue.

Record SshTestStepResult := {
  ok : bool;
  durationMs : Z;
  error : option string
}.

Record SshTestResult := {
  target : string;
  attempts : Z;
  tcp : SshTestStepResult;
  handshake : SshTestStepResult;
  auth : SshTestStepResult
}.

Definition DEFAULT_TEST_TIMEOUT_MS : Z := 10000.
Definition MAX_TEST_RETRIES : Z := 5.

(** [normalizeRetries]; [None] is [undefined] or [null]. *)
Definition normalizeRetries (retries : option number) : Z :=
  match retries with
  | None => 2
  | Some (Finite q) => Z.max 0 (Z.min MAX_TEST_RETRIES (floor q))
  | Some _ => 2
  end.

(** What the socket of [testTcpConnection] does first, and when. *)
Inductive TcpOutcome :=
| TcpConnect
| TcpError (message : string)
| TcpTimeout.

(** The object spread into the result: [error] is there when the
    message is truthy. *)
Definition errorField (message : option string) : option string :=
  match message with
  | Some e => if truthy e then Some e else None
  | None => None
  end.

Definition testTcpConnection (elapsed : Z) (o : TcpOutcome) : SshTestStepResult :=
  match o with
  | TcpConnect => {| ok := true; durationMs := elapsed; error := None |}
  | TcpError message =>
      {| ok := false; durationMs := elapsed; error := errorField (Some message) |}
  | TcpTimeout =>
      {| ok := false; durationMs := elapsed; error := errorField (Some "TCP connection timeout") |}
  end.

(** How one run of [testSshHandshakeAndAuth] ends. *)
Inductive Ending :=
| ReadyAt (elapsed : Z)
| ErrorAt (err : JsError) (elapsed : Z)
| TimeoutAt (elapsed : Z).

(** One run of the probe: the time of the first banner seen before the
    end, if there is one, and the end. Times are counted from [start]. *)
Record Trace := {
  banner : option Z;
  ending : Ending
}.

Record HandshakeResult := {
  handshakeStep : SshTestStepResult;
  authStep : SshTestStepResult;
  retryable : bool
}.

(** [a || b] on numbers: [b] when [a] is zero. *)
Definition orElse (a b : Z) : Z := if a =? 0 then b else a.

(** The result built by [finish] at time [now]. *)
Definition finish (handshakeOk authOk : bool) (handshakeDuration authDuration : Z)
    (errorMessage : option string) (retryable : bool) (now : Z) : HandshakeResult :=
  {| handshakeStep :=
       {| ok := handshakeOk;
          durationMs := orElse handshakeDuration now;
          error := if handshakeOk then None
                   else Some (default "Handshake failed" errorMessage) |};
     authStep :=
       {| ok := authOk;
          durationMs := orElse authDuration now;
          error := if authOk then None
                   else Some (default "Authentication failed" errorMessage) |};
     retryable := retryable |}.

Definition testSshHandshakeAndAuth (t : Trace) : HandshakeResult :=
  (* the banner handler, if it ran *)
  let handshakeOk := bool_decide (is_Some (banner t)) in
  let handshakeDuration := default 0 (banner t) in
  match ending t with
  | TimeoutAt now =>
      finish handshakeOk false handshakeDuration 0 (Some "SSH handshake timeout") true now
  | ReadyAt now =>
      let handshakeDuration := orElse handshakeDuration now in
      finish true true handshakeDuration now None false now
  | ErrorAt err now =>
      let authFailure := isAuthFailure err in
      let handshakeOk' := handshakeOk || authFailure in
      let handshakeDuration' :=
        if authFailure then orElse handshakeDuration now else handshakeDuration in
      finish handshakeOk' false handshakeDuration' 0 (Some (message err))
        (negb authFailure && isRetryableConnectionError err) now
  end.

Definition skipped : SshTestStepResult :=
  {| ok := false; durationMs := 0; error := Some "Skipped due to TCP failure" |}.

Definition notAttempted : SshTestStepResult :=
  {| ok := false; durationMs := 0; error := Some "Not attempted" |}.

(** The delay before the retry that follows attempt [attempt]. *)
Definition delayMs (attempt : Z) : Z := Z.min (200 * 2 ^ attempt) 2000.

(** The loop of [testSshConnection]: [remaining] iterations are left,
    [attempt] is the loop variable and [attempts] the counter. The
    result is the pair of the last steps, with the delays slept. *)
Fixpoint probeLoop (script : nat -> Trace) (retries : Z) (remaining : nat)
    (attempt : nat) (attempts : Z) (lastHandshake lastAuth : SshTestStepResult)
  : Z * SshTestStepResult * SshTestStepResult * list Z :=
  match remaining with
  | O => (attempts, lastHandshake, lastAuth, [])
  | S remaining' =>
      let attempts := attempts + 1 in
      let result := testSshHandshakeAndAuth (script attempt) in
      if ok (authStep result) then (attempts, handshakeStep result, authStep result, [])
      else if negb (retryable result) || (Z.of_nat attempt =? retries) then
        (attempts, handshakeStep result, authStep result, [])
      else
        let '(n, h, a, delays) :=
          probeLoop script retries remaining' (S attempt) attempts
            (handshakeStep result) (authStep result) in
        (n, h, a, delayMs (Z.of_nat attempt) :: delays)
  end.

(** [testSshConnection]: the result, and the delays slept between the
    attempts. [tcpElapsed] and [tcpOutcome] describe the TCP probe,
    [script] the runs of the SSH probe. *)
Definition testSshConnection (config : SSHConfig) (retries : option number)
    (tcpElapsed : Z) (tcpOutcome : TcpOutcome) (script : nat -> Trace)
  : SshTestResult * list Z :=
  let retries := normalizeRetries retries in
  let target := formatTargetContext config in
  let tcp := testTcpConnection tcpElapsed tcpOutcome in
  if negb (ok tcp) then
    ({| target := target; attempts := 0; tcp := tcp;
        handshake := skipped; auth := skipped |}, [])
  else
    let '(n, h, a, delays) :=
      probeLoop script retries (S (Z.to_nat retries)) O 0 notAttempted notAttempted in
    ({| target := target; attempts := n; tcp := tcp; handshake := h; auth := a |}, delays).

(** Attempt [k] ends the loop by itself: it authenticates, or it fails
    in a way that is not retried. *)
Definition stops (script : nat -> Trace) (k : nat) : bool :=
  let result := testSshHandshakeAndAuth (script k) in
  ok (authStep result) || negb (retryable result).

End Probe.

(** ** Sessions and runs used by the examples *)
Module SessionScenario.
Import JsString Conn Su Probe Scenario.

(** Two runs of the probe that time out, then one that authenticates. *)
Definition flaky (k : nat) : Trace :=
  match k with
  | O | S O => {| banner := None; ending := TimeoutAt 10000 |}
  | _ => {| banner := Some 40; ending := ReadyAt 120 |}
  end.

(** A server that shows its banner and refuses the password. *)
Definition denied (k : nat) : Trace :=
  {| banner := Some 35; ending := ErrorAt authFailed 90 |}.

(** A login shell that prints a banner, then the prompt of su, then the
    prompt of root. *)
Definition suDialogue : list Su.Event :=
  [ShellCallback None; Data "Last login: Mon"; Data ("$ su -" ++ Su.lineFeed ++ "Password: ");
   Data (Su.lineFeed ++ "root@box:~# ")].

(** An elevated manager with a live connection. *)
Definition elevatedManager : Manager :=
  {| sshConfig := target; conn := Some true; suShell := true; isElevated := true;
     suPromise := SuIdle |}.

End SessionScenario.

(** ** The elevated path of [execSshCommandWithConnection] *)
Module Elevated.
Import JsString Conn Exec.

(** What the su shell has printed: the chunks of the [ShellData] events,
    in order. *)
Fixpoint shellText (events : list Event) : string :=
  match events with
  | [] => ""
  | ShellData chunk :: rest => chunk ++ shellText rest
  | _ :: rest => shellText rest
  end.

(** The text with which the promise resolves when the output is
    [buffer]: the lines but the first and the last, each followed by a
    line feed. *)
Definition replyOf (buffer : string) : string :=
  let output := join newline (sliceInner (splitLines buffer)) in
  output ++ (if truthy output then newline else "").

(** The events of a list that are not the firing of the timer. *)
Definition noTimer (events : list Event) : bool :=
  forallb (fun e => match e with TimerFired => false | _ => true end) events.

(** The promise is pending and the handler of the shell is listening. *)
Definition waiting (r : Run) : Prop :=
  isResolved r = false /\ settlement r = None /\ listening r = true /\ streamOpen r = false.

End Elevated.

(** ** src/tools/exec.ts and src/tools/sudo-exec.ts *)
Module Tools.
Import JsString JsValue CommandUtils.

(** [appendDescription]. *)
Definition appendDescription (command : string) (description : option string) : string :=
  match description with
  | Some d =>
      if truthy d
      then command ++ " # " ++ replaceChar "#" (String backslash (String "#" EmptyString)) d
      else command
  | None => command
  end.

(** The replacement text of the sudo tool for a single quote: the quote
    is closed, a quote escaped by a backslash follows, and the quote is
    opened again. *)
Definition quoteEscape : string :=
  String singleQuote (String backslash (String singleQuote (String singleQuote EmptyString))).

(** [text.replace(/'/g, "'\\''")]. *)
Definition escapeQuotes (text : string) : string :=
  replaceChar singleQuote quoteEscape text.

(** The command line that the sudo tool sends: [sudo -n] without a
    password, and otherwise the password piped to [sudo -S]. *)
Definition wrapSudo (sudoPassword : option string) (commandWithDescription : string) : string :=
  match sudoPassword with
  | Some pwd =>
      if truthy pwd then
        "printf '%s\n' " ++ singleQuoted (escapeQuotes pwd)
        ++ " | sudo -p " ++ String doubleQuote (String doubleQuote EmptyString)
        ++ " -S sh -c " ++ singleQuoted (escapeQuotes commandWithDescription)
      else "sudo -n sh -c " ++ singleQuoted (escapeQuotes commandWithDescription)
  | None => "sudo -n sh -c " ++ singleQuoted (escapeQuotes commandWithDescription)
  end.

End Tools.

(** ** src/ssh/ssh-config.ts and the connection cache of src/index.ts *)
Module Server.
Import JsString Json Res Types Loader Store Manager Accessors CommandUtils.

(** [buildSshConfigFromProfile]. [files] is the file system read by
    [readFile]. *)
Definition buildSshConfigFromProfile {platform : Platform} (files : gmap string string)
    (profile : ProfileDefinition) (configPath : string) : result Conn.SSHConfig :=
  let credentials : result (option string * option string) :=
    match auth profile with
    | PasswordAuth password => ok (sanitizePassword (Some password), None)
    | KeyAuth keyPath =>
        do content <- readFile files (resolveKeyPath keyPath configPath);
        ok (None, Some content)
    end in
  match credentials with
  | inl message =>
      throw ("Failed to load SSH credentials for profile " ++ quoted (id profile)
             ++ " (" ++ host profile ++ ":" ++ pretty (port profile) ++ "): " ++ message)
  | inr (password, privateKey) =>
      ok {| Conn.profileId := Some (id profile);
            Conn.host := host profile;
            Conn.port := port profile;
            Conn.username := user profile;
            Conn.password := password;
            Conn.privateKey := privateKey;
            Conn.suPassword := sanitizePassword (suPassword profile);
            Conn.sudoPassword := sanitizePassword (sudoPassword profile) |}
  end.

(** The module state of [index.ts]: the profile manager with the file
    system, whether [initializeRuntime] has set the startup mode, and
    the cached connection manager. *)
Record State := {
  store : Sys;
  started : bool;
  connectionManager : option Conn.Manager
}.

Definition withStore (srv : State) (s : Sys) : State :=
  {| store := s; started := started srv; connectionManager := connectionManager srv |}.

(** [closeConnectionManager]. *)
Definition closeConnectionManager (srv : State) : State * list Session.Effect :=
  match connectionManager srv with
  | None => (srv, [])
  | Some m =>
      ({| store := store srv; started := started srv; connectionManager := None |},
       snd (Session.close m))
  end.

(** [buildSshConfig]. *)
Definition buildSshConfig {platform : Platform} (srv : State) : result Conn.SSHConfig :=
  do profile <- fst (getActiveProfile (store srv));
  do configPath <- fst (getConfigPath (store srv));
  buildSshConfigFromProfile (files (store srv)) profile configPath.

(** [getConnectionManager]. *)
Definition getConnectionManager {platform : Platform} (srv : State)
  : result Conn.Manager * State :=
  if negb (started srv) then (throw "Server startup mode is not initialized", srv)
  else
    match connectionManager srv with
    | Some m => (ok m, srv)
    | None =>
        match buildSshConfig srv with
        | inl e => (inl e, srv)
        | inr sshConfig =>
            let m := {| Conn.sshConfig := sshConfig; Conn.conn := None;
                        Conn.suShell := false; Conn.isElevated := false;
                        Conn.suPromise := Conn.SuIdle |} in
            (ok m, {| store := store srv; started := started srv;
                      connectionManager := Some m |})
        end
    end.

(** The handler of the tool [profiles-use]: the switch is persisted,
    then the cached connection is closed. The value is the active id
    and the summary that go into the reply. *)
Definition profilesUse {platform : Platform} (env : gmap string string) (profileId : string)
    (srv : State) : result (string * Summary.t) * State * list Session.Effect :=
  match setActiveProfile env profileId true (store srv) with
  | (inl e, s) => (inl e, withStore srv s, [])
  | (inr profile, s) =>
      let '(srv', effects) := closeConnectionManager (withStore srv s) in
      match getActiveProfileId (store srv') with
      | (inl e, s') => (inl e, withStore srv' s', effects)
      | (inr active, s') => (ok (active, profile), withStore srv' s', effects)
      end
  end.

End Server.

(** ** A server used by the examples *)
Module ServerScenario.
Import JsString Conn Exec Server StoreScenario.

(** The server of [StoreScenario], started, with a live connection to
    the active profile [beta]. *)
Definition serving : State :=
  {| store := ready; started := true;
     connectionManager :=
       Some {| sshConfig :=
                 {| profileId := Some "beta"; host := "beta.example.com"; port := 22;
                    username := "root"; password := Some "secret-beta"; privateKey := None;
                    suPassword := None; sudoPassword := None |};
               conn := Some true; suShell := false; isElevated := false;
               suPromise := SuIdle |} |}.

(** The su shell repeats the command line, and then prints the result
    and its prompt. *)
Definition echoed : list Event :=
  [ShellData "uptime # load check";
   ShellData (newline ++ " 10:02 up 3 days" ++ newline ++ "root@box:~# ")].

End ServerScenario.

(** ** The one-shot [execSshCommand] *)
Module OneShot.
Import JsString Conn Exec CommandUtils.

(** What can happen to the client of one call. The firing of the
    timeout carries what the library does with the request to run the
    abort command: it takes it, or [conn.exec] throws. *)
Inductive Event :=
| Timeout (execThrows : bool)
| Ready
| ExecReply (err : option string)
| Stdout (chunk : string)
| Stderr (chunk : string)
| StreamClose (code : ExitCode)
| ConnError (message : string)
| AbortReply (hasStream : bool)
| AbortStreamClose
| AbortTimeout.

(** The variables of the closure, the timers, the requests sent through
    [conn.exec], what was written to the standard input of the command,
    and the number of calls of [conn.end]. *)
Record Run := {
  isResolved : bool;
  settlement : option Settlement;
  timerArmed : bool;
  ready : bool;
  execPending : bool;
  streamOpen : bool;
  stdout : string;
  stderr : string;
  abortArmed : bool;
  abortPending : bool;
  abortStreamOpen : bool;
  commands : list string;
  written : list string;
  ends : nat
}.

Definition start : Run :=
  {| isResolved := false; settlement := None; timerArmed := true; ready := false;
     execPending := false; streamOpen := false; stdout := ""; stderr := "";
     abortArmed := false; abortPending := false; abortStreamOpen := false;
     commands := []; written := []; ends := 0 |}.

(** The command that the timeout sends to stop the one that runs. *)
Definition abortCommand (command : string) : string :=
  "timeout 3s pkill -f '" ++ escapeCommandForShell command ++ "' 2>/dev/null || true".

(** [isResolved = true; clearTimeout(timeoutId)] and the settlement. *)
Definition settle (r : Run) (s : Settlement) : Run :=
  {| isResolved := true; settlement := Some s; timerArmed := false; ready := ready r;
     execPending := execPending r; streamOpen := streamOpen r;
     stdout := stdout r; stderr := stderr r;
     abortArmed := abortArmed r; abortPending := abortPending r;
     abortStreamOpen := abortStreamOpen r;
     commands := commands r; written := written r; ends := ends r |}.

(** [conn.end()]. *)
Definition endConn (r : Run) : Run :=
  {| isResolved := isResolved r; settlement := settlement r; timerArmed := timerArmed r;
     ready := ready r; execPending := execPending r; streamOpen := streamOpen r;
     stdout := stdout r; stderr := stderr r;
     abortArmed := abortArmed r; abortPending := abortPending r;
     abortStreamOpen := abortStreamOpen r;
     commands := commands r; written := written r; ends := S (ends r) |}.

(** [clearTimeout(abortTimeout); conn.end()]. *)
Definition endAbort (r : Run) : Run :=
  endConn
    {| isResolved := isResolved r; settlement := settlement r; timerArmed := timerArmed r;
       ready := ready r; execPending := execPending r; streamOpen := streamOpen r;
       stdout := stdout r; stderr := stderr r;
       abortArmed := false; abortPending := abortPending r;
       abortStreamOpen := abortStreamOpen r;
       commands := commands r; written := written r; ends := ends r |}.

(** The callback of the timeout. *)
Definition onTimeout (target command : string) (timeoutMs : Z) (execThrows : bool) (r : Run)
  : Run :=
  let r := {| isResolved := isResolved r; settlement := settlement r; timerArmed := false;
              ready := ready r; execPending := execPending r; streamOpen := streamOpen r;
              stdout := stdout r; stderr := stderr r;
              abortArmed := abortArmed r; abortPending := abortPending r;
              abortStreamOpen := abortStreamOpen r;
              commands := commands r; written := written r; ends := ends r |} in
  if isResolved r then r
  else
    let r := {| isResolved := true; settlement := settlement r; timerArmed := false;
                ready := ready r; execPending := execPending r; streamOpen := streamOpen r;
                stdout := stdout r; stderr := stderr r;
                abortArmed := true; abortPending := abortPending r;
                abortStreamOpen := abortStreamOpen r;
                commands := commands r; written := written r; ends := ends r |} in
    if execThrows then r
    else
      {| isResolved := true;
         settlement := Some (Rejected (timeoutMessage timeoutMs target));
         timerArmed := false;
         ready := ready r; execPending := execPending r; streamOpen := streamOpen r;
         stdout := stdout r; stderr := stderr r;
         abortArmed := true; abortPending := true;
         abortStreamOpen := abortStreamOpen r;
         commands := commands r ++ [abortCommand command]; written := written r;
         ends := ends r |}.

(** The callback of [conn.exec(command, ...)]. *)
Definition onExecReply (target : string) (stdin : option string) (err : option string) (r : Run)
  : Run :=
  let r := {| isResolved := isResolved r; settlement := settlement r; timerArmed := timerArmed r;
              ready := ready r; execPending := false; streamOpen := streamOpen r;
              stdout := stdout r; stderr := stderr r;
              abortArmed := abortArmed r; abortPending := abortPending r;
              abortStreamOpen := abortStreamOpen r;
              commands := commands r; written := written r; ends := ends r |} in
  match err with
  | Some message =>
      endConn
        (if negb (isResolved r)
         then settle r (Rejected ("SSH exec error (" ++ target ++ "): " ++ message))
         else r)
  | None =>
      {| isResolved := isResolved r; settlement := settlement r; timerArmed := timerArmed r;
         ready := ready r; execPending := false; streamOpen := true;
         stdout := ""; stderr := "";
         abortArmed := abortArmed r; abortPending := abortPending r;
         abortStreamOpen := abortStreamOpen r;
         commands := commands r;
         written := match stdin with
                    | Some text => if (0 <? String.length text)%nat
                                   then written r ++ [text] else written r
                    | None => written r
                    end;
         ends := ends r |}
  end.

(** The handler of the close event of the stream of the command. *)
Definition onStreamClose (target : string) (code : ExitCode) (r : Run) : Run :=
  let r := {| isResolved := isResolved r; settlement := settlement r; timerArmed := timerArmed r;
              ready := ready r; execPending := execPending r; streamOpen := false;
              stdout := stdout r; stderr := stderr r;
              abortArmed := abortArmed r; abortPending := abortPending r;
              abortStreamOpen := abortStreamOpen r;
              commands := commands r; written := written r; ends := ends r |} in
  if isResolved r then r
  else
    let r := endConn r in
    if truthy (stderr r) then
      settle r (Rejected ("Error (code " ++ showExitCode code ++ ") (" ++ target ++ "):"
                          ++ newline ++ stderr r))
    else settle r (Resolved (stdout r)).

(** One event of the call. An event whose handler is not installed, or
    whose request has not been sent, changes nothing. *)
Definition step (target command : string) (stdin : option string) (timeoutMs : Z)
    (r : Run) (e : Event) : Run :=
  match e with
  | Timeout execThrows =>
      if timerArmed r then onTimeout target command timeoutMs execThrows r else r
  | Ready =>
      if ready r then r
      else
        {| isResolved := isResolved r; settlement := settlement r; timerArmed := timerArmed r;
           ready := true; execPending := true; streamOpen := streamOpen r;
           stdout := stdout r; stderr := stderr r;
           abortArmed := abortArmed r; abortPending := abortPending r;
           abortStreamOpen := abortStreamOpen r;
           commands := commands r ++ [command]; written := written r; ends := ends r |}
  | ExecReply err =>
      if execPending r then onExecReply target stdin err r else r
  | Stdout chunk =>
      if streamOpen r then
        {| isResolved := isResolved r; settlement := settlement r; timerArmed := timerArmed r;
           ready := ready r; execPending := execPending r; streamOpen := true;
           stdout := stdout r ++ chunk; stderr := stderr r;
           abortArmed := abortArmed r; abortPending := abortPending r;
           abortStreamOpen := abortStreamOpen r;
           commands := commands r; written := written r; ends := ends r |}
      else r
  | Stderr chunk =>
      if streamOpen r then
        {| isResolved := isResolved r; settlement := settlement r; timerArmed := timerArmed r;
           ready := ready r; execPending := execPending r; streamOpen := true;
           stdout := stdout r; stderr := stderr r ++ chunk;
           abortArmed := abortArmed r; abortPending := abortPending r;
           abortStreamOpen := abortStreamOpen r;
           commands := commands r; written := written r; ends := ends r |}
      else r
  | StreamClose code =>
      if streamOpen r then onStreamClose target code r else r
  | ConnError message =>
      if isResolved r then r
      else settle r (Rejected ("SSH connection error: " ++ message))
  | AbortReply hasStream =>
      if abortPending r then
        let r := {| isResolved := isResolved r; settlement := settlement r;
                    timerArmed := timerArmed r;
                    ready := ready r; execPending := execPending r; streamOpen := streamOpen r;
                    stdout := stdout r; stderr := stderr r;
                    abortArmed := abortArmed r; abortPending := false;
                    abortStreamOpen := hasStream;
                    commands := commands r; written := written r; ends := ends r |} in
        if hasStream then r else endAbort r
      else r
  | AbortStreamClose =>
      if abortStreamOpen r then
        endAbort
          {| isResolved := isResolved r; settlement := settlement r;
             timerArmed := timerArmed r;
             ready := ready r; execPending := execPending r; streamOpen := streamOpen r;
             stdout := stdout r; stderr := stderr r;
             abortArmed := abortArmed r; abortPending := abortPending r;
             abortStreamOpen := false;
             commands := commands r; written := written r; ends := ends r |}
      else r
  | AbortTimeout =>
      if abortArmed r then endAbort r else r
  end.

Definition runEvents (target command : string) (stdin : option string) (timeoutMs : Z)
    (r : Run) (events : list Event) : Run :=
  fold_left (step target command stdin timeoutMs) events r.

(** [execSshCommand(sshConfig, command, stdin, timeoutMs)] once [events]
    have been delivered. *)
Definition execSshCommand (sshConfig : SSHConfig) (command : string) (stdin : option string)
    (timeoutMs : Z) (events : list Event) : Run :=
  runEvents (formatTargetContext sshConfig) command stdin timeoutMs start events.

(** What holds of the call after any sequence of events. *)
Record Sound (command : string) (r : Run) : Prop := {
  sound_pending :
    isResolved r = false ->
    settlement r = None /\ timerArmed r = true /\ ends r = 0%nat /\
    abortArmed r = false /\ abortPending r = false /\ abortStreamOpen r = false /\
    commands r = (if ready r then [command] else []);
  sound_timer : timerArmed r = true -> isResolved r = false;
  sound_settled : settlement r <> None -> isResolved r = true;
  sound_stream : streamOpen r = true \/ execPending r = true -> ready r = true;
  sound_resolved :
    forall text, settlement r = Some (Resolved text) ->
                 (1 <= ends r)%nat /\ ready r = true /\ commands r = [command]
}.

End OneShot.

(** ** Further fixtures used by the examples *)
Module MoreScenario.
Import JsString Json Res Types Loader Store Manager StoreScenario.

(** The document of [StoreScenario] after every password has been
    rotated. *)
Definition rotatedDocument : obj :=
  [("version", jint 1);
   ("activeProfile", JStr "beta");
   ("profiles", JArr [rawProfile "alpha" "Alpha" "alpha.example.com" "n3w-alpha" ["prod"];
                      rawProfile "beta" "Beta" "beta.example.com" "n3w-beta" ["staging"];
                      rawProfile "gamma" "Gamma Relay" "gamma.example.com" "n3w-gamma"
                        ["relay"; "jp"]])].

Definition rotated : Sys :=
  snd (@initialize posix ∅ Yaml rotatedDocument
         {| manager := manager blank;
            files := {[ configFile := @serializeRawConfig posix rotatedDocument Yaml ]} |}).

(** A profile created from a context summary spread over several lines. *)
Definition relayInput : CreateInput.t :=
  {| CreateInput.id := "relay-2"; CreateInput.name := "Relay 2";
     CreateInput.host := "relay2.example.com"; CreateInput.port := None;
     CreateInput.user := "root"; CreateInput.auth := PasswordAuth "${RELAY_PASSWORD}";
     CreateInput.suPassword := None; CreateInput.sudoPassword := None;
     CreateInput.note := None; CreateInput.tags := Some ["relay"; "jp"];
     CreateInput.contextSummary :=
       Some ("second relay," ++ String (ascii_of_N 10) "  behind   the gateway");
     CreateInput.activate := None |}.

(** The host of [StoreScenario] with a directory where a key is looked
    for, and a file system that refuses [chmod]. *)
Definition guarded : Platform :=
  {| isAbsolute := @isAbsolute posix;
     dirname := @dirname posix;
     basename := @basename posix;
     resolve := @resolve posix;
     relative := @relative posix;
     stringifyYaml := @stringifyYaml posix;
     stringifyJson := @stringifyJson posix;
     toISOString := @toISOString posix;
     isWin32 := false;
     unreadable := fun p =>
       if String.eqb p "/etc/ssh-mcp/keys"
       then Some "EISDIR: illegal operation on a directory, read" else None;
     mkdirError := fun _ => None;
     chmodError := fun p => Some ("EPERM: operation not permitted, chmod '" ++ p ++ "'") |}.

(** A document whose only profile takes its key from [keys], which on
    [guarded] is a directory beside the configuration file. *)
Definition keyProfile : ProfileDefinition :=
  {| id := "ops"; name := "Ops"; host := "ops.example.com"; port := 22; user := "root";
     auth := KeyAuth "keys"; suPassword := None; sudoPassword := None;
     note := ""; tags := [] |}.

Definition keyDocument : obj :=
  [("version", jint 1);
   ("activeProfile", JStr "ops");
   ("profiles", JArr [JObj [("id", JStr "ops"); ("name", JStr "Ops");
                            ("host", JStr "ops.example.com"); ("user", JStr "root");
                            ("auth", JObj [("type", JStr "key"); ("keyPath", JStr "keys")])]])].

End MoreScenario.

(** * Properties *)

(** ** Substring facts *)
Module JsStringFacts.
Import JsString.

Lemma append_cons (x : ascii) (a b : string) : String x a ++ b = String x (a ++ b).
Proof. reflexivity. Qed.

Lemma append_assoc (a b c : string) : (a ++ b) ++ c = a ++ b ++ c.
Proof.
  induction a as [|x a IH]; [reflexivity|].
  now rewrite !append_cons, IH.
Qed.

Lemma append_empty_r (a : string) : a ++ "" = a.
Proof.
  induction a as [|x a IH]; [reflexivity|].
  now rewrite append_cons, IH.
Qed.

Lemma startsWith_app_self (p s : string) : startsWith (p ++ s) p = true.
Proof.
  induction p as [|c p IH]; simpl.
  - now destruct s.
  - now rewrite Ascii.eqb_refl.
Qed.

Lemma includes_of_startsWith (s sub : string) :
  startsWith s sub = true -> includes s sub = true.
Proof. intros H. destruct s; cbn [includes]; rewrite H; reflexivity. Qed.

Lemma includes_app_right (p s sub : string) :
  includes s sub = true -> includes (p ++ s) sub = true.
Proof.
  intros H. induction p as [|c p IH]; simpl; [exact H|].
  rewrite IH. apply orb_true_r.
Qed.

Lemma startsWith_app_left (s t sub : string) :
  startsWith s sub = true -> startsWith (s ++ t) sub = true.
Proof.
  revert s. induction sub as [|b sub IH]; intros s H; [now destruct (s ++ t)|].
  destruct s as [|a s]; [discriminate H|].
  rewrite append_cons. simpl in *. destruct (Ascii.eqb a b); [now apply IH | discriminate H].
Qed.

Lemma includes_app_left (s t sub : string) :
  includes s sub = true -> includes (s ++ t) sub = true.
Proof.
  induction s as [|a s IH]; intros H.
  - simpl in H. rewrite orb_false_r in H.
    apply includes_of_startsWith. now apply (startsWith_app_left "" t sub).
  - rewrite append_cons. cbn [includes] in *.
    apply orb_true_iff in H as [H|H].
    + rewrite <- append_cons, (startsWith_app_left _ t _ H). reflexivity.
    + rewrite (IH H). apply orb_true_r.
Qed.

Lemma includes_middle (p s q : string) : includes (p ++ s ++ q) s = true.
Proof. apply includes_app_right, includes_of_startsWith, startsWith_app_self. Qed.

Lemma truthy_nonempty (s : string) : truthy s = true <-> s <> "".
Proof.
  unfold truthy. destruct (String.eqb_spec s ""); simpl; split; intros; congruence.
Qed.

Lemma truthy_app_r (s t : string) : truthy t = true -> truthy (s ++ t) = true.
Proof.
  rewrite !truthy_nonempty. intros H E. destruct s; simpl in E; [auto | discriminate].
Qed.

Lemma truthy_app_l (s t : string) : truthy s = true -> truthy (s ++ t) = true.
Proof.
  rewrite !truthy_nonempty. intros H E. destruct s; simpl in E; [auto | discriminate].
Qed.

End JsStringFacts.

(** ** connect: retry schedule and elevation *)
Module ConnFacts.
Import JsString JsStringFacts Conn.

Lemma dialogueEnds_config m o : sshConfig (snd (dialogueEnds m o)) = sshConfig m.
Proof. now destruct o. Qed.

Lemma ensureElevated_config m o :
  sshConfig (snd (fst (ensureElevated m o))) = sshConfig m.
Proof.
  unfold ensureElevated.
  destruct (isElevated m && suShell m); [reflexivity|].
  destruct (negb _); [reflexivity|].
  destruct (suPromise m); [|now destruct o | reflexivity].
  destruct (conn m); [now destruct o | reflexivity].
Qed.

Lemma interrupted_config m later : sshConfig (interrupted m later) = sshConfig m.
Proof. unfold interrupted. destruct later as [[|reason]|]; reflexivity. Qed.

(** The handler of [ready] resolves the promise, whatever the elevation
    does. *)
Lemma onReady_spec tm m n o :
  exists m' rest,
    onReady tm m n o = (inr tt, m', ActClientConnect n :: rest) /\
    sshConfig m' = sshConfig m /\
    (forall k, ~ In (ActClientConnect k) rest) /\
    (forall d, ~ In (ActSleep d) rest) /\
    (truthyOpt (suPassword (sshConfig m)) = true -> truthyOpt tm = false ->
     In ActEnsureElevated rest).
Proof.
  unfold onReady.
  destruct (truthyOpt (suPassword (sshConfig m))) eqn:S; cbn [andb].
  2:{ exists m, []. repeat split; auto; try discriminate; intros ? []. }
  destruct (truthyOpt tm) eqn:TM; cbn [negb].
  { exists m, []. repeat split; auto; try discriminate; intros ? []. }
  pose proof (ensureElevated_config m o) as C.
  assert (A : forall x, In x (snd (ensureElevated m o)) -> x = ActOpenSuShell).
  { unfold ensureElevated.
    destruct (isElevated m && suShell m); [intros x []|].
    destruct (negb _); [intros x []|].
    destruct (suPromise m); [|destruct o; intros x [] | intros x []].
    destruct (conn m); [|intros x []].
    destruct o; intros x [<-|[]]; reflexivity. }
  destruct (ensureElevated m o) as [[r m'] acts]. cbn [fst snd] in *.
  exists m', (ActEnsureElevated :: acts). repeat split; auto.
  - intros k [H|H]; [discriminate H|]. apply A in H. discriminate H.
  - intros d [H|H]; [discriminate H|]. apply A in H. discriminate H.
  - intros _ _. now left.
Qed.

(** One attempt: the client connects, and then only the elevation may
    follow. An attempt whose client fails before it is ready fails with
    that error, and an attempt whose client becomes ready, with no error
    after, resolves. *)
Lemma connectOnce_spec tm m n a :
  exists res m' rest,
    connectOnce tm m n a = (res, m', ActClientConnect n :: rest) /\
    sshConfig m' = sshConfig m /\
    (forall k, ~ In (ActClientConnect k) rest) /\
    (forall d, ~ In (ActSleep d) rest) /\
    (forall err, failure a = Some err -> res = inl err) /\
    (transport a = Ready -> res = inr tt) /\
    (transport a = Ready ->
     truthyOpt (suPassword (sshConfig m)) = true -> truthyOpt tm = false ->
     In ActEnsureElevated rest).
Proof.
  unfold connectOnce, failure.
  pose proof (onReady_spec tm (setConn m (Some true)) n (elevation a))
    as (m' & rest & E & C & NC & NS & I).
  destruct (transport a) as [|err| |err later] eqn:T.
  - exists (inr tt), m', rest. repeat split; auto; discriminate.
  - exists (inl err), (setConn (setConn m (Some true)) None), [].
    repeat split; try discriminate; try (intros ? [= <-]; reflexivity); intros ? [].
  - exists (inl timeoutError), (setConn (setConn m (Some true)) None), [].
    repeat split; try discriminate; try (intros ? [= <-]; reflexivity); intros ? [].
  - destruct (negb (truthyOpt tm) && awaitsDialogue (setConn m (Some true))).
    + eexists (inl err), _, _. split; [reflexivity|].
      split; [now rewrite interrupted_config|].
      repeat split; try discriminate.
      * intros k [H|H]; [discriminate H|].
        destruct (suPromise _); cbn in H; intuition discriminate.
      * intros d [H|H]; [discriminate H|].
        destruct (suPromise _); cbn in H; intuition discriminate.
    + exists (inr tt), m', rest. repeat split; auto; discriminate.
Qed.

Lemma retryable_classes err :
  isAuthFailure err = false ->
  codeIsTransport (code err) = true \/ messageIsHandshakeClass err = true ->
  isRetryableConnectionError err = true.
Proof.
  unfold isRetryableConnectionError. intros -> [->| ->]; [reflexivity|].
  now destruct (codeIsTransport _).
Qed.

Lemma auth_failure_terminal err :
  isAuthFailure err = true -> isRetryableConnectionError err = false.
Proof. unfold isRetryableConnectionError. now intros ->. Qed.

Lemma target_names (config : SSHConfig) :
  includes (formatTargetContext config) (host config) = true /\
  includes (formatTargetContext config) (pretty (port config)) = true /\
  (forall p, profileId config = Some p -> includes (formatTargetContext config) p = true).
Proof.
  unfold formatTargetContext. repeat split.
  - do 3 apply includes_app_right. apply includes_of_startsWith, startsWith_app_self.
  - do 5 apply includes_app_right. apply includes_of_startsWith.
    rewrite <- (append_empty_r (pretty (port config))) at 1. apply startsWith_app_self.
  - intros p ->. destruct (truthy p) eqn:T.
    + apply includes_app_right, includes_of_startsWith, startsWith_app_self.
    + unfold truthy in T. apply negb_false_iff, String.eqb_eq in T. now subst p.
Qed.

Ltac split_in :=
  repeat match goal with
    | H : In _ (_ ++ _) |- _ => apply in_app_or in H; destruct H as [H|H]
    | H : In _ (_ :: _) |- _ => destruct H as [H|H]; [try discriminate H|]
    | H : In _ [] |- _ => destruct H
    | H : ActClientConnect _ = ActClientConnect _ |- _ => injection H as H; try subst
    end.

Ltac same_failure :=
  repeat match goal with
    | H1 : failure ?a = Some ?x, H2 : failure ?a = Some ?y |- _ =>
        rewrite H1 in H2; injection H2 as H2; try subst
    | H : failure ?a = Some ?x, F : forall err, failure ?a = Some err -> _ = inl err |- _ =>
        let X := fresh "X" in
        pose proof (F _ H) as X; clear F;
        first [ discriminate X | injection X as X; try subst ]
    end.

Ltac class_clash :=
  match goal with
  | A : isAuthFailure ?e = false, R : isRetryableConnectionError ?e = false,
    C : _ \/ _ |- _ =>
      rewrite (retryable_classes e A C) in R; discriminate R
  | A : isAuthFailure ?e = true, R : isRetryableConnectionError ?e = true |- _ =>
      rewrite (auth_failure_terminal e A) in R; discriminate R
  end.

Ltac no_action :=
  match goal with
  | N : forall k, ~ In (ActClientConnect k) ?r, H : In (ActClientConnect _) ?r |- _ =>
      exfalso; exact (N _ H)
  | N : forall d, ~ In (ActSleep d) ?r, H : In (ActSleep _) ?r |- _ =>
      exfalso; exact (N _ H)
  end.

Ltac in_list :=
  repeat (first [ left; reflexivity | right ] || apply in_or_app).

Ltac same_config :=
  repeat match goal with
    | C : sshConfig ?a = _ |- context [sshConfig ?a] => rewrite C
    end.

Ltac names_target :=
  match goal with
  | H : inl (wrapConnectionError _ ?e) = inl ?msg |- _ =>
      injection H as <-; unfold wrapConnectionError, toErrorMessage; same_config;
      first [ eexists; reflexivity | apply includes_middle ]
  end.

Ltac settle_branch :=
  cbn beta iota zeta; repeat split; try tauto; intros; split_in; same_failure;
  try lia; try discriminate; try no_action; try class_clash;
  try (intros ?; split_in; try lia; no_action);
  try names_target; same_config; try congruence; try (in_list; fail).

(** C4. Every [connect] makes at most three attempts. An attempt that
    fails with a transport-level code or a handshake-class message, and
    without the signature of an authentication failure, is followed by the
    delay of the schedule and by the next attempt, as long as a retry is
    left; when the third attempt fails the error is raised. An attempt
    that fails with the signature of an authentication failure is the
    last one. The error raised is the wrapped one: it carries the target
    context, which names the profile id, the host and the port. *)
Theorem connect_retry_classification (tm : option string) (script : nat -> Attempt) (m : Manager) :
  let '(r, _, acts) := connect tm script m in
  let target := formatTargetContext (sshConfig m) in
  (forall k, In (ActClientConnect k) acts -> (k <= 2)%nat) /\
  (forall k err,
      In (ActClientConnect k) acts -> failure (script k) = Some err ->
      isAuthFailure err = false ->
      codeIsTransport (code err) = true \/ messageIsHandshakeClass err = true ->
      (k < 2)%nat ->
      In (ActSleep (nth k DEFAULT_CONNECT_RETRY_DELAYS_MS 0)) acts /\
      In (ActClientConnect (S k)) acts) /\
  (forall err,
      In (ActClientConnect 2) acts -> failure (script 2%nat) = Some err ->
      r = inl (wrapConnectionError (sshConfig m) err)) /\
  (forall k err,
      In (ActClientConnect k) acts -> failure (script k) = Some err ->
      isAuthFailure err = true ->
      ~ In (ActClientConnect (S k)) acts /\
      r = inl (wrapConnectionError (sshConfig m) err)) /\
  (forall msg,
      r = inl msg ->
      (exists err, msg = "SSH connection error (" ++ target ++ "): " ++ message err) /\
      includes msg target = true) /\
  includes target (host (sshConfig m)) = true /\
  includes target (pretty (port (sshConfig m))) = true /\
  (forall p, profileId (sshConfig m) = Some p -> includes target p = true).
Proof.
  enough (N : includes (formatTargetContext (sshConfig m)) (host (sshConfig m)) = true /\
              includes (formatTargetContext (sshConfig m)) (pretty (port (sshConfig m))) = true /\
              (forall p, profileId (sshConfig m) = Some p ->
                         includes (formatTargetContext (sshConfig m)) p = true)).
  2:{ apply target_names. }
  unfold connect. destruct (isConnected m).
  { settle_branch. }
  unfold connectWithRetry. cbn [retryLoop length DEFAULT_CONNECT_RETRY_DELAYS_MS].
  destruct (connectOnce_spec tm m 0 (script 0%nat))
    as (r1 & m1 & rest1 & E1 & C1 & NC1 & NS1 & F1 & _).
  rewrite E1. destruct r1 as [e0|[]]; [|settle_branch].
  destruct (isRetryableConnectionError e0) eqn:R0; cbn [negb orb Nat.eqb].
  2:{ settle_branch. }
  destruct (connectOnce_spec tm m1 1 (script 1%nat))
    as (r2 & m2 & rest2 & E2 & C2 & NC2 & NS2 & F2 & _).
  rewrite E2. destruct r2 as [e1|[]]; [|settle_branch].
  destruct (isRetryableConnectionError e1) eqn:R1; cbn [negb orb Nat.eqb].
  2:{ settle_branch. }
  destruct (connectOnce_spec tm m2 2 (script 2%nat))
    as (r3 & m3 & rest3 & E3 & C3 & NC3 & NS3 & F3 & _).
  rewrite E3. destruct r3 as [e2|[]]; [|settle_branch].
  rewrite orb_true_r.
  settle_branch.
Qed.

Ltac ready_clash :=
  match goal with
  | T : transport ?a = Ready, R : transport ?a = Ready -> inl _ = inr _ |- _ =>
      discriminate (R T)
  end.

Ltac find_elevation :=
  first
    [ match goal with
      | I : _ -> _ -> _ -> In ActEnsureElevated ?r |- In ActEnsureElevated ?r =>
          apply I; same_config; assumption
      end
    | apply in_or_app; right; find_elevation
    | right; find_elevation ].

Ltac elevation_branch :=
  cbn beta iota zeta; intros k Hk T; split_in; try no_action; try ready_clash;
  (split; [reflexivity | intros; find_elevation]).

Lemma connect_ready_resolves (tm : option string) (script : nat -> Attempt) (m : Manager) :
  let '(r, _, acts) := connect tm script m in
  forall k,
    In (ActClientConnect k) acts -> transport (script k) = Ready ->
    r = inr tt /\
    (truthyOpt (suPassword (sshConfig m)) = true -> truthyOpt tm = false ->
     In ActEnsureElevated acts).
Proof.
  unfold connect. destruct (isConnected m).
  { cbn beta iota zeta. intros k []. }
  unfold connectWithRetry. cbn [retryLoop length DEFAULT_CONNECT_RETRY_DELAYS_MS].
  destruct (connectOnce_spec tm m 0 (script 0%nat))
    as (r1 & m1 & rest1 & E1 & C1 & NC1 & NS1 & _ & T1 & I1).
  rewrite E1. destruct r1 as [e0|[]]; [|elevation_branch].
  destruct (isRetryableConnectionError e0) eqn:R0; cbn [negb orb Nat.eqb];
    [|elevation_branch].
  destruct (connectOnce_spec tm m1 1 (script 1%nat))
    as (r2 & m2 & rest2 & E2 & C2 & NC2 & NS2 & _ & T2 & I2).
  rewrite E2. destruct r2 as [e1|[]]; [|elevation_branch].
  destruct (isRetryableConnectionError e1) eqn:R1; cbn [negb orb Nat.eqb];
    [|elevation_branch].
  destruct (connectOnce_spec tm m2 2 (script 2%nat))
    as (r3 & m3 & rest3 & E3 & C3 & NC3 & NS3 & _ & T3 & I3).
  rewrite E3. destruct r3 as [e2|[]]; [|elevation_branch].
  rewrite orb_true_r. elevation_branch.
Qed.

(** Two attempts whose transports do the same end in the same way, and
    leave the same manager when they fail. *)
Lemma connectOnce_transport tm m n a a' :
  transport a' = transport a ->
  match connectOnce tm m n a with
  | (inl err, m1, _) => exists acts', connectOnce tm m n a' = (inl err, m1, acts')
  | (inr _, _, _) => exists m1' acts', connectOnce tm m n a' = (inr tt, m1', acts')
  end.
Proof.
  intros T. unfold connectOnce. rewrite T.
  assert (R : forall o,
             match onReady tm (setConn m (Some true)) n o with
             | (inl err, m1, _) =>
                 exists acts', onReady tm (setConn m (Some true)) n (elevation a')
                               = (inl err, m1, acts')
             | (inr _, _, _) =>
                 exists m1' acts', onReady tm (setConn m (Some true)) n (elevation a')
                                   = (inr tt, m1', acts')
             end).
  { intros o.
    destruct (onReady_spec tm (setConn m (Some true)) n o) as (m1 & rest & -> & _).
    destruct (onReady_spec tm (setConn m (Some true)) n (elevation a'))
      as (m1' & rest' & -> & _).
    eauto. }
  destruct (transport a) as [|err| |err later]; try (eexists; reflexivity).
  - apply R.
  - destruct (negb (truthyOpt tm) && awaitsDialogue (setConn m (Some true)));
      [eexists; reflexivity | apply R].
Qed.

Lemma retryLoop_ignores_elevation (tm : option string) (script script' : nat -> Attempt)
    (remaining : nat) :
  (forall k, transport (script' k) = transport (script k)) ->
  forall attempt lastError m,
    fst (fst (retryLoop tm script' remaining attempt lastError m))
    = fst (fst (retryLoop tm script remaining attempt lastError m)).
Proof.
  intros T. induction remaining as [|remaining IH]; intros attempt lastError m;
    [reflexivity|].
  cbn [retryLoop].
  pose proof (connectOnce_transport tm m attempt (script attempt) (script' attempt)
                (T attempt)) as H.
  destruct (connectOnce tm m attempt (script attempt)) as [[[err|[]] m1] acts].
  - destruct H as (acts' & ->).
    destruct (negb _ || _); [reflexivity|].
    specialize (IH (S attempt) err m1).
    destruct (retryLoop tm script' remaining (S attempt) err m1) as [[r' m2'] a2'].
    destruct (retryLoop tm script remaining (S attempt) err m1) as [[r m2] a2].
    exact IH.
  - destruct H as (m1' & acts' & ->). reflexivity.
Qed.

(** The outcome of [connect] is decided by the transport alone. *)
Lemma connect_ignores_elevation (tm : option string) (script script' : nat -> Attempt) (m : Manager) :
  (forall k, transport (script' k) = transport (script k)) ->
  fst (fst (connect tm script' m)) = fst (fst (connect tm script m)).
Proof.
  intros T. unfold connect. destruct (isConnected m); [reflexivity|].
  unfold connectWithRetry. now apply retryLoop_ignores_elevation.
Qed.

(** An error of the transport that arrives while the su dialogue of the
    first attempt is awaited makes the attempt fail with that error,
    which is raised or retried as any other. *)
Lemma connect_interrupted (tm : option string) (script : nat -> Attempt) (m : Manager)
    (err : JsError) (later : option ElevationOutcome) :
  isConnected m = false ->
  transport (script 0%nat) = ReadyThenError err later ->
  truthyOpt (suPassword (sshConfig m)) = true -> truthyOpt tm = false ->
  isElevated m && suShell m = false ->
  (forall reason, suPromise m <> SuBroken reason) ->
  let '(r, _, acts) := connect tm script m in
  In ActEnsureElevated acts /\
  (isRetryableConnectionError err = false ->
   r = inl (wrapConnectionError (sshConfig m) err)) /\
  (isRetryableConnectionError err = true ->
   In (ActSleep 200) acts /\ In (ActClientConnect 1) acts).
Proof.
  intros N T S TM E B. unfold connect. rewrite N.
  unfold connectWithRetry.
  pose (rounds := 1%nat).
  change (Datatypes.S (length DEFAULT_CONNECT_RETRY_DELAYS_MS))
    with (Datatypes.S (Datatypes.S rounds)).
  clearbody rounds. cbn [retryLoop].
  unfold connectOnce at 1. rewrite T, TM. cbn [negb andb].
  assert (W : awaitsDialogue (setConn m (Some true)) = true).
  { unfold awaitsDialogue. cbn [setConn isElevated suShell sshConfig suPromise conn].
    rewrite E, S. cbn [negb andb].
    destruct (suPromise m) as [| |reason] eqn:P; [reflexivity | reflexivity|].
    now contradiction (B reason). }
  rewrite W.
  destruct (isRetryableConnectionError err) eqn:R;
    cbn [negb orb Nat.eqb length DEFAULT_CONNECT_RETRY_DELAYS_MS nth].
  - match goal with
    | |- context [connectOnce tm ?m1 1 (script 1%nat)] =>
        destruct (connectOnce_spec tm m1 1 (script 1%nat))
          as (r2 & m2 & rest2 & E2 & _); rewrite E2
    end.
    assert (Q : forall (r : string + unit) (m' : Manager) (more : list Action),
               let '(r, _, acts) :=
                 (r, m',
                  ((ActClientConnect 0 :: ActEnsureElevated ::
                    match suPromise (setConn m (Some true)) with
                    | SuIdle => [ActOpenSuShell]
                    | _ => []
                    end) ++ ActSleep 200 :: ActClientConnect 1 :: more)%list) in
               In ActEnsureElevated acts /\
               (true = false -> r = inl (wrapConnectionError (sshConfig m) err)) /\
               (true = true -> In (ActSleep 200) acts /\ In (ActClientConnect 1) acts)).
    { intros r m' more. split; [right; left; reflexivity|]. split; [discriminate|].
      intros _. split; apply in_or_app; right; [left | right; left]; reflexivity. }
    destruct r2 as [e1|[]]; [|exact (Q _ m2 _)].
    destruct (negb (isRetryableConnectionError e1) || _); [exact (Q _ m2 _)|].
    match goal with
    | |- context [retryLoop ?a ?b ?c ?d ?e ?f] =>
        destruct (retryLoop a b c d e f) as [[r3 m3] acts3]
    end.
    apply (Q r3 m3 (rest2 ++ _)%list).
  - split; [right; left; reflexivity|]. split; [|discriminate].
    intros _. now rewrite interrupted_config.
Qed.

(** C6, as amended. When a connection attempt of [connect] reaches
    [ready] and no error of the transport arrives while the su dialogue
    is awaited, [connect] resolves; if moreover the profile carries a
    non-empty su secret and the environment variable [SSH_MCP_TEST] is
    unset or empty, [ensureElevated] is called. However the elevation
    ends, the outcome of [connect] is the same. The promise is resolved
    only after [ensureElevated] has been awaited, and the handler of
    [error] is still installed: an error of the transport that arrives
    during the su dialogue makes the attempt fail with that error, which
    is raised when it is not one that is retried, and is otherwise
    followed by the first delay and a second attempt. *)
Theorem connect_elevation_optional (tm : option string) (script : nat -> Attempt) (m : Manager) :
  let '(r, _, acts) := connect tm script m in
  (forall k,
      In (ActClientConnect k) acts -> transport (script k) = Ready ->
      r = inr tt /\
      (truthyOpt (suPassword (sshConfig m)) = true -> truthyOpt tm = false ->
       In ActEnsureElevated acts)) /\
  (forall script',
      (forall k, transport (script' k) = transport (script k)) ->
      fst (fst (connect tm script' m)) = r) /\
  (forall err later,
      isConnected m = false ->
      transport (script 0%nat) = ReadyThenError err later ->
      truthyOpt (suPassword (sshConfig m)) = true -> truthyOpt tm = false ->
      isElevated m && suShell m = false ->
      (forall reason, suPromise m <> SuBroken reason) ->
      In ActEnsureElevated acts /\
      (isRetryableConnectionError err = false ->
       r = inl (wrapConnectionError (sshConfig m) err)) /\
      (isRetryableConnectionError err = true ->
       In (ActSleep 200) acts /\ In (ActClientConnect 1) acts)).
Proof.
  pose proof (connect_ready_resolves tm script m) as H1.
  pose proof (fun script' => connect_ignores_elevation tm script script' m) as H2.
  pose proof (connect_interrupted tm script m) as H3.
  destruct (connect tm script m) as [[r m'] acts]. split; [exact H1|]. split.
  - intros script' T. exact (H2 script' T).
  - intros err later N T S TM E B. exact (H3 err later N T S TM E B).
Qed.

Import Scenario.

(** Three refused attempts: the two delays of the schedule are slept, and
    the wrapped error names the target. *)
Example refused_three_times :
  connect None alwaysRefused fresh =
  (inl "SSH connection error (profileId=alpha host=10.0.0.5 port=22): connect ECONNREFUSED 10.0.0.5:22",
   fresh,
   [ActClientConnect 0; ActSleep 200; ActClientConnect 1; ActSleep 400; ActClientConnect 2]).
Proof. vm_compute. reflexivity. Qed.

(** An attempt that runs into its timer counts as timed out, and is
    retried like a refused one. *)
Example timeouts_are_retried :
  connect None neverAnswers fresh =
  (inl "SSH connection error (profileId=alpha host=10.0.0.5 port=22): SSH connection timeout",
   fresh,
   [ActClientConnect 0; ActSleep 200; ActClientConnect 1; ActSleep 400; ActClientConnect 2]).
Proof. vm_compute. reflexivity. Qed.

(** An authentication failure ends [connect] after one attempt. *)
Example wrong_password_once :
  connect None wrongPassword fresh =
  (inl "SSH connection error (profileId=alpha host=10.0.0.5 port=22): All configured authentication methods failed",
   fresh, [ActClientConnect 0]).
Proof. vm_compute. reflexivity. Qed.

Lemma connect_retry_classification_witness :
  In (ActSleep 200) (snd (connect None alwaysRefused fresh)) /\
  In (ActClientConnect 1) (snd (connect None alwaysRefused fresh)).
Proof.
  pose proof (connect_retry_classification None alwaysRefused fresh) as H.
  destruct (connect None alwaysRefused fresh) as [[r m'] acts] eqn:E.
  destruct H as (_ & H & _).
  apply (H 0%nat refused).
  - vm_compute in E. injection E as <- <- <-. left. reflexivity.
  - reflexivity.
  - vm_compute. reflexivity.
  - left. vm_compute. reflexivity.
  - lia.
Defined.

(** C6 as stated fails: with [SSH_MCP_TEST] set, a ready connection of a
    profile that carries a su secret is not followed by any elevation
    attempt. *)
Lemma elevation_skipped_in_test_mode :
  truthyOpt (suPassword (sshConfig fresh)) = true /\
  transport (readyButSuRejected 0) = Ready /\
  In (ActClientConnect 0) (snd (connect (Some "1") readyButSuRejected fresh)) /\
  ~ In ActEnsureElevated (snd (connect (Some "1") readyButSuRejected fresh)).
Proof.
  vm_compute. repeat split; auto.
  intros [H|[]]. discriminate H.
Qed.

(** A socket that breaks during the su dialogue of the first attempt:
    [connect] rejects with the error, the client is dropped and the
    dialogue stays in flight. *)
Example broken_during_su :
  connect None brokenDuringSu fresh =
  (inl "SSH connection error (profileId=alpha host=10.0.0.5 port=22): write EPIPE",
   {| sshConfig := target; conn := None; suShell := false; isElevated := false;
      suPromise := SuPending |},
   [ActClientConnect 0; ActEnsureElevated; ActOpenSuShell]).
Proof. vm_compute. reflexivity. Qed.

Lemma connect_elevation_optional_witness :
  (fst (fst (connect None readyButSuRejected fresh)) = inr tt /\
   In ActEnsureElevated (snd (connect None readyButSuRejected fresh))) /\
  (In ActEnsureElevated (snd (connect None brokenDuringSu fresh)) /\
   fst (fst (connect None brokenDuringSu fresh))
   = inl (wrapConnectionError (sshConfig fresh) brokenPipe)).
Proof.
  split.
  - pose proof (connect_elevation_optional None readyButSuRejected fresh) as H.
    destruct (connect None readyButSuRejected fresh) as [[r m'] acts] eqn:E.
    destruct H as [H _].
    destruct (H 0%nat) as [R A].
    + vm_compute in E. injection E as <- <- <-. left. reflexivity.
    + reflexivity.
    + split; [exact R|]. apply A; reflexivity.
  - pose proof (connect_elevation_optional None brokenDuringSu fresh) as H.
    destruct (connect None brokenDuringSu fresh) as [[r m'] acts].
    destruct H as (_ & _ & H).
    destruct (H brokenPipe None) as (A & R & _); try reflexivity.
    + intros reason. discriminate.
    + split; [exact A|]. apply R. reflexivity.
Defined.

End ConnFacts.

(** ** The one-shot execution channel *)
Module ExecFacts.
Import JsString JsStringFacts Conn Exec.

Section DefaultPath.
Variables (target : string) (timeoutMs : Z).

Local Abbreviation step := (Exec.step target timeoutMs false).
Local Abbreviation run := (runEvents target timeoutMs false).

Lemma run_app r es1 es2 : run r (es1 ++ es2) = run (run r es1) es2.
Proof. unfold runEvents. apply fold_left_app. Qed.

(** A settled promise stays as it is. *)
Lemma step_settled r e :
  isResolved r = true ->
  isResolved (step r e) = true /\ settlement (step r e) = settlement r.
Proof.
  intros R. destruct e; simpl; rewrite ?R; simpl; auto.
  - destruct (streamOpen r); auto. destruct err; simpl; auto.
  - destruct (streamOpen r); auto.
  - destruct (streamOpen r); auto.
  - destruct (streamOpen r); auto.
Qed.

Lemma run_settled r es :
  isResolved r = true ->
  isResolved (run r es) = true /\ settlement (run r es) = settlement r.
Proof.
  revert r. induction es as [|e es IH]; intros r R; [auto|].
  simpl. destruct (step_settled r e R) as [R' S'].
  destruct (IH _ R') as [R'' S'']. split; congruence.
Qed.

(** An open stream stays open, and the captured standard error only grows. *)
Lemma step_stream r e :
  streamOpen r = true ->
  streamOpen (step r e) = true /\
  (truthy (stderr r) = true -> truthy (stderr (step r e)) = true).
Proof.
  intros O. destruct e; simpl; rewrite ?O; simpl; auto.
  - destruct (negb (isResolved r)); simpl; auto.
  - split; [reflexivity|]. apply truthy_app_l.
  - destruct (isResolved r); auto.
    destruct (truthy (stderr r)) eqn:E; simpl; rewrite ?E; auto.
Qed.

Lemma run_stream r es :
  streamOpen r = true ->
  streamOpen (run r es) = true /\
  (truthy (stderr r) = true -> truthy (stderr (run r es)) = true).
Proof.
  revert r. induction es as [|e es IH]; intros r O; [auto|].
  simpl. destruct (step_stream r e O) as [O' G'].
  destruct (IH _ O') as [O'' G'']. auto.
Qed.

Lemma run_opens r es :
  In (ExecCallback None) es -> streamOpen (run r es) = true.
Proof.
  revert r. induction es as [|e es IH]; intros r H; [destruct H|].
  destruct H as [->|H]; simpl.
  - apply run_stream. simpl. destruct (streamOpen r) eqn:O; simpl; auto.
  - now apply IH.
Qed.

Lemma step_notResolved r e :
  (forall c, e <> ChannelClose c) -> notResolved r -> notResolved (step r e).
Proof.
  unfold notResolved. intros NC H.
  destruct e;
    try match goal with
      | N : forall c, ChannelClose ?x <> ChannelClose c |- _ => now destruct (N x)
      end;
    cbn [Exec.step orb];
    destruct (settlement r) as [[text|msg]|] eqn:S;
    destruct (isResolved r) eqn:R;
    destruct (streamOpen r) eqn:O;
    try contradiction; try discriminate;
    repeat match goal with
      | |- context [match ?o with Some _ => _ | None => _ end] =>
          is_var o; destruct o
      end;
    cbn; rewrite ?S, ?R; auto.
Qed.

Lemma run_notResolved r es :
  (forall c, ~ In (ChannelClose c) es) -> notResolved r -> notResolved (run r es).
Proof.
  revert r. induction es as [|e es IH]; intros r NC H; [exact H|].
  simpl. apply IH.
  - intros c Hc. apply (NC c). now right.
  - apply step_notResolved; [|exact H]. intros c ->. apply (NC c). now left.
Qed.

Lemma close_with_stderr r code :
  streamOpen r = true -> truthy (stderr r) = true -> notResolved r ->
  isResolved (step r (ChannelClose code)) = true /\
  exists msg, settlement (step r (ChannelClose code)) = Some (Rejected msg).
Proof.
  unfold notResolved. intros O E H. simpl. rewrite O, E. simpl.
  destruct (settlement r) as [[text|msg]|] eqn:S.
  - contradiction.
  - rewrite H. rewrite S. eauto.
  - rewrite H. simpl. eauto.
Qed.

End DefaultPath.

(** C5. On the default path, once the stream is open, a non-empty chunk
    on standard error makes the promise reject when the channel closes,
    whatever the exit code, whatever was written to standard output and
    whatever else happens before or after. *)
Theorem stderr_rejects (m : Manager) (timeoutMs : Z) (pre mid post : list Event)
    (chunk : string) (code : ExitCode) :
  suShell m = false ->
  In (ExecCallback None) pre ->
  chunk <> "" ->
  (forall c, ~ In (ChannelClose c) (pre ++ mid)) ->
  exists msg,
    execSshCommandWithConnection m timeoutMs
      (pre ++ StderrData chunk :: mid ++ ChannelClose code :: post)
    = Some (Rejected msg).
Proof.
  intros D O C NC. unfold execSshCommandWithConnection.
  destruct (conn m); [|eauto]. rewrite D.
  set (target := formatTargetContext (sshConfig m)).
  assert (E : (pre ++ StderrData chunk :: mid ++ ChannelClose code :: post
               = (pre ++ StderrData chunk :: mid) ++ [ChannelClose code] ++ post)%list)
    by (now rewrite <- !app_assoc).
  rewrite E. clear E.
  rewrite (run_app target timeoutMs _ (pre ++ StderrData chunk :: mid)%list).
  rewrite (run_app target timeoutMs _ [ChannelClose code]).
  set (r := runEvents target timeoutMs false (start false) (pre ++ StderrData chunk :: mid)%list).
  assert (Hr : streamOpen r = true /\ truthy (stderr r) = true /\ notResolved r).
  { subst r. rewrite run_app. cbn [runEvents fold_left].
    pose proof (run_opens target timeoutMs (start false) pre O) as Op.
    fold (runEvents target timeoutMs false (start false) pre).
    set (r0 := runEvents target timeoutMs false (start false) pre) in *.
    assert (O1 : streamOpen (Exec.step target timeoutMs false r0 (StderrData chunk)) = true)
      by (simpl; now rewrite Op).
    assert (T1 : truthy (stderr (Exec.step target timeoutMs false r0 (StderrData chunk))) = true)
      by (simpl; rewrite Op; simpl; apply truthy_app_r, truthy_nonempty, C).
    destruct (run_stream target timeoutMs _ mid O1) as [O2 T2].
    fold (runEvents target timeoutMs false
            (Exec.step target timeoutMs false r0 (StderrData chunk)) mid).
    repeat split; auto.
    change (notResolved (runEvents target timeoutMs false r0 ([StderrData chunk] ++ mid)%list)).
    subst r0. rewrite <- run_app. apply run_notResolved.
    - intros c Hc. apply (NC c). rewrite app_assoc in Hc.
      apply in_app_or in Hc. destruct Hc as [Hc|Hc]; apply in_or_app; auto.
      apply in_app_or in Hc. destruct Hc as [Hc|[Hc|[]]]; [auto|discriminate].
    - reflexivity. }
  destruct Hr as (Or & Tr & Nr).
  destruct (close_with_stderr target timeoutMs r code Or Tr Nr) as [R [msg S]].
  exists msg.
  destruct (run_settled target timeoutMs _ post R) as [_ S'].
  exact (eq_trans S' S).
Qed.

Lemma run_quiet (target : string) (timeoutMs : Z) (r : Run) (body : list Event) :
  streamOpen r = true -> isResolved r = false -> settlement r = None -> stderr r = "" ->
  forallb quietData body = true ->
  let r' := runEvents target timeoutMs false r body in
  streamOpen r' = true /\ isResolved r' = false /\ settlement r' = None /\
  stderr r' = "" /\ stdout r' = stdout r ++ stdoutOf body.
Proof.
  revert r. induction body as [|e body IH]; intros r O R S E Q; cbn zeta.
  - simpl. rewrite append_empty_r. auto.
  - simpl in Q. apply andb_prop in Q as [Qe Q].
    destruct e; try discriminate Qe; cbn [runEvents fold_left Exec.step stdoutOf]; rewrite O.
    + match goal with
      | |- context [fold_left _ body ?x] =>
          destruct (IH x) as (O' & R' & S' & E' & T'); auto
      end.
      repeat split; auto.
      unfold runEvents in T'. rewrite T'. cbn [stdout]. apply append_assoc.
    + simpl in Qe. apply String.eqb_eq in Qe. subst chunk.
      match goal with
      | |- context [fold_left _ body ?x] =>
          destruct (IH x) as (O' & R' & S' & E' & T'); auto
      end.
      cbn [stderr]. now rewrite E.
Qed.

(** C10, as amended. On the default path, when the channel closes after
    data events that left standard error empty, and the timer has not
    fired before, the promise resolves with the captured standard output,
    whatever the exit code. *)
Theorem exit_code_not_inspected (m : Manager) (timeoutMs : Z) (body post : list Event)
    (code : ExitCode) :
  conn m <> None ->
  suShell m = false ->
  forallb quietData body = true ->
  execSshCommandWithConnection m timeoutMs
    (ExecCallback None :: body ++ ChannelClose code :: post)
  = Some (Resolved (stdoutOf body)).
Proof.
  intros C D Q. unfold execSshCommandWithConnection.
  destruct (conn m); [clear C|contradiction]. rewrite D.
  set (target := formatTargetContext (sshConfig m)).
  change (ExecCallback None :: body ++ ChannelClose code :: post)%list
    with ([ExecCallback None] ++ body ++ [ChannelClose code] ++ post)%list.
  rewrite !run_app.
  set (r0 := runEvents target timeoutMs false (start false) [ExecCallback None]).
  destruct (run_quiet target timeoutMs r0 body) as (O & R & S & E & T); auto.
  set (r := runEvents target timeoutMs false r0 body) in *.
  assert (R' : isResolved (runEvents target timeoutMs false r [ChannelClose code]) = true).
  { cbn [runEvents fold_left Exec.step]. rewrite O, R, E. reflexivity. }
  destruct (run_settled target timeoutMs _ post R') as [_ S'].
  rewrite S'. cbn [runEvents fold_left Exec.step]. rewrite O, R, E. cbn. now rewrite T.
Qed.

Import Scenario.

Example noisy_run_rejects :
  execSshCommandWithConnection connected 60000 noisyRun =
  Some (Rejected ("Error (code 0) (profileId=alpha host=10.0.0.5 port=22):"
                  ++ newline ++ "warning: slow disk")).
Proof. vm_compute. reflexivity. Qed.

Lemma stderr_rejects_witness :
  exists msg, execSshCommandWithConnection connected 60000 noisyRun = Some (Rejected msg).
Proof.
  apply (stderr_rejects connected 60000 [ExecCallback None; StdoutData "listing"] [] []
           "warning: slow disk" (ExitStatus 0)).
  - reflexivity.
  - left. reflexivity.
  - discriminate.
  - intros c [H|[H|[]]]; discriminate H.
Defined.

(** C10 as stated fails: the channel closes with exit status 1 and empty
    standard error, but the timer had fired, so the promise is rejected. *)
Lemma late_close_rejected :
  stderr (stateAfter connected 60000 lateClose) = "" /\
  execSshCommandWithConnection connected 60000 lateClose =
  Some (Rejected "Command execution timed out after 60000ms (profileId=alpha host=10.0.0.5 port=22)").
Proof. vm_compute. split; reflexivity. Qed.

Lemma exit_code_not_inspected_witness :
  execSshCommandWithConnection connected 60000
    (ExecCallback None :: failingQuietly ++ ChannelClose (ExitStatus 3) :: [TimerFired])
  = Some (Resolved "no match").
Proof.
  apply (exit_code_not_inspected connected 60000 failingQuietly [TimerFired] (ExitStatus 3)).
  - discriminate.
  - reflexivity.
  - reflexivity.
Defined.

End ExecFacts.

(** ** findProfiles *)
Module FindFacts.
Import JsString JsStringFacts Json Res Types Loader Store Manager.

(** *** The stable sort by descending score *)

Lemma insertByScore_In item sorted x :
  In x (insertByScore item sorted) <-> x = item \/ In x sorted.
Proof.
  induction sorted as [|other rest IH]; simpl; [intuition|].
  destruct (fst other <=? fst item); simpl; [intuition|].
  rewrite IH. intuition.
Qed.

Lemma sortByScore_In items x : In x (sortByScore items) <-> In x items.
Proof.
  induction items as [|item items IH]; simpl; [tauto|].
  rewrite insertByScore_In, IH. intuition.
Qed.

Lemma insertByScore_sorted item sorted :
  StronglySorted descending sorted -> StronglySorted descending (insertByScore item sorted).
Proof.
  induction 1 as [|other rest S IH F]; simpl.
  - constructor; constructor.
  - destruct (Z.leb_spec (fst other) (fst item)) as [L|L].
    + constructor; [now constructor|]. constructor; [exact L|].
      rewrite List.Forall_forall in *. intros y Hy. specialize (F y Hy).
      unfold descending in *. lia.
    + constructor; [exact IH|]. rewrite List.Forall_forall in *.
      intros y Hy. apply insertByScore_In in Hy as [->|Hy].
      * unfold descending. lia.
      * now apply F.
Qed.

Lemma sortByScore_sorted items : StronglySorted descending (sortByScore items).
Proof.
  induction items as [|item items IH]; simpl; [constructor|].
  now apply insertByScore_sorted.
Qed.

(** Among the items of one score the sort changes nothing. *)
Lemma insertByScore_class item sorted v :
  List.filter (fun x => fst x =? v) (insertByScore item sorted) =
  List.filter (fun x => fst x =? v) (item :: sorted).
Proof.
  induction sorted as [|other rest IH]; [reflexivity|].
  cbn [insertByScore]. destruct (Z.leb_spec (fst other) (fst item)) as [L|L]; [reflexivity|].
  cbn [List.filter] in *. rewrite IH.
  destruct (Z.eqb_spec (fst item) v), (Z.eqb_spec (fst other) v); try reflexivity. lia.
Qed.

Lemma sortByScore_class items v :
  List.filter (fun x => fst x =? v) (sortByScore items) =
  List.filter (fun x => fst x =? v) items.
Proof.
  induction items as [|item items IH]; [reflexivity|].
  cbn [sortByScore foldr]. fold (sortByScore items).
  rewrite insertByScore_class. cbn [List.filter]. now rewrite IH.
Qed.

(** An item that outscores all the others comes first. *)
Lemma sortByScore_top before top after :
  (forall x, In x (before ++ after) -> fst x < fst top) ->
  sortByScore (before ++ top :: after) = top :: sortByScore (before ++ after).
Proof.
  induction before as [|item before IH]; intros H.
  - cbn [app sortByScore foldr]. fold (sortByScore after).
    destruct (sortByScore after) as [|other rest] eqn:E; [reflexivity|].
    cbn [insertByScore].
    assert (L : fst other < fst top).
    { apply H. cbn [app]. apply sortByScore_In. rewrite E. now left. }
    destruct (Z.leb_spec (fst other) (fst top)); [reflexivity|lia].
  - cbn [app sortByScore foldr]. fold (sortByScore (before ++ top :: after)).
    fold (sortByScore (before ++ after)).
    rewrite IH by (intros x Hx; apply H; now right).
    cbn [insertByScore].
    assert (L : fst item < fst top) by (apply H; now left).
    destruct (Z.leb_spec (fst top) (fst item)); [lia|reflexivity].
Qed.

(** *** Scores *)

Lemma scoreOf_earned normalized record :
  scoreOf normalized record = earned (criteria normalized record).
Proof.
  unfold scoreOf, criteria, earned. cbn [fold_right fst snd].
  repeat match goal with
    | |- context [if ?b then _ else _] => destruct b
    end; reflexivity.
Qed.

Lemma startsWith_refl (s : string) : startsWith s s = true.
Proof. induction s as [|c s IH]; simpl; [reflexivity | now rewrite Ascii.eqb_refl]. Qed.

Lemma includes_refl (s : string) : includes s s = true.
Proof. apply includes_of_startsWith, startsWith_refl. Qed.

Lemma exact_id_score normalized record :
  toLowerCase (Summary.id record) = normalized -> 150 <= scoreOf normalized record.
Proof.
  intros E. unfold scoreOf. rewrite E, String.eqb_refl, includes_refl.
  repeat match goal with
    | |- context [if ?b then _ else _] => destruct b
    end; lia.
Qed.

Lemma other_score normalized record :
  toLowerCase (Summary.id record) <> normalized ->
  matchesAllButExactId normalized record = false ->
  scoreOf normalized record <= 147.
Proof.
  intros N A. rewrite scoreOf_earned. revert A.
  unfold matchesAllButExactId, criteria, earned. cbn [tl forallb fold_right fst snd].
  destruct (String.eqb_spec (toLowerCase (Summary.id record)) normalized); [contradiction|].
  repeat match goal with
    | |- context [if ?b then _ else _] => destruct b
    end; cbn; intros; try discriminate; lia.
Qed.

Section Search.
Context {platform : Platform}.

Lemma listProfiles_inv (s : Sys) (all : list Summary.t) :
  fst (listProfiles s) = inr all ->
  listProfiles s = (inr all, s).
Proof.
  unfold listProfiles, ensureLoaded, bindM, getManager, ret, raise. cbn.
  destruct (loadedConfig (manager s)); cbn; [|discriminate].
  destruct (truthyOpt (activeProfileId (manager s))); cbn; [|discriminate].
  now intros [= ->].
Qed.

(** What [findProfiles] returns over a listing [all]. *)
Lemma findProfiles_eval (query : string) (s : Sys) (all : list Summary.t) :
  fst (listProfiles s) = inr all ->
  let normalized := toLowerCase (trim query) in
  findProfiles query s =
  (inr (if negb (truthy normalized)
        then map (fun profile => {| Found.profile := profile; Found.matchScore := None |}) all
        else map (fun item => {| Found.profile := snd item; Found.matchScore := Some (fst item) |})
               (sortByScore
                  (List.filter (fun item => 0 <? fst item)
                     (map (fun profile => (scoreOf normalized profile, profile)) all)))),
   s).
Proof.
  intros L. apply listProfiles_inv in L. cbn zeta.
  unfold findProfiles, bindM. rewrite L.
  now destruct (negb (truthy (toLowerCase (trim query)))).
Qed.

(** C3, as amended. The score is the sum of the weights of the tests
    that hold; by decreasing weight the tests are: exact id (100), id
    substring (50), exact host (40), host substring (20), name substring
    (15), tag substring (12), user substring (10), note substring (8).
    For a query that is not blank, the entries returned are exactly the
    listed profiles with a positive score, each with its score; they are
    in descending order of score, and profiles of equal score keep the
    order of the listing. *)
Theorem findProfiles_scoring (query : string) (s : Sys) (all : list Summary.t) :
  fst (listProfiles s) = inr all ->
  truthy (toLowerCase (trim query)) = true ->
  let normalized := toLowerCase (trim query) in
  let score := scoreOf normalized in
  let byWeight :=
    [("exact id", 100); ("id substring", 50); ("exact host", 40); ("host substring", 20);
     ("name substring", 15); ("tag substring", 12); ("user substring", 10);
     ("note substring", 8)] in
  (forall record,
      score record = earned (criteria normalized record) /\
      Permutation (map (fun t => (fst (fst t), snd t)) (criteria normalized record)) byWeight) /\
  StronglySorted (fun a b => snd a > snd b) byWeight /\
  exists found,
    findProfiles query s = (inr found, s) /\
    (forall entry,
        In entry found <->
        exists record,
          In record all /\ 0 < score record /\
          entry = {| Found.profile := record; Found.matchScore := Some (score record) |}) /\
    StronglySorted (fun a b => score (Found.profile b) <= score (Found.profile a)) found /\
    (forall v, 0 < v ->
        List.filter (fun record => score record =? v) (map Found.profile found) =
        List.filter (fun record => score record =? v) all).
Proof.
  intros L T normalized score byWeight. split; [|split].
  - intros record. split; [apply scoreOf_earned|].
    unfold criteria, byWeight. cbn [map fst snd].
    do 5 apply perm_skip.
    exact (Permutation_sym
             (Permutation_cons_append [("user substring", 10); ("note substring", 8)]
                ("tag substring", 12))).
  - unfold byWeight. repeat (constructor; [|repeat constructor; cbn; lia]). constructor.
  - rewrite (findProfiles_eval query s all L). cbv zeta. rewrite T. fold normalized. cbn [negb].
    set (scored := map (fun profile => (scoreOf normalized profile, profile)) all).
    set (kept := List.filter (fun item => 0 <? fst item) scored).
    assert (K : forall item, In item kept <->
                  exists record, In record all /\ 0 < score record /\ item = (score record, record)).
    { intros item. unfold kept, scored. rewrite filter_In, in_map_iff. split.
      - intros [[record [<- I]] P]. apply Z.ltb_lt in P. exists record. auto.
      - intros [record (I & P & ->)]. split; [exists record; auto|].
        now apply Z.ltb_lt. }
    assert (Sc : forall item, In item kept -> fst item = score (snd item)).
    { intros item I. apply K in I as [record (_ & _ & ->)]. reflexivity. }
    eexists. split; [reflexivity|]. split; [|split].
    + intros entry. rewrite in_map_iff. split.
      * intros [item [<- I]]. apply sortByScore_In, K in I as [record (I & P & ->)].
        exists record. auto.
      * intros [record (I & P & ->)]. exists (score record, record). split; [reflexivity|].
        apply sortByScore_In, K. exists record. auto.
    + assert (S : StronglySorted descending (sortByScore kept)) by apply sortByScore_sorted.
      assert (F : forall item, In item (sortByScore kept) -> fst item = score (snd item))
        by (intros item I; apply Sc; now apply sortByScore_In).
      induction S as [|item rest S IH A]; [constructor|].
      cbn [map]. constructor.
      * apply IH. intros x Hx. apply F. now right.
      * rewrite List.Forall_forall in *. intros entry Hentry.
        apply in_map_iff in Hentry as [other [<- Hother]]. cbn [Found.profile].
        specialize (A other Hother). unfold descending in A.
        rewrite <- (F item) by now left. rewrite <- (F other) by now right. exact A.
    + intros v P. rewrite map_map. cbn [Found.profile].
      assert (E : forall items : list (Z * Summary.t),
                 (forall item, In item items -> fst item = score (snd item)) ->
                 List.filter (fun record => score record =? v) (map snd items) =
                 map snd (List.filter (fun x => fst x =? v) items)).
      { induction items as [|item items IH]; intros H; [reflexivity|].
        cbn [map List.filter]. rewrite <- (H item) by now left.
        rewrite IH by (intros x Hx; apply H; now right).
        now destruct (fst item =? v). }
      rewrite E by (intros item I; apply Sc; now apply sortByScore_In).
      rewrite sortByScore_class. rewrite <- E by exact Sc.
      unfold kept, scored, score. clear -P. induction all as [|record rest IH]; [reflexivity|].
      cbn [map List.filter fst snd].
      destruct (Z.ltb_spec 0 (scoreOf normalized record)) as [Q|Q]; cbn [map List.filter snd].
      * now rewrite IH.
      * rewrite IH. destruct (Z.eqb_spec (scoreOf normalized record) v); [lia|reflexivity].
Qed.

(** C8, as amended. For a blank query, the empty one included, every
    profile of the listing is returned, in order and without a score. For
    any other query whose normal form is the lower-cased id of a listed
    profile, that profile is returned first, with a score of at least 150,
    provided no other listed profile has the same id up to case or passes
    every test other than the exact id. *)
Theorem findProfiles_exact_id (query : string) (s : Sys) (all : list Summary.t) :
  fst (listProfiles s) = inr all ->
  let normalized := toLowerCase (trim query) in
  (truthy normalized = false ->
   findProfiles query s =
   (inr (map (fun record => {| Found.profile := record; Found.matchScore := None |}) all), s)) /\
  (truthy normalized = true ->
   forall before record after,
     all = (before ++ record :: after)%list ->
     toLowerCase (Summary.id record) = normalized ->
     (forall other,
         In other (before ++ after) ->
         toLowerCase (Summary.id other) <> normalized /\
         matchesAllButExactId normalized other = false) ->
     150 <= scoreOf normalized record /\
     exists rest,
       findProfiles query s =
       (inr ({| Found.profile := record;
                Found.matchScore := Some (scoreOf normalized record) |} :: rest), s)).
Proof.
  intros L normalized. rewrite (findProfiles_eval query s all L). fold normalized. split.
  - now intros ->.
  - intros -> before record after -> E O. cbn [negb].
    pose proof (exact_id_score normalized record E) as P. split; [exact P|].
    rewrite map_app. cbn [map]. rewrite List.filter_app. cbn [List.filter fst].
    destruct (Z.ltb_spec 0 (scoreOf normalized record)) as [_|Q]; [|lia].
    rewrite sortByScore_top.
    + cbn [map fst snd]. eexists. reflexivity.
    + intros x Hx. cbn [fst].
      assert (In x (map (fun profile => (scoreOf normalized profile, profile)) (before ++ after))) as I.
      { rewrite map_app. apply in_app_or in Hx as [Hx|Hx]; apply in_or_app;
          apply filter_In in Hx as [Hx _]; auto. }
      apply in_map_iff in I as [other [<- I]]. cbn [fst].
      destruct (O other I) as [N A]. pose proof (other_score normalized other N A). lia.
Qed.

End Search.

Import StoreScenario.

(** C3 as stated fails: the weight of a tag match (12) is above those of a
    user match (10) and of a note match (8). For the query [db], [web]
    matches on a tag only and [cache] on its note only; [web] is returned
    before [cache], which precedes it in the listing. *)
Lemma tag_outweighs_note :
  map Summary.id searchListing = ["db"; "db-replica"; "cache"; "web"] /\
  idsAndScores (fst (@findProfiles posix "db" searchStore))
  = inr [("db-replica", Some 155); ("db", Some 150); ("web", Some 12); ("cache", Some 8)] /\
  ~ StronglySorted Z.gt (map (fun t => snd t) (criteria "db" (nth 3 searchListing webSummary))).
Proof.
  split; [vm_compute; reflexivity|]. split; [vm_compute; reflexivity|].
  intros S. vm_compute in S.
  do 6 (apply StronglySorted_inv in S as [S _]).
  apply StronglySorted_inv in S as [_ F]. apply Forall_inv in F. discriminate F.
Qed.

Lemma findProfiles_scoring_witness :
  exists found,
    @findProfiles posix "db" searchStore = (inr found, searchStore) /\
    StronglySorted
      (fun a b => scoreOf "db" (Found.profile b) <= scoreOf "db" (Found.profile a)) found.
Proof.
  destruct (@findProfiles_scoring posix "db" searchStore searchListing)
    as (_ & _ & found & E & _ & S & _).
  - vm_compute. reflexivity.
  - vm_compute. reflexivity.
  - exists found. split; [exact E | exact S].
Defined.

(** C8 as stated fails: the query [db] is the id of the first profile of
    the listing, and [db-replica], which passes every other test, is
    returned in front of it. *)
Lemma exact_id_outranked :
  hd_error (map Summary.id searchListing) = Some "db" /\
  (do found <- fst (@findProfiles posix "db" searchStore);
   ok (hd_error (map (fun e => Summary.id (Found.profile e)) found)))
  = inr (Some "db-replica").
Proof. split; vm_compute; reflexivity. Qed.

(** The empty query returns the whole listing. *)
Example empty_query_lists_all :
  idsAndScores (fst (@findProfiles posix "" searchStore))
  = inr [("db", None); ("db-replica", None); ("cache", None); ("web", None)].
Proof. vm_compute. reflexivity. Qed.

(** Ids that differ by case only tie on the query, and the order of the
    listing decides. *)
Example case_variant_ids_tie :
  idsAndScores (fst (findProfiles (platform := posix) "db" caseStore))
  = inr [("DB", Some 150); ("db", Some 150)].
Proof. vm_compute. reflexivity. Qed.

Lemma findProfiles_exact_id_witness :
  exists rest,
    @findProfiles posix "web" searchStore =
    (inr ({| Found.profile := nth 3 searchListing webSummary;
             Found.matchScore := Some (scoreOf "web" (nth 3 searchListing webSummary)) |}
          :: rest), searchStore).
Proof.
  destruct (@findProfiles_exact_id posix "web" searchStore searchListing) as [_ H].
  - vm_compute. reflexivity.
  - destruct (H eq_refl (firstn 3 searchListing) (nth 3 searchListing webSummary) [])
      as [_ R].
    + vm_compute. reflexivity.
    + vm_compute. reflexivity.
    + intros other [<-|[<-|[<-|[]]]]; split; vm_compute; congruence.
    + exact R.
Defined.

End FindFacts.

(** ** The profile store *)
Module StoreFacts.
Import JsString JsStringFacts Json Res Types Loader Store Manager Literal.

Ltac run_monad :=
  unfold bindM, getManager, getFiles, putFiles, modifyManager, ret, raise, lift, ok, throw;
  cbn beta iota.

Ltac thrown := unfold raise, throw; cbv beta; discriminate.

Lemma ensureLoaded_run (s : Sys) :
  ensureLoaded s =
  (match loadedConfig (manager s) with
   | Some loaded =>
       if truthyOpt (activeProfileId (manager s)) then inr loaded
       else inl "ProfileManager is not initialized"
   | None => inl "ProfileManager is not initialized"
   end, s).
Proof.
  unfold ensureLoaded. run_monad.
  destruct (loadedConfig (manager s)); [|reflexivity].
  now destruct (truthyOpt (activeProfileId (manager s))).
Qed.

Lemma getProfile_run (profileId : string) (s : Sys) :
  getProfile profileId s =
  (match fst (ensureLoaded s) with
   | inl e => inl e
   | inr loaded =>
       match findProfile (profiles (config loaded)) profileId with
       | Some profile => inr profile
       | None => inl ("Profile " ++ quoted profileId ++ " does not exist")
       end
   end, s).
Proof.
  unfold getProfile. unfold bindM. rewrite ensureLoaded_run. cbn [fst].
  destruct (loadedConfig (manager s)); [|reflexivity].
  destruct (truthyOpt (activeProfileId (manager s))); [|reflexivity].
  cbn. now destruct (findProfile _ _).
Qed.

Lemma getActiveProfileId_run (s : Sys) :
  getActiveProfileId s =
  (match fst (ensureLoaded s) with
   | inl e => inl e
   | inr _ => inr (default "" (activeProfileId (manager s)))
   end, s).
Proof.
  unfold getActiveProfileId. unfold bindM at 1. rewrite ensureLoaded_run. cbn [fst].
  destruct (loadedConfig (manager s)); [|reflexivity].
  now destruct (truthyOpt (activeProfileId (manager s))).
Qed.

Lemma getProp_setProp_eq (k : string) (v : json) (o : obj) :
  getProp k (setProp k v o) = Some v.
Proof.
  induction o as [|[k' v'] o IH]; cbn [setProp getProp].
  - now rewrite String.eqb_refl.
  - destruct (String.eqb_spec k' k) as [->|N]; cbn [getProp].
    + now rewrite String.eqb_refl.
    + destruct (String.eqb_spec k' k); [contradiction | exact IH].
Qed.

Lemma getProp_setProp_ne (k k' : string) (v : json) (o : obj) :
  k <> k' -> getProp k' (setProp k v o) = getProp k' o.
Proof.
  intros N. induction o as [|[k0 v0] o IH]; cbn [setProp getProp].
  - destruct (String.eqb_spec k k'); [contradiction | reflexivity].
  - destruct (String.eqb_spec k0 k) as [->|N0]; cbn [getProp].
    + destruct (String.eqb_spec k k'); [contradiction | reflexivity].
    + now rewrite IH.
Qed.

Lemma getRawProfiles_store (items : list obj) (o : obj) :
  getRawProfiles (setProp "profiles" (JArr (map JObj items)) o) = inr items.
Proof.
  unfold getRawProfiles. rewrite getProp_setProp_eq.
  induction items as [|item items IH]; [reflexivity|].
  cbn [map mapM Res.bind ok]. now rewrite IH.
Qed.




(** *** What a validated document guarantees *)

Ltac bind_inv H :=
  repeat match type of H with
    | Res.bind ?r _ = inr _ =>
        let E := fresh "E" in
        destruct r eqn:E; [discriminate H|]; cbn [Res.bind] in H
    | (if ?b then _ else _) = inr _ =>
        let E := fresh "E" in
        destruct b eqn:E; try discriminate H
    end.

Lemma mapM_In {A B} (f : A -> result B) (l : list A) (l' : list B) :
  mapM f l = inr l' -> forall y, In y l' -> exists x, In x l /\ f x = inr y.
Proof.
  revert l'. induction l as [|x l IH]; intros l' H y Hy; cbn [mapM] in H.
  - injection H as <-. destruct Hy.
  - bind_inv H. injection H as <-. destruct Hy as [<-|Hy].
    + exists x. split; [now left | assumption].
    + destruct (IH _ eq_refl y Hy) as [x' [I F]]. exists x'. split; [now right | assumption].
Qed.

Lemma zStringMin1_truthy (message : string) (v : json) (s : string) :
  zStringMin1 message v = inr s -> truthy s = true.
Proof.
  unfold zStringMin1. intros H. bind_inv H. now injection H as <-.
Qed.

Lemma required_inv {A} (schema : json -> result A) (v : option json) (a : A) :
  required schema v = inr a -> exists x, v = Some x /\ schema x = inr a.
Proof. destruct v as [x|]; [eauto | discriminate]. Qed.

Lemma profileSchema_id (v : json) (p : ProfileDefinition) :
  profileSchema v = inr p -> truthy (id p) = true.
Proof.
  unfold profileSchema. intros H. bind_inv H. injection H as <-. cbn [id].
  match goal with
  | E : required (zStringMin1 "profile id is required") _ = inr _ |- _ =>
      apply required_inv in E as [x [_ E]]; exact (zStringMin1_truthy _ _ _ E)
  end.
Qed.

Lemma profilesConfigSchema_valid (v : json) (cfg : ProfilesConfig) :
  profilesConfigSchema v = inr cfg ->
  truthy (activeProfile cfg) = true /\
  forall p, In p (profiles cfg) -> truthy (id p) = true.
Proof.
  unfold profilesConfigSchema. intros H. bind_inv H. injection H as <-.
  cbn [activeProfile profiles]. split.
  - match goal with
    | E : required (zStringMin1 "activeProfile is required") _ = inr _ |- _ =>
        apply required_inv in E as [x [_ E]]; exact (zStringMin1_truthy _ _ _ E)
    end.
  - intros prof I.
    match goal with
    | E : required _ (getProp "profiles" _) = inr _ |- _ =>
        apply required_inv in E as [x [_ M]]
    end.
    destruct x as [| | | |items|]; try discriminate.
    destruct items as [|item items]; [discriminate|].
    destruct (mapM_In _ _ _ M prof I) as [raw [_ F]].
    exact (profileSchema_id _ _ F).
Qed.

Lemma hasProfile_find (ps : list ProfileDefinition) (x : string) :
  hasProfile ps x = true <-> findProfile ps x <> None.
Proof.
  unfold hasProfile, findProfile. induction ps as [|p ps IH]; cbn [existsb List.find].
  - split; [discriminate | congruence].
  - destruct (String.eqb (id p) x); cbn [orb]; [split; [discriminate | reflexivity] | exact IH].
Qed.

(** *** The expansion of the environment, item by item *)








(** *** The items that stay, before and after the validation *)







Section Persist.
Context {platform : Platform}.

Lemma validateProfileAuthFields_keys (disk : gmap string string) (filePath : string)
    (ps : list ProfileDefinition) :
  validateProfileAuthFields disk filePath ps = inr tt ->
  forall p keyPath,
    In p ps -> auth p = KeyAuth keyPath ->
    access disk (resolveKeyPath keyPath filePath) = true.
Proof.
  induction ps as [|q ps IH]; intros H p keyPath I A; [destruct I|].
  cbn [validateProfileAuthFields] in H. bind_inv H.
  destruct I as [->|I]; [|exact (IH H p keyPath I A)].
  match goal with E : validateProfileAuth _ _ _ = inr _ |- _ => revert E end.
  unfold validateProfileAuth. rewrite A.
  destruct (negb _ || _); [discriminate|].
  destruct (access disk (resolveKeyPath keyPath filePath)); [reflexivity | discriminate].
Qed.

(** A document that passes [validateRawProfilesConfig] has non-empty ids,
    an active profile that exists, and every key file in place. *)
Lemma validated (env disk : gmap string string) (rawConfig : obj) (filePath : string)
    (cfg : ProfilesConfig) :
  validateRawProfilesConfig env disk rawConfig filePath = inr cfg ->
  truthy (activeProfile cfg) = true /\
  hasProfile (profiles cfg) (activeProfile cfg) = true /\
  (forall p, In p (profiles cfg) -> truthy (id p) = true) /\
  (forall p keyPath,
      In p (profiles cfg) -> auth p = KeyAuth keyPath ->
      access disk (resolveKeyPath keyPath filePath) = true).
Proof.
  unfold validateRawProfilesConfig. intros H. bind_inv H. injection H as <-.
  match goal with
  | E : profilesConfigSchema _ = inr _ |- _ =>
      destruct (profilesConfigSchema_valid _ _ E) as [T I]
  end.
  repeat split; auto.
  - match goal with E : ensureActiveProfileExists _ = inr _ |- _ => revert E end.
    unfold ensureActiveProfileExists, hasProfile.
    now destruct (existsb _ _).
  - match goal with
    | E : validateProfileAuthFields _ _ _ = inr ?u |- _ =>
        destruct u; exact (validateProfileAuthFields_keys _ _ _ E)
    end.
Qed.

Lemma hasProfile_truthy (ps : list ProfileDefinition) (x : string) :
  (forall p, In p ps -> truthy (id p) = true) ->
  hasProfile ps x = true -> truthy x = true.
Proof.
  intros T H. unfold hasProfile in H. apply existsb_exists in H as [p [I E]].
  apply String.eqb_eq in E. subst x. now apply T.
Qed.

(** [persistRawConfig], step by step: nothing is written unless the
    validation has passed. *)
Lemma persistRawConfig_run (env : gmap string string) (rawConfig : obj)
    (preferred : option string) (s : Sys) :
  persistRawConfig env rawConfig preferred s =
  match fst (ensureLoaded s) with
  | inl e => (inl e, s)
  | inr currentLoaded =>
      match validateRawProfilesConfig env (files s) rawConfig (configPath (manager s)) with
      | inl e => (inl e, s)
      | inr parsedConfig =>
          let nextLoaded :=
            {| filePath := filePath currentLoaded; format := format currentLoaded;
               config := parsedConfig; rawConfig := rawConfig |} in
          let this := setLoadedConfig nextLoaded (manager s) in
          let disk := saveRawProfilesConfig nextLoaded (files s) in
          match pickActiveProfileId this nextLoaded
                  match preferred with
                  | Some p => Some p
                  | None => activeProfileId this
                  end with
          | inl e => (inl e, {| manager := this; files := disk |})
          | inr active =>
              (inr tt, {| manager := setActiveProfileId active this; files := disk |})
          end
      end
  end.
Proof.
  unfold persistRawConfig. unfold bindM at 1. rewrite ensureLoaded_run. cbn [fst].
  destruct (loadedConfig (manager s)) as [currentLoaded|]; [|reflexivity].
  destruct (truthyOpt (activeProfileId (manager s))); [|reflexivity].
  run_monad. cbn [manager files].
  destruct (validateRawProfilesConfig _ _ _ _) as [e|parsedConfig]; [reflexivity|].
  cbn beta iota zeta.
  match goal with |- context [pickActiveProfileId ?a ?b ?c] => destruct (pickActiveProfileId a b c) end;
    reflexivity.
Qed.

(** What a successful [confirmDeleteProfile] has gone through. *)
Lemma confirm_success (env : gmap string string) (now : Z)
    (requestId profileId text : string) (s s' : Sys) (v : Confirmed.t) :
  confirmDeleteProfile env now requestId profileId text s = (inr v, s') ->
  exists pending loaded profileToDelete first rest rawProfiles s1,
    pendingDeletes (manager s) !! requestId = Some pending /\
    now <= expiresAt pending /\
    Store.profileId pending = profileId /\
    trim text = "DELETE " ++ profileId /\
    loadedConfig (manager s) = Some loaded /\
    truthyOpt (activeProfileId (manager s)) = true /\
    findProfile (profiles (config loaded)) profileId = Some profileToDelete /\
    List.filter (fun item => negb (String.eqb (id item) profileId)) (profiles (config loaded))
      = first :: rest /\
    getRawProfiles (rawConfig loaded) = inr rawProfiles /\
    length (List.filter (rawIdDiffers profileId) rawProfiles) <> length rawProfiles /\
    let nextProfiles := first :: rest in
    let runtimeActiveId := default "" (activeProfileId (manager s)) in
    let persistedActiveId :=
      readPersistedActiveProfileId (rawConfig loaded) (activeProfile (config loaded)) in
    let nextPersistedActiveId :=
      if String.eqb persistedActiveId profileId then id first else persistedActiveId in
    let normalizedPersistedActiveId :=
      if hasProfile nextProfiles nextPersistedActiveId then nextPersistedActiveId
      else id first in
    let nextRuntimeActiveId :=
      if String.eqb runtimeActiveId profileId then normalizedPersistedActiveId
      else runtimeActiveId in
    let normalizedRuntimeActiveId :=
      if hasProfile nextProfiles nextRuntimeActiveId then nextRuntimeActiveId
      else normalizedPersistedActiveId in
    persistRawConfig env
      (setProp "activeProfile" (JStr normalizedPersistedActiveId)
         (setProp "profiles" (JArr (map JObj (List.filter (rawIdDiffers profileId) rawProfiles)))
            (rawConfig loaded)))
      (Some normalizedRuntimeActiveId) s = (inr tt, s1) /\
    s' = {| manager := setPendingDeletes (delete requestId (pendingDeletes (manager s1)))
                         (manager s1);
            files := files s1 |} /\
    v = {| Confirmed.deletedProfileId := profileId;
           Confirmed.deletedProfile :=
             Summary.profileSummary profileToDelete normalizedRuntimeActiveId;
           Confirmed.activeProfile := normalizedRuntimeActiveId;
           Confirmed.persistedActiveProfile := normalizedPersistedActiveId;
           Confirmed.backupPath := backupPath pending |}.
Proof.
  unfold confirmDeleteProfile. unfold bindM at 1. unfold getManager at 1. unfold ok at 1.
  cbn beta iota.
  destruct (pendingDeletes (manager s) !! requestId) as [pending|] eqn:P; [|thrown].
  destruct (Z.ltb_spec (expiresAt pending) now) as [X|X]; [run_monad; discriminate|].
  destruct (String.eqb_spec (Store.profileId pending) profileId) as [I|I]; [|thrown].
  destruct (String.eqb_spec (trim text) ("DELETE " ++ profileId)) as [T|T]; [|thrown].
  cbn [negb]. unfold bindM at 1. rewrite ensureLoaded_run.
  destruct (loadedConfig (manager s)) as [loaded|] eqn:L; [|discriminate].
  destruct (truthyOpt (activeProfileId (manager s))) eqn:A; [|discriminate].
  unfold bindM at 1. rewrite getProfile_run, ensureLoaded_run, L, A. cbn [fst].
  destruct (findProfile (profiles (config loaded)) profileId) as [profileToDelete|] eqn:F;
    [|discriminate].
  destruct (List.filter _ (profiles (config loaded))) as [|first rest] eqn:N; [thrown|].
  unfold bindM at 1. rewrite getActiveProfileId_run, ensureLoaded_run, L, A. cbn [fst].
  unfold cloneRawConfig. unfold bindM at 1. unfold lift at 1.
  destruct (getRawProfiles (rawConfig loaded)) as [e|rawProfiles] eqn:R; [discriminate|].
  destruct (Nat.eqb_spec (length (List.filter (rawIdDiffers profileId) rawProfiles))
              (length rawProfiles)) as [Q|Q]; [thrown|].
  unfold bindM at 1.
  match goal with
  | |- context [persistRawConfig ?e ?d ?p s] =>
      destruct (persistRawConfig e d p s) as [[e1|[]] s1] eqn:E; [discriminate|]
  end.
  run_monad. intros [= <- <-].
  exists pending, loaded, profileToDelete, first, rest, rawProfiles, s1.
  repeat (split; [assumption || reflexivity || lia|]). cbn zeta.
  repeat split; try assumption; reflexivity.
Qed.

Lemma persistRawConfig_pending (env : gmap string string) (rawConfig : obj)
    (preferred : option string) (s : Sys) :
  pendingDeletes (manager (snd (persistRawConfig env rawConfig preferred s)))
  = pendingDeletes (manager s).
Proof.
  rewrite persistRawConfig_run.
  destruct (fst (ensureLoaded s)); [reflexivity|].
  destruct (validateRawProfilesConfig _ _ _ _); [reflexivity|].
  cbn zeta. now destruct (pickActiveProfileId _ _ _).
Qed.

(** What [confirmDeleteProfile] does to the pending requests and to the
    store, in each of its outcomes. *)
Lemma confirm_effect (env : gmap string string) (now : Z)
    (requestId profileId text : string) (s : Sys) :
  let '(res, s') := confirmDeleteProfile env now requestId profileId text s in
  match pendingDeletes (manager s) !! requestId with
  | None => isOk res = false /\ s' = s
  | Some pending =>
      if expiresAt pending <? now then
        isOk res = false /\
        s' = {| manager := setPendingDeletes (delete requestId (pendingDeletes (manager s)))
                             (manager s);
                files := files s |}
      else if negb (String.eqb (Store.profileId pending) profileId)
              || negb (String.eqb (trim text) ("DELETE " ++ profileId)) then
        isOk res = false /\ s' = s
      else
        (isOk res = true /\
         pendingDeletes (manager s') = delete requestId (pendingDeletes (manager s))) \/
        (isOk res = false /\ pendingDeletes (manager s') = pendingDeletes (manager s))
  end.
Proof.
  unfold confirmDeleteProfile. unfold bindM at 1. unfold getManager at 1. unfold ok at 1.
  cbn beta iota.
  destruct (pendingDeletes (manager s) !! requestId) as [pending|] eqn:P; [|now cbn].
  destruct (Z.ltb_spec (expiresAt pending) now) as [X|X]; [now run_monad|].
  destruct (String.eqb_spec (Store.profileId pending) profileId) as [I|I]; [|now cbn].
  destruct (String.eqb_spec (trim text) ("DELETE " ++ profileId)) as [T|T]; [|now cbn].
  cbn [negb orb]. unfold bindM at 1. rewrite ensureLoaded_run.
  destruct (loadedConfig (manager s)) as [loaded|] eqn:L; [|now right].
  destruct (truthyOpt (activeProfileId (manager s))) eqn:A; [|now right].
  unfold bindM at 1. rewrite getProfile_run, ensureLoaded_run, L, A. cbn [fst].
  destruct (findProfile (profiles (config loaded)) profileId) as [profileToDelete|] eqn:F;
    [|now right].
  destruct (List.filter _ (profiles (config loaded))) as [|first rest] eqn:N; [now right|].
  unfold bindM at 1. rewrite getActiveProfileId_run, ensureLoaded_run, L, A. cbn [fst].
  unfold cloneRawConfig. unfold bindM at 1. unfold lift at 1.
  destruct (getRawProfiles (rawConfig loaded)) as [e|rawProfiles] eqn:R; [now right|].
  destruct (Nat.eqb_spec (length (List.filter (rawIdDiffers profileId) rawProfiles))
              (length rawProfiles)) as [Q|Q]; [now right|].
  unfold bindM at 1.
  match goal with
  | |- context [persistRawConfig ?e ?d ?p s] =>
      pose proof (persistRawConfig_pending e d p s) as K;
      destruct (persistRawConfig e d p s) as [[e1|[]] s1] eqn:E
  end; cbn [snd] in K.
  - right. split; [reflexivity | exact K].
  - left. run_monad. cbn. split; [reflexivity | now rewrite K].
Qed.

Lemma firstCandidate_preferred (ps : list ProfileDefinition) (x : string)
    (rest : list (option string)) :
  truthy x = true -> hasProfile ps x = true ->
  firstCandidate ps (Some x :: rest) = inr x.
Proof.
  intros T H. cbn [firstCandidate]. unfold truthyOpt. rewrite T. cbn [negb].
  change (default "" (Some x)) with x. now rewrite H.
Qed.

(** What a successful [persistRawConfig] leaves behind. *)
Lemma persistRawConfig_success (env : gmap string string) (rawConfig : obj)
    (preferred : string) (s s1 : Sys) :
  persistRawConfig env rawConfig (Some preferred) s = (inr tt, s1) ->
  exists current parsed active,
    loadedConfig (manager s) = Some current /\
    validateRawProfilesConfig env (files s) rawConfig (configPath (manager s)) = inr parsed /\
    loadedConfig (manager s1) =
      Some {| filePath := filePath current; format := format current;
              config := parsed; rawConfig := rawConfig |} /\
    activeProfileId (manager s1) = Some active /\
    (hasProfile (profiles parsed) preferred = true -> active = preferred) /\
    pendingDeletes (manager s1) = pendingDeletes (manager s) /\
    files s1 = <[filePath current := serializeRawConfig rawConfig (format current)]> (files s).
Proof.
  rewrite persistRawConfig_run, ensureLoaded_run. cbn [fst].
  destruct (loadedConfig (manager s)) as [current|]; [|discriminate].
  destruct (truthyOpt (activeProfileId (manager s))); [|discriminate].
  destruct (validateRawProfilesConfig _ _ _ _) as [e|parsed] eqn:V; [discriminate|].
  cbn zeta.
  destruct (pickActiveProfileId _ _ _) as [e|active] eqn:K; [discriminate|].
  intros [= <-]. exists current, parsed, active. cbn.
  repeat split; auto.
  intros H. destruct (validated _ _ _ _ _ V) as (_ & _ & T & _).
  unfold pickActiveProfileId in K. cbn [config] in K.
  rewrite (firstCandidate_preferred _ _ _ (hasProfile_truthy _ _ T H) H) in K.
  now injection K.
Qed.

(** C1, as amended. [confirmDeleteProfile] fails, and leaves the
    document and the file system as they are, whenever the confirmation
    text without its surrounding white space is not the literal
    [DELETE <id>]; when it succeeds, the trimmed text is that literal, and
    the items with this id are gone from the profiles of the document,
    which is shorter and is what the configuration file now holds. *)
Theorem confirm_requires_literal (env : gmap string string) (now : Z)
    (requestId profileId text : string) (s : Sys) :
  let '(res, s') := confirmDeleteProfile env now requestId profileId text s in
  (trim text <> "DELETE " ++ profileId ->
   isOk res = false /\ files s' = files s /\
   loadedConfig (manager s') = loadedConfig (manager s)) /\
  (forall v,
      res = inr v ->
      trim text = "DELETE " ++ profileId /\
      Confirmed.deletedProfileId v = profileId /\
      exists loaded loaded' rawProfiles,
        loadedConfig (manager s) = Some loaded /\
        loadedConfig (manager s') = Some loaded' /\
        getRawProfiles (rawConfig loaded) = inr rawProfiles /\
        getRawProfiles (rawConfig loaded') =
          inr (List.filter (rawIdDiffers profileId) rawProfiles) /\
        (length (List.filter (rawIdDiffers profileId) rawProfiles) < length rawProfiles)%nat /\
        files s' !! filePath loaded = Some (serializeRawConfig (rawConfig loaded') (format loaded))).
Proof.
  pose proof (confirm_effect env now requestId profileId text s) as Eff.
  pose proof (confirm_success env now requestId profileId text s) as Suc.
  destruct (confirmDeleteProfile env now requestId profileId text s) as [res s']. split.
  - intros N. destruct (pendingDeletes (manager s) !! requestId) as [pending|].
    + destruct (expiresAt pending <? now).
      * destruct Eff as [F ->]. auto.
      * destruct (String.eqb_spec (trim text) ("DELETE " ++ profileId)); [contradiction|].
        rewrite orb_true_r in Eff. destruct Eff as [F ->]. auto.
    + destruct Eff as [F ->]. auto.
  - intros v ->. clear Eff.
    destruct (Suc s' v eq_refl)
      as (pending & loaded & gone & first & rest & rawProfiles & s1
          & P & X & I & T & L & A & F & N & R & Q & E & -> & ->).
    cbn zeta in E. apply persistRawConfig_success in E
      as (current & parsed & active & L' & V & L1 & A1 & _ & P1 & D1).
    rewrite L in L'. injection L' as <-.
    split; [exact T|]. split; [reflexivity|].
    eexists loaded, _, rawProfiles. cbn [manager files loadedConfig setPendingDeletes].
    repeat split; [exact L | exact L1 | exact R | | | ].
    + cbn [rawConfig]. unfold getRawProfiles.
      rewrite getProp_setProp_ne by discriminate. apply getRawProfiles_store.
    + pose proof (List.filter_length_le (rawIdDiffers profileId) rawProfiles). lia.
    + rewrite D1. cbn [rawConfig]. apply lookup_insert_eq.
Qed.


(** [backupCurrentConfig], step by step: the copy is the one write, and
    only [chmod] can fail after it. *)
Lemma backupCurrentConfig_run (clock : Z) (reason : string) (s : Sys) :
  backupCurrentConfig clock reason s =
  let backupDir := resolve (dirname (configPath (manager s))) ".ssh-mcp-backups" in
  let backupPath :=
    resolve backupDir
      (basename (configPath (manager s)) ++ "." ++ dashStamp (toISOString clock) ++ "."
       ++ sanitizeBackupReason reason ++ ".bak") in
  match mkdirError backupDir with
  | Some e => (inl e, s)
  | None =>
      if startsWith (relative backupDir backupPath) ".."
         || isAbsolute (relative backupDir backupPath)
      then (inl "Backup path escaped backup directory", s)
      else
        match readFile (files s) (configPath (manager s)) with
        | inl e => (inl e, s)
        | inr content =>
            let s1 := {| manager := manager s;
                         files := <[backupPath := content]> (files s) |} in
            if isWin32 then (inr backupPath, s1)
            else
              match chmodError backupPath with
              | Some e => (inl e, s1)
              | None => (inr backupPath, s1)
              end
        end
  end.
Proof.
  unfold backupCurrentConfig, mkdir, chmod, bindM, getManager, getFiles, putFiles, lift,
    ret, raise, throw, ok.
  cbv beta zeta.
  destruct (mkdirError _) as [e|]; [reflexivity|]. cbv beta iota.
  destruct (_ || _); [reflexivity|]. cbv beta iota.
  destruct (readFile (files s) (configPath (manager s))) as [e|content]; [reflexivity|].
  cbv beta iota.
  destruct isWin32; [reflexivity|].
  destruct (chmodError _); reflexivity.
Qed.

Lemma backupCurrentConfig_manager (clock : Z) (reason : string) (s : Sys) :
  manager (snd (backupCurrentConfig clock reason s)) = manager s.
Proof.
  rewrite backupCurrentConfig_run. cbv zeta.
  destruct (mkdirError _); [reflexivity|].
  destruct (_ || _); [reflexivity|].
  destruct (readFile _ _); [reflexivity|].
  destruct isWin32; [reflexivity|].
  now destruct (chmodError _).
Qed.


(** *** Which methods touch the store of pending requests *)

Lemma keeps_bind {A B} (untouched : string -> Prop) (m : M A) (k : A -> M B) :
  keepsRequests untouched m ->
  (forall a, keepsRequests untouched (k a)) ->
  keepsRequests untouched (bindM m k).
Proof.
  intros Hm Hk s r U. unfold bindM.
  specialize (Hm s r U). destruct (m s) as [[e|a] s0]; cbn [snd] in *.
  - exact Hm.
  - rewrite (Hk a s0 r U). exact Hm.
Qed.

Lemma keeps_pure {A} (untouched : string -> Prop) (m : M A) :
  (forall s, manager (snd (m s)) = manager s) -> keepsRequests untouched m.
Proof. intros H s r _. now rewrite H. Qed.

Lemma keeps_modify (untouched : string -> Prop) (f : ProfileManager -> ProfileManager) :
  (forall this, pendingDeletes (f this) = pendingDeletes this) ->
  keepsRequests untouched (modifyManager f).
Proof. intros H s r _. cbn. now rewrite H. Qed.


Ltac keeps_step :=
  cbv beta zeta;
  first
    [ apply keeps_bind; [|intros ?]
    | apply keeps_modify; intros ?; reflexivity
    | apply keeps_pure; intros ?; reflexivity
    | match goal with
      | |- keepsRequests _ (match ?x with _ => _ end) => destruct x
      end ].

Ltac keeps := repeat keeps_step.

Lemma ensureLoaded_keeps (untouched : string -> Prop) :
  keepsRequests untouched ensureLoaded.
Proof. unfold ensureLoaded. keeps. Qed.

Lemma getProfile_keeps (untouched : string -> Prop) (profileId : string) :
  keepsRequests untouched (getProfile profileId).
Proof. unfold getProfile. keeps; apply ensureLoaded_keeps. Qed.

Lemma getActiveProfileId_keeps (untouched : string -> Prop) :
  keepsRequests untouched getActiveProfileId.
Proof. unfold getActiveProfileId. keeps; apply ensureLoaded_keeps. Qed.

Lemma listProfiles_keeps (untouched : string -> Prop) :
  keepsRequests untouched listProfiles.
Proof. unfold listProfiles. keeps; apply ensureLoaded_keeps. Qed.

Lemma persistRawConfig_keeps (untouched : string -> Prop) (env : gmap string string)
    (rawConfig : obj) (preferred : option string) :
  keepsRequests untouched (persistRawConfig env rawConfig preferred).
Proof. unfold persistRawConfig. keeps; apply ensureLoaded_keeps. Qed.

Create HintDb keeps.

#[local] Hint Resolve ensureLoaded_keeps getProfile_keeps getActiveProfileId_keeps
  listProfiles_keeps persistRawConfig_keeps : keeps.









(** [createProfile], outcome by outcome: the store is as it was unless the
    document has passed the validation, and then the configuration file
    holds that document. *)
Lemma createProfile_effect (env : gmap string string) (input : CreateInput.t) (s : Sys) :
  let '(res, s') := createProfile env input s in
  match fst (ensureLoaded s) with
  | inl _ => isOk res = false /\ s' = s
  | inr loaded =>
      match findProfile (profiles (config loaded)) (CreateInput.id input) with
      | Some _ => isOk res = false /\ s' = s
      | None =>
          match profileSchema (candidateProfile input) with
          | inl _ => isOk res = false /\ s' = s
          | inr parsed =>
              match appendRawProfile (rawConfig loaded) input (note parsed) with
              | inl _ => isOk res = false /\ s' = s
              | inr doc =>
                  match validateRawProfilesConfig env (files s) doc
                          (configPath (manager s)) with
                  | inl _ => isOk res = false /\ s' = s
                  | inr _ =>
                      files s' =
                        <[filePath loaded := serializeRawConfig doc (format loaded)]> (files s)
                  end
              end
          end
      end
  end.
Proof.
  unfold createProfile. unfold bindM at 1. rewrite ensureLoaded_run. cbn [fst].
  destruct (loadedConfig (manager s)) as [loaded|] eqn:L; [|now cbn].
  destruct (truthyOpt (activeProfileId (manager s))) eqn:A; [|now cbn].
  unfold bindM at 1. unfold getProfileMaybe. unfold bindM at 1. rewrite ensureLoaded_run, L, A.
  unfold ret at 1. cbn beta iota.
  destruct (findProfile _ _); [now cbn|].
  unfold bindM at 1, lift at 1.
  destruct (profileSchema (candidateProfile input)) as [e|parsed]; [now cbn|].
  unfold bindM at 1, lift at 1.
  destruct (appendRawProfile _ _ _) as [e|doc]; [now cbn|].
  unfold bindM at 1, getManager at 1. unfold ok. cbn beta iota.
  unfold bindM at 1.
  match goal with
  | |- context [persistRawConfig ?e ?d ?p s] =>
      pose proof (persistRawConfig_run e d p s) as R;
      destruct (persistRawConfig e d p s) as [[e1|[]] s1]
  end; rewrite ensureLoaded_run, L, A in R; cbn [fst] in R;
    destruct (validateRawProfilesConfig _ _ _ _) as [e2|cfg]; try discriminate R;
    cbn zeta in R.
  - now injection R as -> ->.
  - destruct (pickActiveProfileId _ _ _); [|discriminate R].
    now injection R as -> ->.
  - destruct (pickActiveProfileId _ _ _); [discriminate R|].
    injection R as ->.
    unfold bindM at 1. rewrite getProfile_run.
    match goal with |- context [match ?x with inl _ => _ | inr _ => _ end] =>
      destruct x end; [reflexivity|].
    unfold bindM at 1. rewrite getActiveProfileId_run.
    match goal with |- context [match ?x with inl _ => _ | inr _ => _ end] =>
      destruct x end; reflexivity.
Qed.

(** C7. [createProfile] rejects, and leaves the manager and the file
    system as they were, when the id is the id of an existing profile,
    when the candidate fails the profile schema, and when the extended
    document fails the validation; a document passes the validation only
    if the key path of every key-auth profile exists, which is what
    [access] tests. If the file system has changed at all, the extended
    document had passed the validation, and it is what the configuration
    file holds. *)
Theorem createProfile_validates_before_write (env : gmap string string)
    (input : CreateInput.t) (s : Sys) :
  let '(res, s') := createProfile env input s in
  (forall loaded,
      loadedConfig (manager s) = Some loaded ->
      hasProfile (profiles (config loaded)) (CreateInput.id input) = true ->
      isOk res = false /\ s' = s) /\
  (isOk (profileSchema (candidateProfile input)) = false -> isOk res = false /\ s' = s) /\
  (forall loaded parsed doc,
      loadedConfig (manager s) = Some loaded ->
      profileSchema (candidateProfile input) = inr parsed ->
      appendRawProfile (rawConfig loaded) input (note parsed) = inr doc ->
      isOk (validateRawProfilesConfig env (files s) doc (configPath (manager s))) = false ->
      isOk res = false /\ s' = s) /\
  (forall doc cfg,
      validateRawProfilesConfig env (files s) doc (configPath (manager s)) = inr cfg ->
      forall p keyPath,
        In p (profiles cfg) -> auth p = KeyAuth keyPath ->
        access (files s) (resolveKeyPath keyPath (configPath (manager s))) = true) /\
  (files s' <> files s ->
   exists loaded parsed doc cfg,
     loadedConfig (manager s) = Some loaded /\
     hasProfile (profiles (config loaded)) (CreateInput.id input) = false /\
     profileSchema (candidateProfile input) = inr parsed /\
     appendRawProfile (rawConfig loaded) input (note parsed) = inr doc /\
     validateRawProfilesConfig env (files s) doc (configPath (manager s)) = inr cfg /\
     files s' = <[filePath loaded := serializeRawConfig doc (format loaded)]> (files s)).
Proof.
  pose proof (createProfile_effect env input s) as Eff.
  destruct (createProfile env input s) as [res s'].
  rewrite ensureLoaded_run in Eff. cbn [fst] in Eff.
  split; [|split; [|split; [|split]]].
  - intros loaded L D. rewrite L in Eff. apply hasProfile_find in D.
    destruct (truthyOpt _); [|tauto].
    destruct (findProfile _ _); [tauto | contradiction].
  - destruct (loadedConfig (manager s)); [|tauto]. destruct (truthyOpt _); [|tauto].
    destruct (findProfile _ _); [tauto|].
    destruct (profileSchema _); [tauto | discriminate].
  - intros loaded parsed doc L S D V. rewrite L in Eff.
    destruct (truthyOpt _); [|tauto]. destruct (findProfile _ _); [tauto|].
    rewrite S, D in Eff.
    destruct (validateRawProfilesConfig _ _ _ _); [tauto | discriminate].
  - intros doc cfg V. exact (proj2 (proj2 (proj2 (validated _ _ _ _ _ V)))).
  - intros Changed.
    destruct (loadedConfig (manager s)) as [loaded|]; [|destruct Eff as [_ ->]; contradiction].
    destruct (truthyOpt _); [|destruct Eff as [_ ->]; contradiction].
    destruct (findProfile _ _) eqn:F; [destruct Eff as [_ ->]; contradiction|].
    destruct (profileSchema _) as [|parsed] eqn:S; [destruct Eff as [_ ->]; contradiction|].
    destruct (appendRawProfile _ _ _) as [|doc] eqn:D0;
      [destruct Eff as [_ ->]; contradiction|].
    destruct (validateRawProfilesConfig _ _ _ _) as [|cfg] eqn:V;
      [destruct Eff as [_ ->]; contradiction|].
    exists loaded, parsed, doc, cfg. repeat split; auto.
    destruct (hasProfile _ _) eqn:D; [|reflexivity].
    apply hasProfile_find in D. contradiction.
Qed.

End Persist.

Import StoreScenario.

(** The request of the scenario is pending, bound to [gamma], until
    601000. *)
Example request_is_pending :
  prepareDeleteProfile (platform := posix) 1000 1000 "req-1" "gamma" onGamma
  = (inr preparedResult, prepared) /\
  pendingDeletes (manager prepared) !! "req-1" =
  Some {| requestId := "req-1"; Store.profileId := "gamma";
          backupPath := Prepared.backupPath preparedResult;
          createdAt := 1000; expiresAt := 601000 |}.
Proof. split; vm_compute; reflexivity. Qed.

(** C1 as stated fails: a confirmation text that is the literal between
    two spaces is accepted, and the profile is deleted. *)
Lemma padded_confirmation_accepted :
  " DELETE gamma " <> "DELETE " ++ "gamma" /\
  (do v <- fst (confirmDeleteProfile (platform := posix) ∅ 2000 "req-1" "gamma"
                  " DELETE gamma " prepared);
   ok (Confirmed.deletedProfileId v))
  = inr "gamma".
Proof. split; [discriminate | vm_compute; reflexivity]. Qed.

Lemma confirm_requires_literal_witness :
  isOk (fst (confirmDeleteProfile (platform := posix) ∅ 2000 "req-1" "gamma"
               "DELETE alpha" prepared)) = false /\
  files (snd (confirmDeleteProfile (platform := posix) ∅ 2000 "req-1" "gamma"
                "DELETE alpha" prepared)) = files prepared.
Proof.
  pose proof (confirm_requires_literal (platform := posix) ∅ 2000 "req-1" "gamma"
                "DELETE alpha" prepared) as H.
  destruct (confirmDeleteProfile _ _ _ _ _ _) as [res s'].
  destruct H as [H _]. destruct H as (F & D & _).
  - vm_compute. discriminate.
  - split; assumption.
Defined.


(** A persisted active profile written as a reference to the
    environment: [${ACTIVE}] stands for [beta], which stays; deleting
    [gamma] all the same replaces the reference by [alpha] in the
    document, while the runtime active id stays [beta]. *)
Example reference_is_replaced :
  option_map (fun loaded => activeProfile (config loaded))
    (loadedConfig (manager envPrepared)) = Some "beta" /\
  activeProfileId (manager envPrepared) = Some "beta" /\
  (do v <- fst (confirmDeleteProfile (platform := posix) activeIsBeta 2000 "req-1" "gamma"
                  "DELETE gamma" envPrepared);
   ok (Confirmed.activeProfile v, Confirmed.persistedActiveProfile v))
  = inr ("beta", "alpha") /\
  (let after := snd (confirmDeleteProfile (platform := posix) activeIsBeta 2000 "req-1" "gamma"
                       "DELETE gamma" envPrepared) in
   option_map (fun loaded => (getProp "activeProfile" (rawConfig loaded),
                              activeProfile (config loaded),
                              map id (profiles (config loaded))))
     (loadedConfig (manager after))
   = Some (Some (JStr "alpha"), "alpha", ["alpha"; "beta"])).
Proof. repeat split; vm_compute; reflexivity. Qed.


(** The test of the repository: a key file that does not exist. *)
Example broken_key_rejected :
  createProfile (platform := posix) ∅ brokenKeyInput ready
  = (inl ("Profile " ++ quoted "broken-key-profile"
          ++ " keyPath does not exist: /etc/ssh-mcp/./keys/not-exists"), ready).
Proof. vm_compute. reflexivity. Qed.

Lemma createProfile_validates_before_write_witness :
  isOk (fst (createProfile (platform := posix) ∅ duplicateInput ready)) = false /\
  snd (createProfile (platform := posix) ∅ duplicateInput ready) = ready.
Proof.
  pose proof (createProfile_validates_before_write (platform := posix) ∅ duplicateInput ready)
    as H.
  destruct (createProfile _ _ _) as [res s'].
  destruct H as [H _].
  destruct (loadedConfig (manager ready)) as [loaded|] eqn:L;
    [|vm_compute in L; discriminate L].
  apply (H loaded eq_refl).
  vm_compute in L. injection L as <-. vm_compute. reflexivity.
Defined.


(** After the failed attempt, the request is confirmed at the last instant
    of its window. *)
Example confirmed_at_the_end_of_the_window :
  (let afterFailure :=
     snd (confirmDeleteProfile (platform := posix) ∅ 2000 "req-1" "gamma"
            "DELETE alpha" prepared) in
   do v <- fst (confirmDeleteProfile (platform := posix) ∅ 601000 "req-1" "gamma"
                  "DELETE gamma" afterFailure);
   ok (Confirmed.deletedProfileId v))
  = inr "gamma" /\
  isOk (fst (confirmDeleteProfile (platform := posix) ∅ 601001 "req-1" "gamma"
               "DELETE gamma" prepared)) = false.
Proof. split; vm_compute; reflexivity. Qed.

End StoreFacts.

(** ** Lemmas on strings *)
Module TextLemmas.
Import JsString JsStringFacts JsValue Chars.

Lemma length_app (a b : string) :
  String.length (a ++ b) = (String.length a + String.length b)%nat.
Proof. induction a as [|c a IH]; [reflexivity|]. rewrite append_cons. cbn. now rewrite IH. Qed.

Lemma length_snoc (a : string) (c : ascii) :
  String.length (a ++ String c "") = S (String.length a).
Proof. rewrite length_app. cbn. lia. Qed.

Lemma trimStart_idem (s : string) : trimStart (trimStart s) = trimStart s.
Proof.
  induction s as [|c r IH]; [reflexivity|].
  cbn [trimStart]. destruct (isWhiteSpace c) eqn:W; [exact IH|].
  cbn [trimStart]. now rewrite W.
Qed.

Lemma trimEnd_cons (c : ascii) (r : string) :
  trimEnd (String c r) =
  if String.eqb (trimEnd r) "" then (if isWhiteSpace c then "" else String c "")
  else String c (trimEnd r).
Proof. cbn [trimEnd]. now destruct (trimEnd r). Qed.

Lemma trimEnd_idem (s : string) : trimEnd (trimEnd s) = trimEnd s.
Proof.
  induction s as [|c r IH]; [reflexivity|].
  rewrite trimEnd_cons. destruct (String.eqb_spec (trimEnd r) "") as [E|E].
  - destruct (isWhiteSpace c) eqn:W; [reflexivity|].
    rewrite trimEnd_cons. cbn [trimEnd String.eqb]. now rewrite W.
  - rewrite trimEnd_cons, IH. now destruct (String.eqb_spec (trimEnd r) "").
Qed.

Lemma trimEnd_empty_trimStart (s : string) : trimEnd s = "" -> trimStart s = "".
Proof.
  induction s as [|c r IH]; [reflexivity|].
  rewrite trimEnd_cons. destruct (String.eqb_spec (trimEnd r) "") as [E|E]; [|discriminate].
  destruct (isWhiteSpace c) eqn:W; [|discriminate].
  intros _. cbn [trimStart]. rewrite W. now apply IH.
Qed.

Lemma trimStart_trimEnd (s : string) : trimStart (trimEnd s) = trimEnd (trimStart s).
Proof.
  induction s as [|c r IH]; [reflexivity|].
  cbn [trimStart]. destruct (isWhiteSpace c) eqn:W.
  - rewrite trimEnd_cons, W. destruct (String.eqb_spec (trimEnd r) "") as [E|E].
    + now rewrite (trimEnd_empty_trimStart _ E).
    + cbn [trimStart]. now rewrite W.
  - rewrite trimEnd_cons, W.
    destruct (String.eqb (trimEnd r) ""); cbn [trimStart]; now rewrite W.
Qed.

Lemma trim_idem (s : string) : trim (trim s) = trim s.
Proof.
  unfold trim. now rewrite trimStart_trimEnd, trimStart_idem, trimEnd_idem.
Qed.

(** A string that starts with a character that is not white space keeps
    it through [trim]. *)
Lemma trim_keeps_head (c : ascii) (r : string) :
  isWhiteSpace c = false -> exists r', trim (String c r) = String c r'.
Proof.
  intros W. unfold trim. cbn [trimStart]. rewrite W, trimEnd_cons.
  destruct (String.eqb (trimEnd r) ""); rewrite ?W; eauto.
Qed.

Lemma substring_prefix (a b : string) : substring 0 (String.length a) (a ++ b) = a.
Proof.
  induction a as [|c a IH]; [now destruct b|].
  rewrite append_cons. cbn. now rewrite IH.
Qed.

Lemma substring_all (a : string) : substring 0 (String.length a) a = a.
Proof. induction a as [|c a IH]; [reflexivity|]. cbn. now rewrite IH. Qed.

Lemma substring_skip (a b : string) (n m : nat) :
  substring (String.length a + n) m (a ++ b) = substring n m b.
Proof. induction a as [|c a IH]; [reflexivity|]. rewrite append_cons. cbn. exact IH. Qed.

Lemma allChars_app (p : ascii -> bool) (a b : string) :
  allChars p (a ++ b) = allChars p a && allChars p b.
Proof.
  induction a as [|c a IH]; [reflexivity|].
  rewrite append_cons. cbn [allChars]. now rewrite IH, andb_assoc.
Qed.

End TextLemmas.

(** ** Command and command-line helpers *)
Module UtilsFacts.
Import JsString JsStringFacts TextLemmas Res Types JsValue CommandUtils Args.

(** *** [sanitizeCommand] and [parseMaxChars] *)

(** X1. [sanitizeCommand] returns the command without its surrounding white
    space, which is not empty and within the limit; a command that has
    passed passes again, unchanged. A command of white space only is
    rejected. *)
Theorem sanitizeCommand_result (command : string) (maxChars : Limit) :
  (forall cmd,
      sanitizeCommand command maxChars = inr cmd ->
      cmd = trim command /\ cmd <> "" /\ trim cmd = cmd /\
      (forall n, maxChars = Chars n -> Z.of_nat (String.length cmd) <= n) /\
      sanitizeCommand cmd maxChars = inr cmd) /\
  (trim command = "" -> sanitizeCommand command maxChars = inl "Command cannot be empty").
Proof.
  split.
  - unfold sanitizeCommand. intros cmd H.
    destruct (truthy (trim command)) eqn:T; [|discriminate]. cbn [negb] in H.
    assert (R : cmd = trim command /\
                (forall n, maxChars = Chars n -> Z.of_nat (String.length cmd) <= n)).
    { destruct maxChars as [|n].
      - injection H as <-. split; [reflexivity | discriminate].
      - destruct (Z.ltb_spec n (Z.of_nat (String.length (trim command)))); [discriminate|].
        injection H as <-. split; [reflexivity|]. intros ? [= <-]. assumption. }
    destruct R as [-> B].
    split; [reflexivity|]. split; [now apply truthy_nonempty|].
    split; [apply trim_idem|]. split; [exact B|].
    rewrite trim_idem, T. cbn [negb]. exact H.
  - intros E. unfold sanitizeCommand. now rewrite E.
Qed.

Lemma sanitizeCommand_result_witness :
  sanitizeCommand "  uname -a  " (Chars 1000) = inr "uname -a" /\
  sanitizeCommand "uname -a" (Chars 1000) = inr "uname -a".
Proof.
  destruct (sanitizeCommand_result "  uname -a  " (Chars 1000)) as [H _].
  destruct (H "uname -a") as (_ & _ & _ & _ & R); [vm_compute; reflexivity|].
  split; [vm_compute; reflexivity | exact R].
Defined.

Lemma floor_inject_Z (n : Z) : floor (inject_Z n) = n.
Proof. unfold floor, inject_Z. cbn. apply Z.div_1_r. Qed.

Lemma floor_nonneg (q : Q) : Qle_bool q 0 = false -> 0 <= floor q.
Proof.
  intros H. unfold floor. apply Z.div_pos; [|lia].
  destruct (Z.lt_ge_cases (Qnum q) 0) as [N|N]; [|lia].
  assert (Qle_bool q 0 = true); [|congruence].
  apply Qle_bool_iff. unfold Qle. cbn. lia.
Qed.

Lemma floor_fraction (q : Q) : (0 < q)%Q -> (q < 1)%Q -> floor q = 0.
Proof.
  unfold Qlt, floor. cbn. intros P L. apply Z.div_small. lia.
Qed.

(** X2. [parseMaxChars] never returns a negative limit. From a string it
    returns no limit, the fallback, or a limit of at least one
    character. A number strictly between 0 and 1 gives the limit 0, and
    under that limit [sanitizeCommand] rejects every command. *)
Theorem parseMaxChars_range (fallback : Limit) :
  (forall v n,
      parseMaxChars v fallback = Chars n -> Chars n = fallback \/ 0 <= n) /\
  (forall s n,
      parseMaxChars (VString s) fallback = Chars n -> Chars n = fallback \/ 1 <= n) /\
  (forall q,
      (0 < q)%Q -> (q < 1)%Q ->
      parseMaxChars (VNumber (Finite q)) fallback = Chars 0) /\
  (forall command, isOk (sanitizeCommand command (Chars 0)) = false).
Proof.
  assert (S : forall s n,
             parseMaxChars (VString s) fallback = Chars n -> Chars n = fallback \/ 1 <= n).
  { intros s n. cbn [parseMaxChars].
    destruct (String.eqb _ "none"); [discriminate|].
    destruct (parseInt10 _) as [parsed|]; [|now left].
    destruct (Z.leb_spec parsed 0); [discriminate|].
    intros [= <-]. right. lia. }
  split; [|split; [exact S|split]].
  - intros v n. destruct v as [| |num|s|]; cbn [parseMaxChars]; try (now left).
    + destruct num as [q| | |]; try (now left).
      destruct (Qle_bool q 0) eqn:L; [discriminate|].
      intros [= <-]. right. now apply floor_nonneg.
    + intros H. destruct (S s n H); [now left | right; lia].
  - intros q P L. cbn [parseMaxChars].
    destruct (Qle_bool q 0) eqn:B.
    + apply Qle_bool_iff in B. exfalso. exact (Qlt_not_le _ _ P B).
    + now rewrite (floor_fraction q P L).
  - intros command. unfold sanitizeCommand.
    destruct (truthy (trim command)) eqn:T; [|reflexivity]. cbn [negb].
    destruct (Z.ltb_spec 0 (Z.of_nat (String.length (trim command)))); [reflexivity|].
    destruct (trim command); [discriminate T | cbn [String.length] in *; lia].
Qed.

Lemma parseMaxChars_range_witness :
  parseMaxChars (VNumber (Finite (1 # 2))) DEFAULT_MAX_CHARS = Chars 0.
Proof.
  destruct (parseMaxChars_range DEFAULT_MAX_CHARS) as (_ & _ & H & _).
  apply H; reflexivity.
Defined.

(** *** Quoting for the shell *)

Lemma split_nonempty (c : ascii) (s : string) : split c s <> [].
Proof.
  destruct s as [|a r]; [discriminate|]. cbn [split].
  destruct (Ascii.eqb a c); [discriminate|]. now destruct (split c r).
Qed.

Lemma join_cons (sep x : string) (l : list string) :
  l <> [] -> join sep (x :: l) = x ++ sep ++ join sep l.
Proof. destruct l; [contradiction | reflexivity]. Qed.

Lemma join_head (sep : string) (a : ascii) (x : string) (l : list string) :
  join sep (String a x :: l) = String a (join sep (x :: l)).
Proof. destruct l; reflexivity. Qed.

Lemma join_split (c : ascii) (s : string) : join (String c "") (split c s) = s.
Proof.
  induction s as [|a r IH]; [reflexivity|]. cbn [split].
  destruct (Ascii.eqb_spec a c) as [->|N].
  - rewrite join_cons by apply split_nonempty. rewrite IH. reflexivity.
  - pose proof (split_nonempty c r) as NE.
    destruct (split c r) as [|l ls]; [contradiction|].
    rewrite join_head. now rewrite IH.
Qed.

Lemma split_free (c : ascii) (s : string) :
  Forall (fun seg => indexOf c seg = None) (split c s).
Proof.
  induction s as [|a r IH]; [repeat constructor|]. cbn [split].
  destruct (Ascii.eqb_spec a c) as [->|N].
  - constructor; [reflexivity | exact IH].
  - destruct (split c r) as [|l ls]; [repeat constructor|].
    + cbn [indexOf]. now destruct (Ascii.eqb_spec a c).
    + inversion IH as [|? ? H T]; subst. constructor; [|exact T].
      cbn [indexOf]. destruct (Ascii.eqb_spec a c); [contradiction|]. now rewrite H.
Qed.

(** Replacing every [q] by [q mid q], and putting the result between two
    [q], gives the segments of the text between its [q]s, each between
    two [q], joined by [mid]. *)
Lemma quote_segments (q : ascii) (mid : string) (s : string) :
  String q (replaceChar q (String q (mid ++ String q "")) s ++ String q "")
  = join mid (map (fun seg => String q (seg ++ String q "")) (split q s)).
Proof.
  induction s as [|a r IH]; [reflexivity|]. cbn [split replaceChar].
  destruct (Ascii.eqb_spec a q) as [->|N].
  - cbn [map]. rewrite join_cons.
    2:{ pose proof (split_nonempty q r). now destruct (split q r). }
    rewrite <- IH. rewrite !append_cons, !append_assoc, !append_cons. reflexivity.
  - pose proof (split_nonempty q r) as NE.
    destruct (split q r) as [|l ls]; [contradiction|].
    cbn [map] in *. rewrite join_head in IH. injection IH as IH.
    rewrite !append_cons, !join_head. now rewrite IH.
Qed.

(** X3. The command escaped by [escapeCommandForShell] and put between
    single quotes is a sequence of single-quoted segments that hold no
    single quote, separated by a single quote between double quotes;
    the segments, with a single quote between them, are the command. *)
Theorem escapeCommandForShell_segments (command : string) :
  let segments := split singleQuote command in
  Forall (fun seg => indexOf singleQuote seg = None) segments /\
  join (String singleQuote "") segments = command /\
  singleQuoted (escapeCommandForShell command)
  = join (String doubleQuote (String singleQuote (String doubleQuote "")))
      (map singleQuoted segments).
Proof.
  cbn zeta. split; [apply split_free|]. split; [apply join_split|].
  unfold singleQuoted, escapeCommandForShell, quoteBreak.
  rewrite append_cons.
  exact (quote_segments singleQuote
           (String doubleQuote (String singleQuote (String doubleQuote ""))) command).
Qed.

(** *** [parsePositiveInt] *)

Lemma digit_not_space (c : ascii) : isDigit c = true -> isWhiteSpace c = false.
Proof.
  unfold isDigit, isWhiteSpace. cbv zeta. intros H.
  apply andb_true_iff in H as [L U]. apply N.leb_le in L. apply N.leb_le in U.
  repeat (apply orb_false_iff; split); apply N.eqb_neq; lia.
Qed.

Lemma digit_not_sign (c : ascii) :
  isDigit c = true -> c <> "-"%char /\ c <> "+"%char.
Proof. intros H. split; intros ->; discriminate H. Qed.

Lemma takeDigits_app (digits rest : string) :
  allDigits digits = true -> takeDigits rest = "" -> takeDigits (digits ++ rest) = digits.
Proof.
  intros A R. induction digits as [|c d IH]; [exact R|].
  cbn [allDigits] in A. apply andb_true_iff in A as [C A].
  rewrite append_cons. cbn [takeDigits]. rewrite C. now rewrite IH.
Qed.

Lemma digitsValue_nonneg (s : string) (acc : Z) :
  allDigits s = true -> 0 <= acc -> 0 <= digitsValue acc s.
Proof.
  revert acc. induction s as [|c r IH]; intros acc A P; [exact P|].
  cbn [allDigits] in A. apply andb_true_iff in A as [C A].
  cbn [digitsValue]. apply IH; [exact A|].
  unfold isDigit in C. cbv zeta in C. apply andb_true_iff in C as [L _].
  apply N.leb_le in L. lia.
Qed.

Lemma parseInt10_digits (digits rest : string) :
  digits <> "" -> allDigits digits = true -> takeDigits rest = "" ->
  parseInt10 (digits ++ rest) = Some (digitsValue 0 digits) /\
  parseInt10 ("-" ++ digits ++ rest) = Some (- digitsValue 0 digits).
Proof.
  intros NE A R. destruct digits as [|c d]; [contradiction|].
  pose proof A as A'. cbn [allDigits] in A'. apply andb_true_iff in A' as [C _].
  pose proof (digit_not_space c C) as W. destruct (digit_not_sign c C) as [M P].
  split.
  - unfold parseInt10. rewrite append_cons. cbn [trimStart]. rewrite W.
    rewrite <- append_cons.
    assert (E : (let '(sign, rest0) :=
                   match String c d ++ rest with
                   | String "-" r => (-1, r)
                   | String "+" r => (1, r)
                   | _ => (1, String c d ++ rest)
                   end in
                 if truthy (takeDigits rest0) then Some (sign * digitsValue 0 (takeDigits rest0))
                 else None)
                = Some (digitsValue 0 (String c d))).
    { rewrite append_cons.
      destruct c as [[] [] [] [] [] [] [] []]; try discriminate C;
        rewrite <- append_cons, (takeDigits_app _ _ A R); cbn [truthy String.eqb negb];
        f_equal; lia. }
    exact E.
  - unfold parseInt10. change ("-" ++ String c d ++ rest) with (String "-" (String c d ++ rest)).
    cbn [trimStart]. change (isWhiteSpace "-") with false. cbv iota.
    rewrite (takeDigits_app _ _ A R). cbn [truthy String.eqb negb]. f_equal; lia.
Qed.

Lemma parsePositiveInt_positive (input : option (option string)) (fallback : Z) :
  0 < fallback -> 0 < parsePositiveInt input fallback.
Proof.
  intros P. unfold parsePositiveInt.
  destruct input as [[s|]|]; try exact P.
  destruct (String.eqb (trim s) ""); [exact P|].
  destruct (parseInt10 s) as [parsed|]; [|exact P].
  destruct (Z.leb_spec parsed 0); [exact P | assumption].
Qed.

Lemma parsePositiveInt_prefix (digits rest : string) :
  digits <> "" -> allDigits digits = true -> takeDigits rest = "" ->
  (forall fallback,
      0 < digitsValue 0 digits ->
      parsePositiveInt (Some (Some (digits ++ rest))) fallback = digitsValue 0 digits) /\
  (forall fallback,
      parsePositiveInt (Some (Some ("-" ++ digits ++ rest))) fallback = fallback).
Proof.
  intros NE A R. split; intros fallback.
  - intros V. unfold parsePositiveInt.
    destruct (parseInt10_digits digits rest NE A R) as [-> _].
    destruct digits as [|c d]; [contradiction|].
    pose proof A as A'. cbn [allDigits] in A'. apply andb_true_iff in A' as [C _].
    rewrite append_cons.
    destruct (trim_keeps_head c (d ++ rest) (digit_not_space c C)) as [r' ->].
    cbn [String.eqb]. destruct (Z.leb_spec (digitsValue 0 (String c d)) 0); [lia | reflexivity].
  - unfold parsePositiveInt.
    destruct (parseInt10_digits digits rest NE A R) as [_ ->].
    pose proof (digitsValue_nonneg digits 0 A (Z.le_refl 0)) as V.
    destruct (String.eqb _ ""); [reflexivity|].
    destruct (Z.leb_spec (- digitsValue 0 digits) 0); [reflexivity | lia].
Qed.

(** X4. [parsePositiveInt] returns a positive number whenever its fallback
    is positive. It reads the digits at the start of the text and ignores
    what follows them, as long as they denote a number that a Number
    holds exactly, and a text that starts with a minus sign gives the
    fallback. *)
Theorem parsePositiveInt_reads_prefix (fallback : Z) :
  (forall input, 0 < fallback -> 0 < parsePositiveInt input fallback) /\
  (forall digits rest,
      digits <> "" -> allDigits digits = true -> takeDigits rest = "" ->
      0 < digitsValue 0 digits <= 2 ^ 53 ->
      parsePositiveInt (Some (Some (digits ++ rest))) fallback = digitsValue 0 digits) /\
  (forall digits rest,
      digits <> "" -> allDigits digits = true -> takeDigits rest = "" ->
      parsePositiveInt (Some (Some ("-" ++ digits ++ rest))) fallback = fallback).
Proof.
  split; [|split].
  - intros input. apply parsePositiveInt_positive.
  - intros digits rest NE A R [P _]. now apply parsePositiveInt_prefix.
  - intros digits rest NE A R. now apply parsePositiveInt_prefix.
Qed.

Lemma parsePositiveInt_reads_prefix_witness :
  parsePositiveInt (Some (Some "5000ms")) 60000 = 5000 /\
  parsePositiveInt (Some (Some "-5")) 60000 = 60000.
Proof.
  destruct (parsePositiveInt_reads_prefix 60000) as (_ & P & M). split.
  - apply (P "5000" "ms"); [discriminate | reflexivity | reflexivity | vm_compute; split; [reflexivity | discriminate]].
  - exact (M "5" "" ltac:(discriminate) eq_refl eq_refl).
Defined.

(** *** [parseArgv] *)

Lemma sliceFrom_app (a b : string) : sliceFrom (String.length a) (a ++ b) = b.
Proof.
  unfold sliceFrom. rewrite length_app.
  replace (String.length a + String.length b - String.length a)%nat
    with (String.length b) by lia.
  rewrite <- (Nat.add_0_r (String.length a)) at 1.
  rewrite substring_skip. apply substring_all.
Qed.

Lemma indexOf_app (c : ascii) (k v : string) :
  indexOf c k = None -> indexOf c (k ++ String c v) = Some (String.length k).
Proof.
  induction k as [|a k IH]; cbn [indexOf].
  - intros _. change (indexOf c (String c v) = Some 0%nat).
    cbn [indexOf]. now rewrite Ascii.eqb_refl.
  - destruct (Ascii.eqb a c) eqn:E; [discriminate|].
    destruct (indexOf c k); [discriminate|]. intros _.
    rewrite append_cons. cbn [indexOf]. rewrite E, IH by reflexivity. reflexivity.
Qed.

Lemma indexOf_none_app (c : ascii) (a b : string) :
  indexOf c a = None -> indexOf c b = None -> indexOf c (a ++ b) = None.
Proof.
  intros A B. induction a as [|x a IH]; [exact B|].
  cbn [indexOf] in A. destruct (Ascii.eqb x c) eqn:E; [discriminate|].
  destruct (indexOf c a); [discriminate|].
  rewrite append_cons. cbn [indexOf]. now rewrite E, IH.
Qed.

Lemma parseArgv_snoc (args : list string) (arg : string) :
  parseArgv (args ++ [arg])%list
  = own (parseArg (fold_left parseArg args {| own := ∅; nullProto := false |}) arg).
Proof. unfold parseArgv. now rewrite fold_left_app. Qed.

Lemma assign_own (key : string) (v : option string) (o : ArgvObject) :
  key <> "__proto__" -> own (assign key v o) = <[key := v]> (own o).
Proof.
  intros N. unfold assign. destruct (String.eqb_spec key "__proto__"); [contradiction|].
  reflexivity.
Qed.

(** X5. A later argument overrides an earlier one: [--key=value] sets the
    key to everything after the first equals sign, [--key] sets it to
    [null], and an argument that does not start with two dashes changes
    nothing. *)
Theorem parseArgv_last_wins (args : list string) (key : string) :
  key <> "__proto__" -> indexOf "=" key = None ->
  (forall value,
      parseArgv (args ++ [("--" ++ key ++ "=" ++ value)%string])%list
      = <[key := Some value]> (parseArgv args)) /\
  parseArgv (args ++ [("--" ++ key)%string])%list = <[key := None]> (parseArgv args) /\
  (forall arg, startsWith arg "--" = false -> parseArgv (args ++ [arg])%list = parseArgv args).
Proof.
  intros N F. split; [|split].
  - intros value. rewrite parseArgv_snoc. unfold parseArg.
    rewrite startsWith_app_self. cbn [negb].
    assert (I : indexOf "=" ("--" ++ key ++ "=" ++ value) = Some (2 + String.length key)%nat).
    { change ("--" ++ key ++ "=" ++ value) with (String "-" (String "-" (key ++ String "=" value))).
      cbn [indexOf Ascii.eqb Bool.eqb]. now rewrite (indexOf_app _ _ _ F). }
    rewrite I.
    assert (K : slice 2 (2 + String.length key) ("--" ++ key ++ "=" ++ value) = key).
    { unfold slice. replace (2 + String.length key - 2)%nat with (String.length key) by lia.
      exact (substring_prefix key ("=" ++ value)). }
    assert (V : sliceFrom (2 + String.length key + 1) ("--" ++ key ++ "=" ++ value) = value).
    { replace (2 + String.length key + 1)%nat with (String.length ("--" ++ key ++ "="))
        by (rewrite !length_app; cbn [String.length]; lia).
      replace ("--" ++ key ++ "=" ++ value) with (("--" ++ key ++ "=") ++ value)
        by (now rewrite !append_assoc).
      apply sliceFrom_app. }
    rewrite K, V. now apply assign_own.
  - rewrite parseArgv_snoc. unfold parseArg.
    rewrite startsWith_app_self. cbn [negb].
    assert (I : indexOf "=" ("--" ++ key) = None).
    { change ("--" ++ key) with (String "-" (String "-" key)).
      cbn [indexOf Ascii.eqb Bool.eqb]. now rewrite F. }
    rewrite I.
    assert (K : sliceFrom 2 ("--" ++ key) = key).
    { exact (sliceFrom_app "--" key). }
    rewrite K. now apply assign_own.
  - intros arg S. rewrite parseArgv_snoc. unfold parseArg. now rewrite S.
Qed.

Lemma parseArgv_last_wins_witness :
  parseArgv ["--timeout=100"; "positional"; "--timeout=a=b"] !! "timeout" = Some (Some "a=b").
Proof.
  destruct (parseArgv_last_wins ["--timeout=100"; "positional"] "timeout") as [H _];
    [discriminate | reflexivity |].
  change ["--timeout=100"; "positional"; "--timeout=a=b"]
    with (["--timeout=100"; "positional"] ++ [("--" ++ "timeout" ++ "=" ++ "a=b")%string])%list.
  rewrite H. apply lookup_insert_eq.
Defined.

(** *** Startup *)

Lemma normalizeOptionalString_some (v : option (option string)) (t : string) :
  normalizeOptionalString v = Some t <->
  exists s, v = Some (Some s) /\ t = trim s /\ trim s <> "".
Proof.
  unfold normalizeOptionalString. split.
  - destruct v as [[s|]|]; try discriminate.
    destruct (trim s) eqn:E; cbn [String.length Nat.ltb Nat.leb]; [discriminate|].
    intros [= <-]. exists s. rewrite E. now repeat split.
  - intros (s & -> & -> & N). destruct (trim s); [contradiction | reflexivity].
Qed.

Lemma hasLegacyTargetArgs_false (config : ArgvConfig) :
  hasLegacyTargetArgs config = false <->
  forall key, In key LEGACY_ARG_KEYS -> config !! key = None.
Proof.
  unfold hasLegacyTargetArgs. split.
  - intros H key I. destruct (config !! key) eqn:E; [|reflexivity].
    assert (existsb (fun key => bool_decide (is_Some (config !! key))) LEGACY_ARG_KEYS = true);
      [|congruence].
    apply existsb_exists. exists key. split; [exact I|].
    apply bool_decide_eq_true. rewrite E. eauto.
  - intros H. apply not_true_is_false. intros E.
    apply existsb_exists in E as (key & I & D).
    apply bool_decide_eq_true in D. rewrite (H key I) in D. now destruct D.
Qed.

(** X6. [determineStartupMode] succeeds exactly when [--config] holds a
    path that is not blank and none of the legacy target arguments is
    present, even without a value. The path is trimmed and resolved; a
    blank [--profile] gives no override. *)
Theorem determineStartupMode_accepts {platform : Platform} (cwd : string)
    (config : ArgvConfig) :
  (forall mode,
      determineStartupMode cwd config = inr mode ->
      (exists s,
          config !! "config" = Some (Some s) /\ trim s <> "" /\
          configPath mode = resolve cwd (trim s)) /\
      (forall key, In key LEGACY_ARG_KEYS -> config !! key = None) /\
      (forall p, profileIdOverride mode = Some p ->
                 exists s, config !! "profile" = Some (Some s) /\ p = trim s /\ p <> "")) /\
  (forall s,
      config !! "config" = Some (Some s) -> trim s <> "" ->
      (forall key, In key LEGACY_ARG_KEYS -> config !! key = None) ->
      isOk (determineStartupMode cwd config) = true).
Proof.
  unfold determineStartupMode, validateConfig. split.
  - intros mode H.
    destruct (normalizeOptionalString (config !! "config")) as [t|] eqn:C; [|discriminate].
    destruct (hasLegacyTargetArgs config) eqn:L; [discriminate|].
    cbn in H. injection H as <-. cbn [configPath profileIdOverride].
    apply normalizeOptionalString_some in C as (s & C & -> & N).
    split; [exists s; now repeat split|].
    split; [now apply hasLegacyTargetArgs_false|].
    intros p P. apply normalizeOptionalString_some in P as (s' & P & -> & N').
    exists s'. now repeat split.
  - intros s C N L.
    assert (E : normalizeOptionalString (config !! "config") = Some (trim s))
      by (apply normalizeOptionalString_some; exists s; now repeat split).
    rewrite E. apply hasLegacyTargetArgs_false in L. now rewrite L.
Qed.

Ltac schema_inv H :=
  repeat match type of H with
    | Res.bind ?r _ = inr _ =>
        let E := fresh "E" in
        destruct r eqn:E; [discriminate H|]; cbn [Res.bind] in H
    | (if ?b then _ else _) = inr _ =>
        let E := fresh "E" in
        destruct b eqn:E; try discriminate H
    end.

Lemma profileDefaultsSchema_timeout (v : Json.json) (d : ProfileDefaults) :
  profileDefaultsSchema v = inr d -> forall t, timeout d = Some t -> 0 < t.
Proof.
  unfold profileDefaultsSchema. intros H. schema_inv H. injection H as <-.
  cbn [timeout]. intros t ->.
  match goal with
  | E : optional positiveIntLike ?x = inr (Some t) |- _ =>
      destruct x as [j|]; [|discriminate E]; cbn [optional] in E;
      destruct (positiveIntLike j) as [|n] eqn:P; [discriminate E|];
      cbn in E; injection E as ->; unfold positiveIntLike in P
  end.
  schema_inv P. injection P as <-. now apply Z.ltb_lt.
Qed.

Lemma Qle_bool_inject_Z (n : Z) : Qle_bool (inject_Z n) 0 = (n <=? 0).
Proof.
  unfold Qle_bool, inject_Z. cbn. now rewrite Z.mul_1_r.
Qed.

(** X7. With the defaults of a validated document, or with none, the
    options resolved from the command line have a positive timeout and a
    limit that is none or positive; [--disableSudo] disables sudo
    whatever value comes with it; and a timeout given on the command line
    as positive digits that a Number holds exactly wins over the
    default. *)
Theorem resolveRuntimeOptions_sound (config : ArgvConfig)
    (defaults : option ProfileDefaults) :
  (forall d, defaults = Some d -> exists v, profileDefaultsSchema v = inr d) ->
  let r := resolveRuntimeOptions config defaults in
  0 < timeoutMs r /\
  (forall n, maxChars r = Chars n -> 0 < n) /\
  (is_Some (config !! "disableSudo") -> disableSudo r = true) /\
  (forall digits,
      config !! "timeout" = Some (Some digits) ->
      digits <> "" -> allDigits digits = true -> 0 < digitsValue 0 digits <= 2 ^ 53 ->
      timeoutMs r = digitsValue 0 digits).
Proof.
  intros D. cbn zeta. unfold resolveRuntimeOptions. cbn [timeoutMs maxChars disableSudo].
  split; [|split; [|split]].
  - apply parsePositiveInt_positive.
    destruct defaults as [d|]; [|reflexivity]. cbn.
    destruct (timeout d) as [t|] eqn:T; [|reflexivity]. cbn.
    destruct (D d eq_refl) as [v V]. exact (profileDefaultsSchema_timeout v d V t T).
  - intros n.
    assert (S : forall s, parseMaxChars (VString s) DEFAULT_MAX_CHARS = Chars n -> 0 < n).
    { intros s. cbn [parseMaxChars].
      destruct (String.eqb _ "none"); [discriminate|].
      destruct (parseInt10 _) as [parsed|]; [|intros [= <-]; reflexivity].
      destruct (Z.leb_spec parsed 0); [discriminate|]. now intros [= <-]. }
    destruct (config !! "maxChars") as [[s|]|]; [apply S| |].
    all: destruct defaults as [d|]; [|intros [= <-]; reflexivity]; cbn;
      destruct (Types.maxChars d) as [[|m]|]; cbn [maxCharsValue parseMaxChars];
      try (intros [= <-]; reflexivity); try discriminate;
      rewrite Qle_bool_inject_Z, floor_inject_Z;
      destruct (Z.leb_spec m 0); [discriminate|]; now intros [= <-].
  - intros [x ->]. reflexivity.
  - intros digits -> NE A [P _].
    destruct (parsePositiveInt_prefix digits "" NE A eq_refl) as [H _].
    rewrite append_empty_r in H. now apply H.
Qed.

Lemma resolveRuntimeOptions_sound_witness :
  let defaults := {| timeout := Some 120000; Types.maxChars := None;
                     Types.disableSudo := None |} in
  let r := resolveRuntimeOptions {[ "disableSudo" := Some "false" ]} (Some defaults) in
  0 < timeoutMs r /\ disableSudo r = true.
Proof.
  cbn zeta.
  destruct (resolveRuntimeOptions_sound {[ "disableSudo" := Some "false" ]}
              (Some {| timeout := Some 120000; Types.maxChars := None;
                       Types.disableSudo := None |}))
    as (T & _ & H & _).
  - intros d [= <-]. exists (Json.JObj [("timeout", Json.jint 120000)]).
    vm_compute. reflexivity.
  - split; [exact T|]. apply H. vm_compute. eauto.
Defined.

Lemma determineStartupMode_accepts_witness :
  isOk (determineStartupMode (platform := StoreScenario.posix) "/srv"
          {[ "config" := Some " ./profiles.yaml " ]}) = true.
Proof.
  destruct (determineStartupMode_accepts (platform := StoreScenario.posix) "/srv"
              {[ "config" := Some " ./profiles.yaml " ]}) as [_ H].
  apply (H " ./profiles.yaml ").
  - reflexivity.
  - vm_compute. discriminate.
  - intros key I. cbn in I.
    repeat (destruct I as [<-|I]; [reflexivity|]). destruct I.
Defined.

End UtilsFacts.

(** ** Expansion of environment variables *)
Module LoaderFacts.
Import JsString JsStringFacts Json Res Types JsValue Loader Chars.

Lemma expandScan_plain (env : gmap string string) (pre rest : string) :
  indexOf "$" pre = None ->
  expandScan env Outside (pre ++ rest) =
  do t <- expandScan env Outside rest; ok (pre ++ t).
Proof.
  induction pre as [|c pre IH]; intros F.
  - change ("" ++ rest) with rest. now destruct (expandScan env Outside rest).
  - cbn [indexOf] in F. destruct (Ascii.eqb c "$") eqn:E; [discriminate|].
    destruct (indexOf "$" pre); [discriminate|].
    rewrite append_cons. cbn [expandScan]. rewrite E, IH by reflexivity.
    destruct (expandScan env Outside rest); reflexivity.
Qed.

Lemma envNameChar_plain (c : ascii) :
  isEnvNameChar c = true -> Ascii.eqb c "}" = false /\ Ascii.eqb c "$" = false.
Proof.
  intros H. split; apply Ascii.eqb_neq; intros ->; discriminate H.
Qed.

Lemma expandScan_name (env : gmap string string) (acc name rest : string) :
  allChars isEnvNameChar name = true ->
  expandScan env (Name acc) (name ++ rest) = expandScan env (Name (acc ++ name)) rest.
Proof.
  revert acc. induction name as [|c name IH]; intros acc V.
  - change ("" ++ rest) with rest. now rewrite append_empty_r.
  - cbn [allChars] in V. apply andb_true_iff in V as [C V].
    rewrite append_cons. cbn [expandScan]. rewrite C, IH by exact V.
    now rewrite append_assoc.
Qed.

(** X8. A text without a dollar sign is left as it is. In a text that has
    none before its first [${NAME}], where [NAME] is made of capitals,
    digits and underscores, the value of the variable takes the place of
    the reference as it stands, without being expanded again, and the
    expansion goes on after it; a variable that is not set makes the
    expansion fail with the name of the variable. *)
Theorem expandEnvString_first_reference (env : gmap string string) (pre : string) :
  indexOf "$" pre = None ->
  expandEnvString env pre = inr pre /\
  forall name rest,
    name <> "" -> allChars isEnvNameChar name = true ->
    expandEnvString env (pre ++ "${" ++ name ++ "}" ++ rest) =
    match env !! name with
    | None => inl ("Missing required environment variable: " ++ name)
    | Some envValue =>
        do t <- expandEnvString env rest; ok (pre ++ envValue ++ t)
    end.
Proof.
  intros F. unfold expandEnvString. split.
  - rewrite <- (append_empty_r pre) at 1. rewrite (expandScan_plain env pre "" F).
    cbn. now rewrite append_empty_r.
  - intros name rest NE V. rewrite (expandScan_plain env pre _ F).
    change ("${" ++ name ++ "}" ++ rest) with (String "$" (String "{" (name ++ String "}" rest))).
    cbn [expandScan Ascii.eqb Bool.eqb]. cbv iota.
    rewrite (expandScan_name env "" name _ V).
    change ("" ++ name) with name. cbn [expandScan].
    change (isEnvNameChar "}") with false. cbv iota.
    rewrite Ascii.eqb_refl. apply truthy_nonempty in NE. rewrite NE. cbn [andb].
    destruct (env !! name) as [envValue|]; [|reflexivity].
    destruct (expandScan env Outside rest); reflexivity.
Qed.

Lemma expandEnvString_first_reference_witness :
  expandEnvString {[ "HOME" := "${HOME}/x" ]} "cd ${HOME} && ls ${home}"
  = inr "cd ${HOME}/x && ls ${home}".
Proof.
  destruct (expandEnvString_first_reference {[ "HOME" := "${HOME}/x" ]} "cd ") as [_ H];
    [reflexivity|].
  change "cd ${HOME} && ls ${home}" with ("cd " ++ "${" ++ "HOME" ++ "}" ++ " && ls ${home}").
  rewrite (H "HOME" " && ls ${home}"); [|discriminate | reflexivity].
  vm_compute. reflexivity.
Defined.

End LoaderFacts.

(** ** Notes and backup names *)
Module TextFacts.
Import JsString JsStringFacts TextLemmas Json Res Types Loader Store Manager Chars.

(** The characters that [replaceRuns] lets through: those that are not
    of the class replaced, the replacement, and the class itself when a
    run of one is kept. *)
Lemma replaceRuns_all (q p : ascii -> bool) (least : nat) (repl : string) :
  allChars q repl = true ->
  (forall c, p c = false -> q c = true) ->
  ((least <= 1)%nat \/ forall c, p c = true -> q c = true) ->
  forall s run,
    allChars q run = true \/ (least <= String.length run)%nat ->
    allChars q (replaceRuns p least repl run s) = true.
Proof.
  intros R N H s. induction s as [|c r IH]; intros run I.
  - cbn [replaceRuns]. destruct run as [|x run]; [reflexivity|].
    destruct (Nat.leb_spec least (String.length (String x run))); [exact R|].
    destruct I; [assumption | lia].
  - cbn [replaceRuns]. destruct (p c) eqn:P.
    + apply IH. rewrite length_snoc, allChars_app. cbn [allChars].
      destruct H as [H|H]; [right; lia|].
      destruct I as [I|I]; [left | right; lia].
      now rewrite I, (H c P).
    + assert (T : allChars q (String c (replaceRuns p least repl "" r)) = true).
      { cbn [allChars]. rewrite (N c P). apply IH. now left. }
      destruct run as [|x run]; [exact T|].
      rewrite allChars_app, T, andb_true_r.
      destruct (Nat.leb_spec least (String.length (String x run))); [exact R|].
      destruct I; [assumption | lia].
Qed.

Lemma allChars_dropLeading (q p : ascii -> bool) (s : string) :
  allChars q s = true -> allChars q (dropLeading p s) = true.
Proof.
  induction s as [|c r IH]; [reflexivity|]. intros A. cbn [dropLeading].
  destruct (p c); [|exact A]. cbn [allChars] in A. apply andb_true_iff in A as [_ A]. auto.
Qed.

Lemma allChars_dropTrailing (q p : ascii -> bool) (s : string) :
  allChars q s = true -> allChars q (dropTrailing p s) = true.
Proof.
  induction s as [|c r IH]; [reflexivity|]. intros A. cbn [dropTrailing].
  cbn [allChars] in A. apply andb_true_iff in A as [C A]. specialize (IH A).
  destruct (dropTrailing p r) as [|d t].
  - destruct (p c); [reflexivity|]. cbn [allChars]. now rewrite C.
  - cbn [allChars] in *. now rewrite C.
Qed.

Lemma allChars_substring (q : ascii -> bool) (s : string) (n : nat) :
  allChars q s = true -> allChars q (substring 0 n s) = true.
Proof.
  revert n. induction s as [|c r IH]; intros n A; [now destruct n|].
  destruct n as [|n]; [reflexivity|]. cbn [substring allChars] in *.
  apply andb_true_iff in A as [C A]. now rewrite C, IH.
Qed.

Lemma length_substring (s : string) (n : nat) :
  (String.length (substring 0 n s) <= n)%nat.
Proof.
  revert n. induction s as [|c r IH]; intros n; [destruct n; cbn; lia|].
  destruct n as [|n]; [cbn; lia|]. cbn [substring String.length]. specialize (IH n). lia.
Qed.

Lemma allChars_trimStart (q : ascii -> bool) (s : string) :
  allChars q s = true -> allChars q (trimStart s) = true.
Proof.
  induction s as [|c r IH]; [reflexivity|]. intros A. cbn [trimStart].
  destruct (isWhiteSpace c); [|exact A]. cbn [allChars] in A.
  apply andb_true_iff in A as [_ A]. auto.
Qed.

Lemma allChars_trimEnd (q : ascii -> bool) (s : string) :
  allChars q s = true -> allChars q (trimEnd s) = true.
Proof.
  induction s as [|c r IH]; [reflexivity|]. intros A. cbn [trimEnd].
  cbn [allChars] in A. apply andb_true_iff in A as [C A]. specialize (IH A).
  destruct (trimEnd r) as [|d t].
  - destruct (isWhiteSpace c); [reflexivity|]. cbn [allChars]. now rewrite C.
  - cbn [allChars] in *. now rewrite C.
Qed.

(** X9. The name that [sanitizeBackupReason] returns is never empty, has at
    most eighty characters, and is made of letters, digits, dots,
    underscores and hyphens only: it holds no path separator. *)
Theorem sanitizeBackupReason_safe (reason : string) :
  let name := sanitizeBackupReason reason in
  name <> "" /\
  (String.length name <= 80)%nat /\
  allChars isReasonChar name = true.
Proof.
  cbn zeta. unfold sanitizeBackupReason.
  set (s1 := replaceRuns _ 1 "_" "" reason).
  set (s2 := replaceRuns isDot 2 "_" "" s1).
  set (s3 := replaceRuns isUnderscore 1 "_" "" s2).
  assert (A1 : allChars isReasonChar s1 = true).
  { apply replaceRuns_all; [reflexivity | | left; lia | now left].
    intros c H. now apply negb_false_iff in H. }
  assert (D : forall c, isDot c = true -> isReasonChar c = true).
  { intros c H. apply Ascii.eqb_eq in H. now subst c. }
  assert (U : forall c, isUnderscore c = true -> isReasonChar c = true).
  { intros c H. apply Ascii.eqb_eq in H. now subst c. }
  assert (K : forall p : ascii -> bool,
             (forall c, p c = true -> isReasonChar c = true) ->
             forall least s, allChars isReasonChar s = true ->
             allChars isReasonChar (replaceRuns p least "_" "" s) = true).
  { intros p Hp least s. revert s.
    assert (G : forall s run,
               allChars isReasonChar s = true -> allChars isReasonChar run = true ->
               allChars isReasonChar (replaceRuns p least "_" run s) = true).
    { induction s as [|c r IH]; intros run S R.
      - cbn [replaceRuns]. destruct run; [reflexivity|]. now destruct (_ <=? _)%nat.
      - cbn [allChars] in S. apply andb_true_iff in S as [C S]. cbn [replaceRuns].
        destruct (p c).
        + apply IH; [exact S|]. rewrite allChars_app, R. cbn [allChars]. now rewrite C.
        + assert (T : allChars isReasonChar (String c (replaceRuns p least "_" "" r)) = true)
            by (cbn [allChars]; rewrite C; now apply IH).
          destruct run as [|x run]; [exact T|].
          rewrite allChars_app, T, andb_true_r. now destruct (_ <=? _)%nat. }
    intros s S. now apply G. }
  assert (A3 : allChars isReasonChar s3 = true) by (apply (K _ U), (K _ D), A1).
  set (sanitized := dropTrailing isUnderscore (dropLeading isUnderscore s3)).
  assert (A : allChars isReasonChar sanitized = true)
    by (apply allChars_dropTrailing, allChars_dropLeading, A3).
  destruct (Nat.eqb_spec (String.length sanitized) 0) as [Z|Z].
  - repeat split; [discriminate | cbn; lia].
  - split; [|split; [apply length_substring | now apply allChars_substring]].
    destruct sanitized as [|c t]; [contradiction | discriminate].
Qed.

(** *** Notes *)

Lemma noPair_tail (p : ascii -> bool) (c : ascii) (r : string) :
  noPair p (String c r) = true -> noPair p r = true.
Proof.
  destruct r as [|d t]; [reflexivity|]. intros H.
  change (negb (p c && p d) && noPair p (String d t) = true) in H.
  now apply andb_true_iff in H as [_ H].
Qed.

Lemma noPair_cons (p : ascii -> bool) (c : ascii) (r : string) :
  p c = false -> noPair p r = true -> noPair p (String c r) = true.
Proof.
  intros C R. destruct r as [|d t]; [reflexivity|].
  change (negb (p c && p d) && noPair p (String d t) = true).
  now rewrite C, R.
Qed.

Lemma noPair_prefix (p : ascii -> bool) (a b : string) :
  noPair p (a ++ b) = true -> noPair p a = true.
Proof.
  induction a as [|c a IH]; [reflexivity|]. rewrite append_cons. intros H.
  pose proof (noPair_tail _ _ _ H) as T. specialize (IH T).
  destruct a as [|d a]; [reflexivity|].
  rewrite append_cons in H.
  change (negb (p c && p d) && noPair p (String d (a ++ b)) = true) in H.
  change (negb (p c && p d) && noPair p (String d a) = true).
  apply andb_true_iff in H as [H _]. now rewrite H, IH.
Qed.

Lemma noPair_app_ink (p : ascii -> bool) (a : string) (d : ascii) (t : string) :
  p d = false -> noPair p a = true -> noPair p (String d t) = true ->
  noPair p (a ++ String d t) = true.
Proof.
  intros D A B. induction a as [|c a IH]; [exact B|].
  rewrite append_cons. pose proof (noPair_tail _ _ _ A) as T. specialize (IH T).
  destruct a as [|x a].
  - change (negb (p c && p d) && noPair p (String d t) = true).
    now rewrite D, andb_false_r, B.
  - rewrite append_cons in *.
    change (negb (p c && p x) && noPair p (String x a) = true) in A.
    change (negb (p c && p x) && noPair p (String x (a ++ String d t)) = true).
    apply andb_true_iff in A as [A _]. now rewrite A, IH.
Qed.

Lemma noPair_trimStart (p : ascii -> bool) (s : string) :
  noPair p s = true -> noPair p (trimStart s) = true.
Proof.
  induction s as [|c r IH]; [reflexivity|]. intros H. cbn [trimStart].
  destruct (isWhiteSpace c); [|exact H]. apply IH. exact (noPair_tail _ _ _ H).
Qed.

Lemma trimEnd_prefix (s : string) : exists b, s = trimEnd s ++ b.
Proof.
  induction s as [|c r [b IH]]; [now exists ""|].
  cbn [trimEnd]. destruct (trimEnd r) as [|d t] eqn:E.
  - destruct (isWhiteSpace c); [now exists (String c r) | now exists r].
  - exists b. rewrite append_cons. now rewrite <- IH.
Qed.

Lemma substring_is_prefix (s : string) (n : nat) : exists b, s = substring 0 n s ++ b.
Proof.
  revert n. induction s as [|c r IH]; intros n; [exists ""; now destruct n|].
  destruct n as [|n]; [now exists (String c r)|].
  destruct (IH n) as [b E]. exists b. cbn [substring]. rewrite append_cons. now rewrite <- E.
Qed.

(** After a run of white space has been read, [replaceRuns] puts one
    space, and what follows the space does not start with a space. *)
Lemma replaceRuns_spaced (s run : string) :
  let out := replaceRuns isWhiteSpace 1 " " run s in
  noPair isSpace out = true /\
  (run <> "" ->
   exists rest, out = String " " rest /\
                match rest with
                | EmptyString => True
                | String d _ => isSpace d = false
                end).
Proof.
  cbn zeta. revert run. induction s as [|c r IH]; intros run.
  - cbn [replaceRuns]. destruct run as [|x run]; [split; [reflexivity | contradiction]|].
    cbn [String.length Nat.leb]. split; [reflexivity|]. intros _. now exists "".
  - cbn [replaceRuns]. destruct (isWhiteSpace c) eqn:W.
    + destruct (IH (run ++ String c "")) as [N S]. split; [exact N|].
      intros _. apply S. now destruct run.
    + assert (C : isSpace c = false).
      { apply Ascii.eqb_neq. intros ->. discriminate W. }
      destruct (IH "") as [N _].
      assert (T : noPair isSpace (String c (replaceRuns isWhiteSpace 1 " " "" r)) = true)
        by now apply noPair_cons.
      destruct run as [|x run]; [split; [exact T | contradiction]|].
      cbn [String.length Nat.leb].
      change (" " ++ String c (replaceRuns isWhiteSpace 1 " " "" r))
        with (String " " (String c (replaceRuns isWhiteSpace 1 " " "" r))).
      split.
      * change (negb (isSpace " " && isSpace c)
                && noPair isSpace (String c (replaceRuns isWhiteSpace 1 " " "" r)) = true).
        now rewrite C, andb_false_r, T.
      * intros _. eexists. split; [reflexivity | exact C].
Qed.

Lemma toShortNote_props (input : string) :
  let note := toShortNote input in
  (String.length note <= 120)%nat /\
  allChars spaceOrInk note = true /\
  noPair isSpace note = true.
Proof.
  cbn zeta. unfold toShortNote.
  set (collapsed := replaceRuns isWhiteSpace 1 " " "" input).
  assert (A : allChars spaceOrInk collapsed = true).
  { apply replaceRuns_all; [reflexivity | | left; lia | now left].
    intros c H. unfold spaceOrInk. now rewrite H. }
  assert (N : noPair isSpace collapsed = true) by apply (replaceRuns_spaced input "").
  set (normalized := trim collapsed).
  assert (A' : allChars spaceOrInk normalized = true)
    by (apply allChars_trimEnd, allChars_trimStart, A).
  assert (N' : noPair isSpace normalized = true).
  { unfold normalized, trim. destruct (trimEnd_prefix (trimStart collapsed)) as [b E].
    apply (noPair_prefix _ _ b). rewrite <- E. now apply noPair_trimStart. }
  destruct (Nat.leb_spec (String.length normalized) 120) as [L|L]; [now repeat split|].
  split; [|split].
  - pose proof (length_substring normalized 117).
    rewrite length_app. cbn [String.length]. lia.
  - rewrite allChars_app. now rewrite allChars_substring.
  - apply noPair_app_ink; [reflexivity | | reflexivity].
    destruct (substring_is_prefix normalized 117) as [b E].
    apply (noPair_prefix _ _ b). now rewrite <- E.
Qed.

Lemma getProp_app (k : string) (a b : obj) :
  getProp k (a ++ b)%list = match getProp k a with Some v => Some v | None => getProp k b end.
Proof.
  induction a as [|[k' v] a IH]; [reflexivity|]. cbn [getProp app].
  now destruct (String.eqb k' k).
Qed.

Lemma candidate_note (input : CreateInput.t) :
  getProp "note" match candidateProfile input with JObj o => o | _ => [] end
  = Some (JStr (defaultNoteForProfile input)).
Proof.
  unfold candidateProfile. rewrite !getProp_app.
  destruct (CreateInput.suPassword input), (CreateInput.sudoPassword input); reflexivity.
Qed.

Ltac schema_inv H :=
  repeat match type of H with
    | Res.bind ?r _ = inr _ =>
        let E := fresh "E" in
        destruct r eqn:E; [discriminate H|]; cbn [Res.bind] in H
    | (if ?b then _ else _) = inr _ =>
        let E := fresh "E" in
        destruct b eqn:E; try discriminate H
    end.

(** X10. The note kept by [toShortNote] has at most 120 characters, and its
    white space is made of single spaces: no tab, no line break, no two
    spaces in a row. [defaultNoteForProfile] returns such a note, and it
    is the note that the profile schema reads from the candidate built by
    [createProfile], so it is the note of every profile created. *)
Theorem created_note_is_short (input : CreateInput.t) :
  (forall text,
      (String.length (toShortNote text) <= 120)%nat /\
      allChars spaceOrInk (toShortNote text) = true /\
      noPair isSpace (toShortNote text) = true) /\
  (exists text, defaultNoteForProfile input = toShortNote text) /\
  (forall parsed,
      profileSchema (candidateProfile input) = inr parsed ->
      note parsed = defaultNoteForProfile input /\
      getProp "note" (rawProfileOf input (note parsed)) = Some (JStr (note parsed))).
Proof.
  split; [exact toShortNote_props|]. split.
  - unfold defaultNoteForProfile.
    match goal with |- context [if ?b then _ else _] => destruct b end; eauto.
  - intros parsed H. split; [|reflexivity].
    pose proof (candidate_note input) as G.
    unfold profileSchema in H. schema_inv H. injection H as <-. cbn [note].
    match goal with
    | E : zStrictObject _ (candidateProfile input) = inr ?o |- _ =>
        unfold zStrictObject, zObject, candidateProfile in E; cbn [Res.bind ok] in E;
        match type of E with (if ?b then _ else _) = _ => destruct b; [|discriminate E] end;
        injection E as <-
    end.
    unfold candidateProfile in G. cbv beta iota in G.
    match goal with
    | E : withDefault zString "" ?x = inr ?n |- _ =>
        replace x with (Some (JStr (defaultNoteForProfile input))) in E
          by (rewrite <- G; reflexivity);
        cbn in E; injection E as E; now symmetry
    end.
Qed.

Lemma created_note_is_short_witness :
  match profileSchema (candidateProfile MoreScenario.relayInput) with
  | inr parsed => note parsed = "second relay, behind the gateway | tags:relay,jp | Relay 2(relay2.example.com)"
  | inl _ => False
  end.
Proof.
  destruct (created_note_is_short MoreScenario.relayInput) as (_ & _ & H).
  destruct (profileSchema (candidateProfile MoreScenario.relayInput)) as [e|parsed] eqn:E.
  - vm_compute in E. discriminate E.
  - destruct (H parsed eq_refl) as [-> _]. vm_compute. reflexivity.
Defined.

End TextFacts.

(** ** The profile manager: invariant and accessors *)
Module ManagerFacts.
Import JsString JsStringFacts Json Res Types Loader Store Manager Accessors StoreFacts.

Ltac res_inv H :=
  repeat match type of H with
    | Res.bind ?r _ = inr _ =>
        let E := fresh "E" in
        destruct r eqn:E; [discriminate H|]; cbn [Res.bind] in H
    | (if ?b then _ else _) = inr _ =>
        let E := fresh "E" in
        destruct b eqn:E; try discriminate H
    end.

Lemma firstCandidate_sound (ps : list ProfileDefinition) (cs : list (option string))
    (x : string) :
  firstCandidate ps cs = inr x -> hasProfile ps x = true.
Proof.
  induction cs as [|c cs IH]; [discriminate|]. cbn [firstCandidate].
  destruct (truthyOpt c); cbn [negb]; [|exact IH].
  destruct (hasProfile ps (default "" c)) eqn:H; [|exact IH].
  now intros [= <-].
Qed.

Lemma firstCandidate_total (ps : list ProfileDefinition) (cs : list (option string))
    (a : string) :
  truthy a = true -> hasProfile ps a = true -> In (Some a) cs ->
  isOk (firstCandidate ps cs) = true.
Proof.
  intros T H. induction cs as [|c cs IH]; [intros []|]. intros [->|I].
  - cbn [firstCandidate truthyOpt]. rewrite T. cbn. now rewrite H.
  - cbn [firstCandidate]. destruct (truthyOpt c); cbn [negb]; [|now apply IH].
    destruct (hasProfile ps (default "" c)); [reflexivity | now apply IH].
Qed.

Create HintDb consistency.

Section WithPlatform.
Context {platform : Platform}.

Lemma validated_unique (env disk : gmap string string) (rawConfig : obj) (filePath : string)
    (cfg : ProfilesConfig) :
  validateRawProfilesConfig env disk rawConfig filePath = inr cfg ->
  uniqueIds [] (profiles cfg) = true.
Proof.
  unfold validateRawProfilesConfig. intros H. res_inv H. injection H as <-.
  match goal with E : profilesConfigSchema _ = inr _ |- _ => revert E end.
  unfold profilesConfigSchema. intros H. res_inv H. now injection H as <-.
Qed.

Lemma validated_ids (env disk : gmap string string) (rawConfig : obj) (filePath : string)
    (cfg : ProfilesConfig) :
  validateRawProfilesConfig env disk rawConfig filePath = inr cfg ->
  forallb (fun p => truthy (id p)) (profiles cfg) = true.
Proof.
  intros V. destruct (validated _ _ _ _ _ V) as (_ & _ & T & _).
  apply forallb_forall. exact T.
Qed.

(** After a validated document has been loaded, the active id can always
    be picked: the document's own active profile is the last candidate. *)
Lemma pick_after_validation (env disk : gmap string string) (rawConfig : obj)
    (path : string) (cfg : ProfilesConfig) (this : ProfileManager)
    (loaded : LoadedProfilesConfig) (preferred : option string) :
  validateRawProfilesConfig env disk rawConfig path = inr cfg ->
  config loaded = cfg ->
  exists active,
    pickActiveProfileId this loaded preferred = inr active /\
    hasProfile (profiles cfg) active = true.
Proof.
  intros V <-. destruct (validated _ _ _ _ _ V) as (T & H & _).
  unfold pickActiveProfileId.
  pose proof (firstCandidate_total (profiles (config loaded))
                [preferred; profileOverride this; Some (activeProfile (config loaded))]
                _ T H) as K.
  destruct (firstCandidate _ _) as [e|active] eqn:F.
  - discriminate K. cbn. auto.
  - exists active. split; [reflexivity | exact (firstCandidate_sound _ _ _ F)].
Qed.

Lemma consistent_loaded (s : Sys) (loaded : LoadedProfilesConfig) (active : string) :
  loadedConfig (manager s) = Some loaded ->
  activeProfileId (manager s) = Some active ->
  hasProfile (profiles (config loaded)) active = true ->
  forallb (fun p => truthy (id p)) (profiles (config loaded)) = true ->
  uniqueIds [] (profiles (config loaded)) = true ->
  consistent s = true.
Proof. intros L A H T U. unfold consistent. now rewrite L, A, H, T, U. Qed.

Lemma consistent_inv (s : Sys) :
  consistent s = true ->
  exists loaded active,
    loadedConfig (manager s) = Some loaded /\
    activeProfileId (manager s) = Some active /\
    hasProfile (profiles (config loaded)) active = true /\
    forallb (fun p => truthy (id p)) (profiles (config loaded)) = true /\
    uniqueIds [] (profiles (config loaded)) = true /\
    truthy active = true.
Proof.
  unfold consistent. intros C.
  destruct (loadedConfig (manager s)) as [loaded|]; [|discriminate].
  destruct (activeProfileId (manager s)) as [active|]; [|discriminate].
  apply andb_true_iff in C as [C U]. apply andb_true_iff in C as [H T].
  exists loaded, active. repeat split; auto.
  apply (hasProfile_truthy (profiles (config loaded))); [|exact H].
  now apply forallb_forall.
Qed.

Lemma consistent_same (s s' : Sys) :
  loadedConfig (manager s') = loadedConfig (manager s) ->
  activeProfileId (manager s') = activeProfileId (manager s) ->
  consistent s = true -> consistent s' = true.
Proof. unfold consistent. now intros -> ->. Qed.

(** *** The steps that keep the manager consistent *)

Lemma keepsConsistent_bind {A B} (m : M A) (k : A -> M B) :
  keepsConsistent m -> (forall a, keepsConsistent (k a)) -> keepsConsistent (bindM m k).
Proof.
  intros Hm Hk s C. unfold bindM. specialize (Hm s C).
  destruct (m s) as [[e|a] s0]; cbn [snd] in *; [exact Hm | now apply Hk].
Qed.

Lemma keepsConsistent_still {A} (m : M A) :
  (forall s, loadedConfig (manager (snd (m s))) = loadedConfig (manager s) /\
             activeProfileId (manager (snd (m s))) = activeProfileId (manager s)) ->
  keepsConsistent m.
Proof. intros H s. destruct (H s). now apply consistent_same. Qed.

Lemma persistRawConfig_consistent (env : gmap string string) (rawConfig : obj)
    (preferred : option string) :
  keepsConsistent (persistRawConfig env rawConfig preferred).
Proof.
  intros s C. rewrite persistRawConfig_run.
  destruct (fst (ensureLoaded s)) as [e|current]; [exact C|].
  destruct (validateRawProfilesConfig _ _ _ _) as [e|parsed] eqn:V; [exact C|].
  cbn zeta.
  match goal with
  | |- context [pickActiveProfileId ?this ?loaded ?pref] =>
      destruct (pick_after_validation _ _ _ _ _ this loaded pref V eq_refl) as (active & -> & H)
  end.
  cbn [snd]. eapply consistent_loaded; cbn; eauto using validated_ids, validated_unique.
Qed.

Ltac still :=
  apply keepsConsistent_still; intros ?;
  unfold getManager, getFiles, putFiles, modifyManager, ret, raise, lift; cbn;
  repeat match goal with |- context [match ?x with _ => _ end] => destruct x; cbn end;
  split; reflexivity.

Ltac consistent_step :=
  cbv beta zeta;
  first
    [ apply persistRawConfig_consistent
    | solve [auto with consistency nocore]
    | apply keepsConsistent_bind; [|intros ?]
    | still
    | match goal with
      | |- keepsConsistent (match ?x with _ => _ end) => destruct x
      end ].

Ltac consistency := repeat consistent_step.

Lemma ensureLoaded_consistent : keepsConsistent ensureLoaded.
Proof. unfold ensureLoaded. consistency. Qed.

Lemma getProfile_consistent (profileId : string) : keepsConsistent (getProfile profileId).
Proof. unfold getProfile. consistency. Qed.

Lemma getActiveProfileId_consistent : keepsConsistent getActiveProfileId.
Proof. unfold getActiveProfileId. consistency. Qed.

Lemma backupCurrentConfig_consistent (clock : Z) (reason : string) :
  keepsConsistent (backupCurrentConfig clock reason).
Proof.
  apply keepsConsistent_still. intros s.
  now rewrite backupCurrentConfig_manager.
Qed.

Hint Resolve ensureLoaded_consistent getProfile_consistent getActiveProfileId_consistent
  backupCurrentConfig_consistent : consistency.

Lemma useProfile_consistent (profileId : string) : keepsConsistent (useProfile profileId).
Proof.
  intros s C. unfold useProfile. unfold bindM at 1. rewrite ensureLoaded_run.
  destruct (consistent_inv s C) as (loaded & active & L & A & H & T & U & K).
  rewrite L, A. cbn [truthyOpt]. rewrite K.
  destruct (findProfile (profiles (config loaded)) profileId) as [profile|] eqn:F; [|exact C].
  cbn. eapply consistent_loaded; cbn; eauto.
  apply hasProfile_find. congruence.
Qed.

Lemma setActiveProfile_consistent (env : gmap string string) (profileId : string)
    (persist : bool) :
  keepsConsistent (setActiveProfile env profileId persist).
Proof.
  destruct persist.
  - unfold setActiveProfile. consistency; auto with consistency.
  - intros s C. unfold setActiveProfile. unfold bindM at 1. rewrite getProfile_run.
    rewrite ensureLoaded_run.
    destruct (consistent_inv s C) as (loaded & active & L & A & H & T & U & K).
    rewrite L, A. cbn [truthyOpt fst]. rewrite K.
    destruct (findProfile (profiles (config loaded)) profileId) as [profile|] eqn:F; [|exact C].
    unfold bindM at 1. unfold modifyManager at 1. unfold ok at 1. cbn beta iota.
    assert (C' : consistent {| manager := setActiveProfileId profileId (manager s);
                               files := files s |} = true).
    { eapply consistent_loaded; cbn; eauto. apply hasProfile_find. congruence. }
    revert C'. generalize {| manager := setActiveProfileId profileId (manager s);
                             files := files s |}.
    intros s1 C1.
    assert (G : keepsConsistent
                  (await active0 <- getActiveProfileId;
                   ret (Summary.profileSummary profile active0)))
      by (consistency; auto with consistency).
    exact (G s1 C1).
Qed.

Lemma loading_consistent (env : gmap string string) (format : Format) (rawConfig : obj)
    (preferred : ProfileManager -> option string) (s : Sys) :
  let body : M string :=
    await this <- getManager;
    await disk <- getFiles;
    await parsedConfig <- lift (validateRawProfilesConfig env disk rawConfig (configPath this));
    let loaded :=
      {| filePath := configPath this; format := format;
         config := parsedConfig; rawConfig := rawConfig |} in
    await _ <- modifyManager (setLoadedConfig loaded);
    await active <- lift (pickActiveProfileId this loaded (preferred this));
    await _ <- modifyManager (setActiveProfileId active);
    ret active in
  match body s with
  | (inr _, s') => consistent s' = true
  | (inl _, s') => s' = s
  end.
Proof.
  cbn zeta. unfold bindM, getManager, getFiles, lift, modifyManager, ret, ok. cbn beta iota.
  destruct (validateRawProfilesConfig _ _ _ _) as [e|parsed] eqn:V; [reflexivity|].
  cbn [manager files].
  match goal with
  | |- context [pickActiveProfileId ?this ?loaded ?pref] =>
      destruct (pick_after_validation _ _ _ _ _ this loaded pref V eq_refl) as (active & -> & H)
  end.
  eapply consistent_loaded; cbn; eauto using validated_ids, validated_unique.
Qed.

Lemma initialize_consistent (env : gmap string string) (format : Format) (rawConfig : obj)
    (s : Sys) :
  match initialize env format rawConfig s with
  | (inr _, s') => consistent s' = true
  | (inl _, s') => s' = s
  end.
Proof.
  pose proof (loading_consistent env format rawConfig profileOverride s) as H.
  cbn zeta in H. unfold initialize.
  unfold bindM, getManager, getFiles, lift, modifyManager, ret, ok in *. cbn beta iota in *.
  destruct (validateRawProfilesConfig _ _ _ _); [exact H|].
  cbn [manager files] in *.
  destruct (pickActiveProfileId _ _ _); exact H.
Qed.

Lemma reload_consistent (env : gmap string string) (format : Format) (rawConfig : obj) :
  keepsConsistent (reload env format rawConfig).
Proof.
  intros s C.
  pose proof (loading_consistent env format rawConfig activeProfileId s) as H.
  cbn zeta in H. unfold reload.
  unfold bindM at 1 2 3 4 5 6 in H. unfold bindM at 1 2 3 4 5 6.
  unfold getManager, getFiles, lift, modifyManager, ok in *. cbn beta iota in *.
  destruct (validateRawProfilesConfig _ _ _ _); [exact C|].
  cbn [manager files] in *.
  destruct (pickActiveProfileId _ _ _); [now rewrite H|].
  unfold ret at 1 in H. cbn beta iota in H.
  match goal with
  | |- consistent (snd (bindM listProfiles ?k ?s1)) = true =>
      assert (G : keepsConsistent (bindM listProfiles k))
        by (unfold listProfiles; consistency; auto with consistency);
      exact (G s1 H)
  end.
Qed.

(** X11. Every method of the manager keeps it consistent, whether the method
    returns or throws: the configuration loaded has ids that are not empty
    and pairwise different, and the active id names one of its profiles.
    A successful [initialize] makes the manager consistent, and a failed
    one leaves it as it was. *)
Theorem manager_stays_consistent (env : gmap string string) :
  (forall format rawConfig s,
      match initialize env format rawConfig s with
      | (inr _, s') => consistent s' = true
      | (inl _, s') => s' = s
      end) /\
  (forall format rawConfig, keepsConsistent (reload env format rawConfig)) /\
  (forall profileId, keepsConsistent (useProfile profileId)) /\
  (forall profileId persist, keepsConsistent (setActiveProfile env profileId persist)) /\
  (forall profileId note, keepsConsistent (updateNote env profileId note)) /\
  (forall input, keepsConsistent (createProfile env input)) /\
  (forall clock now uuid profileId,
      keepsConsistent (prepareDeleteProfile clock now uuid profileId)) /\
  (forall now requestId profileId text,
      keepsConsistent (confirmDeleteProfile env now requestId profileId text)).
Proof.
  split; [exact (initialize_consistent env)|].
  split; [exact (reload_consistent env)|].
  split; [exact useProfile_consistent|].
  split; [exact (setActiveProfile_consistent env)|].
  split; [|split; [|split]].
  - intros. unfold updateNote. consistency; auto with consistency.
  - intros. unfold createProfile, getProfileMaybe. consistency; auto with consistency.
  - intros. unfold prepareDeleteProfile. consistency; auto with consistency.
  - intros. unfold confirmDeleteProfile. consistency; auto with consistency.
Qed.

Lemma uniqueIds_spec (ps : list ProfileDefinition) (seen : list string) :
  uniqueIds seen ps = true ->
  List.NoDup (map id ps) /\ forall p, In p ps -> ~ In (id p) seen.
Proof.
  revert seen. induction ps as [|q ps IH]; intros seen U.
  - split; [apply List.NoDup_nil | intros p []].
  - cbn [uniqueIds] in U. destruct (existsb (String.eqb (id q)) seen) eqn:E; [discriminate|].
    destruct (IH _ U) as [N D]. split.
    + cbn [map]. apply List.NoDup_cons_iff. split; [|exact N].
      intros I. apply in_map_iff in I as (p & Ep & I).
      apply (D p I). left. now symmetry.
    + intros p [<-|I] S.
      * assert (existsb (String.eqb (id q)) seen = true); [|congruence].
        apply existsb_exists. exists (id q). split; [exact S | apply String.eqb_refl].
      * apply (D p I). now right.
Qed.

Lemma filter_unique (ps : list ProfileDefinition) (a : string) (p : ProfileDefinition) :
  List.NoDup (map id ps) -> findProfile ps a = Some p ->
  List.filter (fun q => String.eqb (id q) a) ps = [p].
Proof.
  unfold findProfile. induction ps as [|q ps IH]; [discriminate|].
  cbn [map List.find List.filter]. intros N F. apply List.NoDup_cons_iff in N as [Q N].
  destruct (String.eqb_spec (id q) a) as [E|E].
  - injection F as <-. f_equal.
    assert (G : forall r, In r ps -> String.eqb (id r) a = false).
    { intros r I. apply String.eqb_neq. intros R. apply Q. rewrite E, <- R.
      now apply in_map. }
    clear -G. induction ps as [|r ps IH]; [reflexivity|].
    cbn [List.filter]. rewrite (G r) by now left. apply IH. intros x I. apply G. now right.
  - now apply IH.
Qed.

Lemma find_id (ps : list ProfileDefinition) (a : string) (p : ProfileDefinition) :
  findProfile ps a = Some p -> id p = a.
Proof.
  unfold findProfile. intros F. apply find_some in F as [_ F]. now apply String.eqb_eq.
Qed.

Lemma filter_map_summary (ps : list ProfileDefinition) (a : string) :
  List.filter Summary.active (map (fun p => Summary.profileSummary p a) ps)
  = map (fun p => Summary.profileSummary p a) (List.filter (fun q => String.eqb (id q) a) ps).
Proof.
  induction ps as [|q ps IH]; [reflexivity|]. cbn [map List.filter Summary.active
    Summary.profileSummary].
  destruct (String.eqb (id q) a); cbn [map]; now rewrite IH.
Qed.

Lemma getActiveProfile_found (s : Sys) :
  consistent s = true ->
  exists loaded profile,
    loadedConfig (manager s) = Some loaded /\
    getActiveProfile s = (inr profile, s) /\
    findProfile (profiles (config loaded)) (id profile) = Some profile /\
    activeProfileId (manager s) = Some (id profile) /\
    truthy (id profile) = true.
Proof.
  intros C. destruct (consistent_inv s C) as (loaded & active & L & A & H & T & U & K).
  apply hasProfile_find in H.
  destruct (findProfile (profiles (config loaded)) active) as [profile|] eqn:F; [|contradiction].
  pose proof (find_id _ _ _ F) as I. subst active.
  exists loaded, profile. repeat split; auto.
  unfold getActiveProfile. unfold bindM at 1. rewrite ensureLoaded_run, L, A.
  cbn [truthyOpt]. rewrite K. unfold bindM, getManager, ok. cbn beta iota.
  rewrite A. change (default "" (Some (id profile))) with (id profile). now rewrite F.
Qed.

(** X12. In a consistent manager the active profile is always found, and the
    listing has one entry per profile, of which exactly one is marked
    active: the entry of the active profile. *)
Theorem active_profile_is_listed (s : Sys) :
  consistent s = true ->
  exists loaded profile,
    loadedConfig (manager s) = Some loaded /\
    getActiveProfile s = (inr profile, s) /\
    In profile (profiles (config loaded)) /\
    activeProfileId (manager s) = Some (id profile) /\
    listProfiles s =
      (inr (map (fun p => Summary.profileSummary p (id profile)) (profiles (config loaded))), s) /\
    List.filter Summary.active
      (map (fun p => Summary.profileSummary p (id profile)) (profiles (config loaded)))
    = [Summary.profileSummary profile (id profile)].
Proof.
  intros C. destruct (getActiveProfile_found s C) as (loaded & profile & L & G & F & A & K).
  destruct (consistent_inv s C) as (loaded' & active & L' & _ & _ & _ & U & _).
  rewrite L in L'. injection L' as <-.
  exists loaded, profile. split; [exact L|]. split; [exact G|]. split; [|split; [exact A|split]].
  - unfold findProfile in F. now apply find_some in F as [F _].
  - unfold listProfiles. unfold bindM at 1. rewrite ensureLoaded_run, L, A.
    cbn [truthyOpt]. rewrite K. unfold bindM, getManager, ok, ret. cbn beta iota.
    rewrite A. reflexivity.
  - rewrite filter_map_summary.
    destruct (uniqueIds_spec _ _ U) as [N _].
    now rewrite (filter_unique _ _ _ N F).
Qed.

(** *** Switching the active profile *)

(** X13. On a consistent manager, [setActiveProfile] without persistence is
    [useProfile]: same result, same state. Neither writes a file nor
    touches the configuration loaded; a failure leaves the state as it
    was, and after a success the active id is the id asked for. *)
Theorem useProfile_runtime_only (env : gmap string string) (profileId : string) (s : Sys) :
  consistent s = true ->
  setActiveProfile env profileId false s = useProfile profileId s /\
  files (snd (useProfile profileId s)) = files s /\
  loadedConfig (manager (snd (useProfile profileId s))) = loadedConfig (manager s) /\
  match fst (useProfile profileId s) with
  | inl _ => snd (useProfile profileId s) = s
  | inr _ => activeProfileId (manager (snd (useProfile profileId s))) = Some profileId
  end.
Proof.
  intros C. destruct (consistent_inv s C) as (loaded & active & L & A & H & T & U & K).
  assert (E : useProfile profileId s =
              match findProfile (profiles (config loaded)) profileId with
              | None => (inl ("Profile " ++ quoted profileId ++ " does not exist"), s)
              | Some profile =>
                  (inr (Summary.profileSummary profile profileId),
                   {| manager := setActiveProfileId profileId (manager s); files := files s |})
              end).
  { unfold useProfile. unfold bindM at 1. rewrite ensureLoaded_run, L, A.
    cbn [truthyOpt]. rewrite K. now destruct (findProfile _ _). }
  split; [|rewrite E; destruct (findProfile _ _); cbn; auto].
  rewrite E. unfold setActiveProfile. unfold bindM at 1.
  rewrite getProfile_run, ensureLoaded_run, L, A. cbn [truthyOpt fst]. rewrite K.
  destruct (findProfile (profiles (config loaded)) profileId) as [profile|] eqn:F;
    [|reflexivity].
  unfold bindM at 1. unfold modifyManager at 1. unfold ok at 1. cbn beta iota.
  unfold bindM. rewrite getActiveProfileId_run, ensureLoaded_run. cbn [manager fst].
  cbn [setActiveProfileId loadedConfig activeProfileId]. rewrite L. cbn [truthyOpt].
  assert (P : truthy profileId = true).
  { apply (hasProfile_truthy (profiles (config loaded))); [now apply forallb_forall|].
    apply hasProfile_find. congruence. }
  rewrite P. reflexivity.
Qed.

(** X14. [setActiveProfile] with persistence either fails and leaves the
    manager and the file system as they were, or stores the id as
    [activeProfile] of the raw document, writes that document to the
    configuration file, and makes the id the active one when the
    revalidated configuration has a profile of that id. *)
Theorem setActiveProfile_persists (env : gmap string string) (profileId : string) (s : Sys) :
  let '(res, s') := setActiveProfile env profileId true s in
  match res with
  | inl _ => s' = s
  | inr _ =>
      exists loaded loaded',
        loadedConfig (manager s) = Some loaded /\
        loadedConfig (manager s') = Some loaded' /\
        rawConfig loaded' = setProp "activeProfile" (JStr profileId) (rawConfig loaded) /\
        files s' =
          <[filePath loaded := serializeRawConfig (rawConfig loaded') (format loaded)]> (files s) /\
        (hasProfile (profiles (config loaded')) profileId = true ->
         activeProfileId (manager s') = Some profileId)
  end.
Proof.
  unfold setActiveProfile. unfold bindM at 1. rewrite getProfile_run, ensureLoaded_run.
  cbn [fst].
  destruct (loadedConfig (manager s)) as [loaded|] eqn:L; [|reflexivity].
  destruct (truthyOpt (activeProfileId (manager s))) eqn:A; [|reflexivity].
  destruct (findProfile (profiles (config loaded)) profileId) as [profile|]; [|reflexivity].
  unfold bindM at 1. unfold bindM at 1. rewrite ensureLoaded_run, L, A.
  unfold cloneRawConfig.
  rewrite persistRawConfig_run, ensureLoaded_run, L, A. cbn [fst].
  destruct (validateRawProfilesConfig _ _ _ _) as [e|parsed] eqn:V; [reflexivity|].
  cbn zeta.
  match goal with
  | |- context [pickActiveProfileId ?this ?next ?pref] =>
      destruct (pick_after_validation _ _ _ _ _ this next pref V eq_refl) as (active & P & H);
      rewrite P
  end.
  unfold bindM at 1. rewrite getActiveProfileId_run, ensureLoaded_run.
  cbn [manager fst setActiveProfileId setLoadedConfig loadedConfig activeProfileId truthyOpt].
  assert (K : truthy active = true).
  { apply (hasProfile_truthy (profiles parsed)); [|exact H].
    apply forallb_forall. exact (validated_ids _ _ _ _ _ V). }
  rewrite K. unfold ret. cbn beta iota.
  eexists loaded, _. split; [reflexivity|]. split; [reflexivity|].
  split; [reflexivity|]. split; [reflexivity|].
  cbn [config]. intros G.
  unfold pickActiveProfileId in P. cbn [config] in P.
  destruct (validated _ _ _ _ _ V) as (_ & _ & T & _).
  rewrite (firstCandidate_preferred _ _ _ (hasProfile_truthy _ _ T G) G) in P.
  injection P as <-. reflexivity.
Qed.

(** *** The two phases of a deletion *)

Ltac unchanged :=
  repeat split; try reflexivity; try assumption; try (left; reflexivity).

Lemma insert_keeps_source (disk : gmap string string) (source target content : string) :
  disk !! source = Some content ->
  <[target := content]> disk !! source = disk !! source.
Proof.
  intros R. destruct (decide (target = source)) as [->|D].
  - now rewrite lookup_insert_eq.
  - now rewrite lookup_insert_ne.
Qed.

(** X15. [prepareDeleteProfile] deletes nothing: whether it returns or
    throws, the loaded configuration, the active id and the content of
    the configuration file are as they were. When it succeeds there was
    more than one profile and the backup holds the very content of the
    configuration file. When it fails the manager is as it was and no
    request has been filed; the file system is as it was too, unless the
    failure is that of [chmod], which comes after the copy has been
    written: the backup is then left behind. *)
Theorem prepareDeleteProfile_copies (clock now : Z) (uuid profileId : string) (s : Sys) :
  let '(res, s') := prepareDeleteProfile clock now uuid profileId s in
  loadedConfig (manager s') = loadedConfig (manager s) /\
  activeProfileId (manager s') = activeProfileId (manager s) /\
  files s' !! configPath (manager s) = files s !! configPath (manager s) /\
  match res with
  | inr prep =>
      exists loaded content,
        loadedConfig (manager s) = Some loaded /\
        (1 < length (profiles (config loaded)))%nat /\
        hasProfile (profiles (config loaded)) profileId = true /\
        files s !! configPath (manager s) = Some content /\
        files s' = <[Prepared.backupPath prep := content]> (files s)
  | inl e =>
      manager s' = manager s /\
      (files s' = files s \/
       exists path content,
         isWin32 = false /\ chmodError path = Some e /\
         files s !! configPath (manager s) = Some content /\
         files s' = <[path := content]> (files s))
  end.
Proof.
  unfold prepareDeleteProfile. unfold bindM at 1. rewrite ensureLoaded_run.
  destruct (loadedConfig (manager s)) as [loaded|] eqn:L; [|unchanged].
  destruct (truthyOpt (activeProfileId (manager s))) eqn:A; [|unchanged].
  unfold bindM at 1. rewrite getProfile_run, ensureLoaded_run, L, A. cbn [fst].
  destruct (findProfile (profiles (config loaded)) profileId) as [profile|] eqn:F;
    [|unchanged].
  destruct (Nat.leb_spec (length (profiles (config loaded))) 1) as [N|N];
    [unchanged|].
  unfold bindM at 1. rewrite backupCurrentConfig_run. cbv zeta.
  destruct (mkdirError _) as [e|]; [unchanged|].
  destruct (_ || _); [unchanged|].
  unfold readFile.
  destruct (files s !! configPath (manager s)) as [content|] eqn:R.
  2:{ destruct (unreadable _); unchanged. }
  cbn [ok].
  pose proof (fun target => insert_keeps_source (files s) (configPath (manager s)) target
                              content R) as K.
  rewrite R in K.
  assert (Done : forall path,
    let '(res, s') :=
      (await this <- getManager;
       await _ <- modifyManager (setPendingDeletes
                    (<[uuid := {| requestId := uuid; Store.profileId := profileId;
                                  backupPath := path; createdAt := now;
                                  expiresAt := now + 10 * 60 * 1000 |}]>
                       (pendingDeletes this)));
       await active <- getActiveProfileId;
       ret {| Prepared.deleteRequestId := uuid;
              Prepared.profile := Summary.profileSummary profile active;
              Prepared.backupPath := path;
              Prepared.expiresAt := toISOString (now + 10 * 60 * 1000);
              Prepared.confirmationText := "DELETE " ++ profileId;
              Prepared.warning := "Deletion is destructive. Confirm with the user before calling profiles-delete-confirm." |})
        {| manager := manager s; files := <[path := content]> (files s) |} in
    loadedConfig (manager s') = Some loaded /\
    activeProfileId (manager s') = activeProfileId (manager s) /\
    files s' !! configPath (manager s) = Some content /\
    match res with
    | inr prep =>
        exists loaded0 content0,
          Some loaded = Some loaded0 /\
          (1 < length (profiles (config loaded0)))%nat /\
          hasProfile (profiles (config loaded0)) profileId = true /\
          Some content = Some content0 /\
          files s' = <[Prepared.backupPath prep := content0]> (files s)
    | inl e =>
        manager s' = manager s /\
        (files s' = files s \/
         exists path0 content0,
           isWin32 = false /\ chmodError path0 = Some e /\
           Some content = Some content0 /\
           files s' = <[path0 := content0]> (files s))
    end).
  { intros path.
    unfold bindM at 1, getManager at 1, ok at 1. cbn beta iota.
    unfold bindM at 1, modifyManager at 1, ok at 1. cbn beta iota.
    unfold bindM at 1. rewrite getActiveProfileId_run, ensureLoaded_run.
    cbn [manager fst setPendingDeletes loadedConfig activeProfileId files].
    rewrite L, A. unfold ret. cbn beta iota.
    cbn [Prepared.backupPath files manager setPendingDeletes loadedConfig activeProfileId].
    rewrite L, K.
    split; [reflexivity|]. split; [reflexivity|]. split; [reflexivity|].
    exists loaded, content. repeat split; auto. apply hasProfile_find. congruence. }
  destruct isWin32 eqn:W; [apply Done|].
  destruct (chmodError _) as [e|] eqn:C; [|apply Done].
  cbn [manager files]. rewrite L, K.
  split; [reflexivity|]. split; [reflexivity|]. split; [reflexivity|].
  split; [reflexivity|]. right. eauto 8.
Qed.

(** X16. A delete request is good for one deletion: after a successful
    [confirmDeleteProfile] the request is gone, and any further call
    with its id fails and changes nothing. *)
Theorem delete_request_single_use (env : gmap string string) (now : Z)
    (requestId profileId text : string) (s s' : Sys) (v : Confirmed.t) :
  confirmDeleteProfile env now requestId profileId text s = (inr v, s') ->
  pendingDeletes (manager s') !! requestId = None /\
  forall env2 now2 profileId2 text2,
    confirmDeleteProfile env2 now2 requestId profileId2 text2 s'
    = (inl ("Delete request " ++ quoted requestId ++ " does not exist or expired"), s').
Proof.
  intros H. destruct (confirm_success _ _ _ _ _ _ _ _ H)
    as (pending & loaded & ptd & first & rest & raws & s1 & _ & _ & _ & _ & _ & _ & _ & _ & _
        & _ & R).
  cbn zeta in R. destruct R as (_ & -> & _).
  assert (G : pendingDeletes
                (manager {| manager := setPendingDeletes
                                         (delete requestId (pendingDeletes (manager s1)))
                                         (manager s1);
                            files := files s1 |}) !! requestId = None)
    by (cbn; apply lookup_delete_eq).
  split; [exact G|]. intros env2 now2 profileId2 text2.
  unfold confirmDeleteProfile. unfold bindM at 1, getManager at 1, ok at 1. cbn beta iota.
  now rewrite G.
Qed.

(** *** What the listings show *)

Lemma summary_of_public (p q : ProfileDefinition) (a : string) :
  publicPart p = publicPart q -> Summary.profileSummary p a = Summary.profileSummary q a.
Proof.
  unfold publicPart, Summary.profileSummary. intros E.
  injection E as -> -> -> -> -> -> -> E.
  destruct (auth p), (auth q); try discriminate; [reflexivity|].
  now injection E as ->.
Qed.

Lemma cons_eq {A} (x y : A) (l l' : list A) : x :: l = y :: l' -> x = y /\ l = l'.
Proof. now intros [= -> ->]. Qed.

Lemma summaries_of_public (ps qs : list ProfileDefinition) (a : string) :
  map publicPart ps = map publicPart qs ->
  map (fun p => Summary.profileSummary p a) ps = map (fun p => Summary.profileSummary p a) qs.
Proof.
  revert qs. induction ps as [|p ps IH]; intros [|q qs] E; try discriminate; [reflexivity|].
  cbn [map] in *. apply cons_eq in E as [E1 E2].
  now rewrite (summary_of_public p q a E1), (IH qs E2).
Qed.

(** X17. The listing and the search show nothing of the secrets: two managers
    whose profiles differ only by their passwords, their elevation
    passwords and the directories of their keys return the same listing
    and the same matches with the same scores. *)
Theorem listings_hide_secrets (s1 s2 : Sys) (l1 l2 : LoadedProfilesConfig) :
  loadedConfig (manager s1) = Some l1 ->
  loadedConfig (manager s2) = Some l2 ->
  activeProfileId (manager s1) = activeProfileId (manager s2) ->
  map publicPart (profiles (config l1)) = map publicPart (profiles (config l2)) ->
  fst (listProfiles s1) = fst (listProfiles s2) /\
  forall query, fst (findProfiles query s1) = fst (findProfiles query s2).
Proof.
  intros L1 L2 A P.
  assert (E : fst (listProfiles s1) = fst (listProfiles s2)).
  { unfold listProfiles. unfold bindM at 1 3. rewrite !ensureLoaded_run, L1, L2, A.
    destruct (truthyOpt (activeProfileId (manager s2))); [|reflexivity].
    unfold bindM, getManager, ok, ret. cbn beta iota. cbn [fst]. rewrite A.
    f_equal. now apply summaries_of_public. }
  split; [exact E|]. intros query. unfold findProfiles. cbv zeta. unfold bindM.
  destruct (listProfiles s1) as [[e1|all1] t1], (listProfiles s2) as [[e2|all2] t2];
    cbn [fst] in E |- *; try discriminate; [now injection E as ->|].
  injection E as ->. now destruct (negb _).
Qed.

End WithPlatform.

Import StoreScenario MoreScenario.

Lemma manager_stays_consistent_witness :
  consistent ready = true /\
  consistent (snd (useProfile (platform := posix) "gamma" ready)) = true.
Proof.
  assert (C : consistent ready = true) by (vm_compute; reflexivity).
  split; [exact C|].
  destruct (manager_stays_consistent (platform := posix) ∅) as (_ & _ & H & _).
  exact (H "gamma" ready C).
Defined.

Lemma active_profile_is_listed_witness :
  exists profile, getActiveProfile ready = (inr profile, ready) /\ id profile = "beta".
Proof.
  destruct (active_profile_is_listed (platform := posix) ready)
    as (loaded & profile & _ & G & _ & A & _); [vm_compute; reflexivity|].
  exists profile. split; [exact G|].
  vm_compute in A. now injection A.
Defined.

Lemma useProfile_runtime_only_witness :
  setActiveProfile (platform := posix) ∅ "gamma" false ready
  = useProfile (platform := posix) "gamma" ready.
Proof.
  destruct (useProfile_runtime_only (platform := posix) ∅ "gamma" ready) as [H _];
    [vm_compute; reflexivity | exact H].
Defined.

Lemma setActiveProfile_persists_witness :
  activeProfileId
    (manager (snd (setActiveProfile (platform := posix) ∅ "alpha" true ready)))
  = Some "alpha".
Proof.
  pose proof (setActiveProfile_persists (platform := posix) ∅ "alpha" ready) as H.
  destruct (setActiveProfile (platform := posix) ∅ "alpha" true ready) as [[e|v] s'] eqn:E.
  - vm_compute in E. discriminate E.
  - destruct H as (loaded & loaded' & _ & L' & _ & _ & H). cbn [snd]. apply H.
    assert (S : s' = snd (setActiveProfile (platform := posix) ∅ "alpha" true ready))
      by now rewrite E.
    rewrite S in L'. vm_compute in L'. injection L' as <-. vm_compute. reflexivity.
Defined.

(** On a host that refuses [chmod], [prepareDeleteProfile] throws after
    the copy has been written: no request is filed, and the backup stays. *)
Example backup_left_behind :
  let backup := "/etc/ssh-mcp/.ssh-mcp-backups/profiles.yaml.T+1000-000Z.delete-gamma.bak" in
  let '(res, s') :=
    prepareDeleteProfile (platform := guarded) 1000 1000 "req-1" "gamma" onGamma in
  res = inl ("EPERM: operation not permitted, chmod '" ++ backup ++ "'") /\
  manager s' = manager onGamma /\
  files onGamma !! backup = None /\
  files s' !! backup = files onGamma !! configFile /\
  is_Some (files s' !! backup).
Proof. vm_compute. repeat split; eauto. Qed.

Lemma delete_request_single_use_witness :
  pendingDeletes
    (manager (snd (confirmDeleteProfile (platform := posix) ∅ 2000 "req-1" "gamma"
                     "DELETE gamma" prepared))) !! "req-1" = None.
Proof.
  destruct (confirmDeleteProfile (platform := posix) ∅ 2000 "req-1" "gamma"
              "DELETE gamma" prepared) as [[e|v] s'] eqn:E.
  - vm_compute in E. discriminate E.
  - exact (proj1 (delete_request_single_use (platform := posix) _ _ _ _ _ _ _ _ E)).
Defined.

Lemma listings_hide_secrets_witness :
  fst (listProfiles (platform := posix) ready) = fst (listProfiles (platform := posix) rotated).
Proof.
  destruct (loadedConfig (manager ready)) as [l1|] eqn:L1; [|vm_compute in L1; discriminate L1].
  destruct (loadedConfig (manager rotated)) as [l2|] eqn:L2; [|vm_compute in L2; discriminate L2].
  refine (proj1 (listings_hide_secrets (platform := posix) ready rotated l1 l2 L1 L2 _ _)).
  - vm_compute. reflexivity.
  - vm_compute in L1. injection L1 as <-. vm_compute in L2. injection L2 as <-.
    vm_compute. reflexivity.
Defined.

End ManagerFacts.

(** ** The connection test *)
Module ProbeFacts.
Import JsString Conn JsValue Probe.

Lemma normalizeRetries_range (retries : option number) :
  0 <= normalizeRetries retries <= 5.
Proof.
  unfold normalizeRetries, MAX_TEST_RETRIES.
  destruct retries as [[q| | |]|]; lia.
Qed.

Lemma delayMs_range (k : Z) : 0 <= k -> 200 <= delayMs k <= 2000.
Proof.
  intros K. unfold delayMs.
  assert (1 <= 2 ^ k) by (apply Z.pow_pos_nonneg with (a := 2) in K; lia).
  lia.
Qed.

(** The loop from attempt [attempt] on, when [j] is the first attempt
    from there that stops by itself or is the last one allowed. *)
Lemma probeLoop_stops (script : nat -> Trace) (retries : Z) (j : nat) :
  forall remaining attempt attempts lastH lastA,
    (attempt <= j)%nat -> (j - attempt < remaining)%nat ->
    (forall k, (attempt <= k < j)%nat -> stops script k = false) ->
    (forall k, (attempt <= k < j)%nat -> Z.of_nat k <> retries) ->
    stops script j = true \/ Z.of_nat j = retries ->
    probeLoop script retries remaining attempt attempts lastH lastA
    = (attempts + Z.of_nat (S j - attempt),
       handshakeStep (testSshHandshakeAndAuth (script j)),
       authStep (testSshHandshakeAndAuth (script j)),
       map (fun k => delayMs (Z.of_nat k)) (seq attempt (j - attempt))).
Proof.
  induction remaining as [|remaining IH]; intros attempt attempts lastH lastA A R E N St; [lia|].
  cbn [probeLoop].
  destruct (Nat.eq_dec attempt j) as [->|D].
  - replace (S j - j)%nat with 1%nat by lia. replace (j - j)%nat with 0%nat by lia.
    cbn [seq map]. unfold stops in St. cbv zeta in St.
    destruct (ok (authStep _)) eqn:O; [reflexivity|]. cbn [orb] in St.
    destruct (negb (retryable _)) eqn:T; [reflexivity|]. cbn [orb].
    destruct St as [St|St]; [discriminate|].
    apply Z.eqb_eq in St. now rewrite St.
  - assert (L : (attempt < j)%nat) by lia.
    pose proof (E attempt ltac:(lia)) as F. unfold stops in F. cbv zeta in F.
    apply orb_false_iff in F as [O T]. rewrite O, T. cbn [orb].
    destruct (Z.eqb_spec (Z.of_nat attempt) retries) as [Q|Q]; [now apply N in Q; [|lia]|].
    rewrite (IH (S attempt) (attempts + 1) _ _); try lia; auto.
    + replace (j - attempt)%nat with (S (j - S attempt)) by lia. cbn [seq map].
      do 3 f_equal. lia.
    + intros k K. apply E. lia.
    + intros k K. apply N. lia.
Qed.

(** X18. [testSshConnection] makes no SSH attempt when the TCP probe fails.
    Otherwise it stops at the first attempt that authenticates or fails
    in a way that is not retried, and at attempt number [retries] at the
    latest, where [retries] is between 0 and 5: the result is that of
    the attempt at which it stops, and before retry number [k] it sleeps
    200 ms doubled [k] times, 2000 ms at most. *)
Theorem testSshConnection_attempts (config : SSHConfig) (retries : option number)
    (tcpElapsed : Z) (tcpOutcome : TcpOutcome) (script : nat -> Trace) :
  let '(result, delays) := testSshConnection config retries tcpElapsed tcpOutcome script in
  0 <= normalizeRetries retries <= 5 /\
  target result = formatTargetContext config /\
  (tcpOutcome <> TcpConnect ->
   attempts result = 0 /\ handshake result = skipped /\ auth result = skipped /\
   delays = []) /\
  (tcpOutcome = TcpConnect ->
   forall j,
     Z.of_nat j <= normalizeRetries retries ->
     (forall k, (k < j)%nat -> stops script k = false) ->
     stops script j = true \/ Z.of_nat j = normalizeRetries retries ->
     attempts result = Z.of_nat j + 1 /\
     handshake result = handshakeStep (testSshHandshakeAndAuth (script j)) /\
     auth result = authStep (testSshHandshakeAndAuth (script j)) /\
     delays = map (fun k => delayMs (Z.of_nat k)) (seq 0 j) /\
     Forall (fun d => 200 <= d <= 2000) delays).
Proof.
  unfold testSshConnection. pose proof (normalizeRetries_range retries) as B.
  destruct tcpOutcome as [|message|]; cbn [testTcpConnection ok negb].
  2,3: repeat split; try (intros; discriminate); try lia; now intros _.
  destruct (probeLoop _ _ _ _ _ _ _) as [[[n h] a] delays] eqn:P.
  cbn [target attempts handshake auth]. split; [exact B|]. split; [reflexivity|].
  split; [intros C; now contradiction C|]. intros _ j J E S.
  assert (Q := probeLoop_stops script (normalizeRetries retries) j
                (Datatypes.S (Z.to_nat (normalizeRetries retries))) 0 0
                notAttempted notAttempted).
  rewrite Q in P.
  - injection P as <- <- <- <-. rewrite Nat.sub_0_r.
    repeat split; try lia.
    apply List.Forall_forall. intros d I. apply in_map_iff in I as (k & <- & _).
    apply delayMs_range. lia.
  - lia.
  - lia.
  - intros k K. apply E. lia.
  - intros k K. lia.
  - exact S.
Qed.

(** X19. What one run of the SSH probe reports. When the authentication
    succeeds the handshake has succeeded too, no step carries an error
    and nothing is to be retried. A failed step carries an error. An
    authentication failure counts as a completed handshake and is never
    retried; a run that times out is to be retried. *)
Theorem probe_reports (t : Trace) :
  let r := testSshHandshakeAndAuth t in
  (ok (authStep r) = true ->
   ok (handshakeStep r) = true /\ error (handshakeStep r) = None /\
   error (authStep r) = None /\ retryable r = false) /\
  (ok (handshakeStep r) = false -> is_Some (error (handshakeStep r))) /\
  (ok (authStep r) = false -> is_Some (error (authStep r))) /\
  (forall err now,
      ending t = ErrorAt err now -> isAuthFailure err = true ->
      ok (handshakeStep r) = true /\ ok (authStep r) = false /\
      error (authStep r) = Some (message err) /\ retryable r = false) /\
  (forall now,
      ending t = TimeoutAt now ->
      ok (authStep r) = false /\ retryable r = true /\
      error (authStep r) = Some "SSH handshake timeout").
Proof.
  cbn zeta. unfold testSshHandshakeAndAuth, finish.
  destruct (ending t) as [now|err now|now];
    cbn [handshakeStep authStep retryable ok error].
  - split; [now intros _|]. repeat split; discriminate.
  - split; [discriminate|]. split; [|split; [eauto|split; [|discriminate]]].
    + intros H. rewrite H. eauto.
    + intros err0 now0 [= <- <-] A. rewrite A, orb_true_r. now repeat split.
  - split; [discriminate|]. split; [|split; [eauto|split; [discriminate|]]].
    + intros H. rewrite H. eauto.
    + intros now0 _. now repeat split.
Qed.

Lemma testSshConnection_attempts_witness :
  attempts (fst (testSshConnection Scenario.target None 5 TcpConnect SessionScenario.flaky)) = 3 /\
  snd (testSshConnection Scenario.target None 5 TcpConnect SessionScenario.flaky) = [200; 400].
Proof.
  pose proof (testSshConnection_attempts Scenario.target None 5 TcpConnect
                SessionScenario.flaky) as H.
  destruct (testSshConnection Scenario.target None 5 TcpConnect SessionScenario.flaky)
    as [result delays].
  destruct H as (_ & _ & _ & H).
  destruct (H eq_refl 2%nat) as (A & _ & _ & D & _).
  - vm_compute. discriminate.
  - intros [|[|k]] K; [reflexivity | reflexivity | lia].
  - left. reflexivity.
  - cbn [fst snd]. split; [exact A | exact D].
Defined.

Lemma probe_reports_witness :
  ok (handshakeStep (testSshHandshakeAndAuth (SessionScenario.denied 0))) = true /\
  retryable (testSshHandshakeAndAuth (SessionScenario.denied 0)) = false.
Proof.
  destruct (probe_reports (SessionScenario.denied 0)) as (_ & _ & _ & H & _).
  destruct (H Scenario.authFailed 90 eq_refl) as (A & _ & _ & R); [reflexivity|].
  split; [exact A | exact R].
Defined.

End ProbeFacts.

(** ** The su protocol *)
Module SuFacts.
Import JsString JsStringFacts Conn Su.

Lemma toLowerCase_app (a b : string) :
  toLowerCase (a ++ b) = toLowerCase a ++ toLowerCase b.
Proof.
  induction a as [|c a IH]; [reflexivity|].
  rewrite append_cons. cbn [toLowerCase]. rewrite IH. now rewrite append_cons.
Qed.

Lemma promptSeen_grows (a b : string) : promptSeen a = true -> promptSeen (a ++ b) = true.
Proof.
  unfold promptSeen. cbv zeta. rewrite toLowerCase_app. intros H.
  apply orb_true_iff in H as [H|H]; apply orb_true_iff; [left | right];
    now apply includes_app_left.
Qed.

Lemma hashSeen_grows (a b : string) : hashSeen a = true -> hashSeen (a ++ b) = true.
Proof. unfold hashSeen. apply includes_app_left. Qed.

Lemma settle_resolved (r : string + unit) (st : State) :
  settle r st = Some (inr tt) -> settled st = Some (inr tt) \/ r = inr tt.
Proof.
  unfold settle. destruct (settled st) as [old|]; [now left|]. intros [= ->]. now right.
Qed.

Lemma step_sound (target suPassword : string) (st : State) (e : Event) :
  Sound suPassword st -> Sound suPassword (step target suPassword st e).
Proof.
  intros H0. pose proof H0 as [W P L O E R S]. destruct e as [err|chunk| |]; cbn [step].
  - destruct (opened st) eqn:Op; [exact H0|].
    assert (C : closing st = false).
    { destruct (closing st); [|reflexivity]. discriminate (O eq_refl). }
    assert (Q : passwordSent st = false).
    { destruct (passwordSent st); [|reflexivity]. destruct (P eq_refl). congruence. }
    destruct err as [message|]; constructor; cbn; auto; try congruence;
      try (intros H; apply settle_resolved in H as [H|H]; [auto | discriminate]).
    rewrite W, Q, C. reflexivity.
  - destruct (listening st) eqn:Li; [|exact H0].
    pose proof (L eq_refl) as C. unfold onData. cbv zeta.
    set (buffer' := buffer st ++ chunk).
    set (sendNow := negb (passwordSent st) && promptSeen buffer').
    assert (W' : (if sendNow then (written st ++ [(suPassword ++ lineFeed)%string])%list
                  else written st)
                 = writes suPassword (passwordSent st || sendNow) (closing st)).
    { rewrite W, C. unfold sendNow, writes.
      destruct (passwordSent st); cbn [negb andb orb]; [reflexivity|].
      now destruct (promptSeen buffer'). }
    assert (P' : passwordSent st || sendNow = true ->
                 closing st = true /\ promptSeen buffer' = true).
    { intros Q. split; [exact C|]. unfold sendNow in Q.
      destruct (passwordSent st) eqn:Q0.
      - apply promptSeen_grows. now apply P.
      - cbn in Q. exact Q. }
    assert (E' : elevated st = true ->
                 passwordSent st || sendNow = true /\ hashSeen buffer' = true).
    { intros H. destruct (E H) as [Q G]. rewrite Q. split; [reflexivity|].
      now apply hashSeen_grows. }
    destruct ((passwordSent st || sendNow) && hashSeen buffer') eqn:G;
      [|destruct (failureSeen buffer')]; constructor; cbn; auto; try discriminate.
    + intros _. now apply andb_true_iff in G.
    + intros H. apply settle_resolved in H as [H|H]; [auto | discriminate].
  - destruct (closing st) eqn:C; [|exact H0].
    destruct (negb (elevated st)) eqn:N; constructor; cbn; auto.
    intros H. apply settle_resolved in H as [H|H]; [auto | discriminate].
  - destruct (timerArmed st); [|exact H0].
    constructor; cbn; auto.
    intros H. apply settle_resolved in H as [H|H]; [auto | discriminate].
Qed.

Lemma run_sound (target suPassword : string) (events : list Event) :
  Sound suPassword (run target suPassword events).
Proof.
  unfold run.
  assert (G : forall st, Sound suPassword st ->
                         Sound suPassword (fold_left (step target suPassword) events st)).
  { induction events as [|e events IH]; intros st H; [exact H|].
    cbn [fold_left]. apply IH. now apply step_sound. }
  apply G. constructor; cbn; auto; discriminate.
Qed.

(** X20. Whatever the shell sends, the protocol of [ensureElevated] writes
    the password at most once, after the [su -] command and only once
    the output has shown a password prompt. The manager is marked
    elevated, and the promise resolved, only after the password has been
    written and the output has shown a hash sign. The test for the hash
    sign reads the whole output: when the chunk that completes the prompt
    arrives on an output that already holds a hash sign, the promise
    resolves with that chunk. *)
Theorem su_protocol (target suPassword : string) (events : list Event) :
  let st := run target suPassword events in
  written st = writes suPassword (passwordSent st) (closing st) /\
  (passwordSent st = true -> promptSeen (buffer st) = true) /\
  (elevated st = true -> passwordSent st = true /\ hashSeen (buffer st) = true) /\
  (settled st = Some (inr tt) -> elevated st = true /\ shell st = true) /\
  (forall text,
      promptSeen text = true -> hashSeen text = true ->
      settled (run target suPassword [ShellCallback None; Data text]) = Some (inr tt)).
Proof.
  cbn zeta. destruct (run_sound target suPassword events) as [W P L O E R S].
  split; [exact W|]. split; [intros Q; now apply P|]. split; [exact E|].
  split; [intros H; rewrite S; auto|].
  intros text Q H. unfold run. cbn [fold_left].
  set (st1 := step target suPassword start (ShellCallback None)).
  assert (B : buffer st1 = "") by reflexivity.
  assert (N : passwordSent st1 = false) by reflexivity.
  assert (U : settled st1 = None) by reflexivity.
  assert (Li : listening st1 = true) by reflexivity.
  clearbody st1. cbn [step]. rewrite Li. unfold onData. cbv zeta.
  rewrite B, N. change ("" ++ text) with text. rewrite Q, H.
  cbn [negb andb orb settled]. unfold settle. now rewrite U.
Qed.

Lemma su_protocol_witness :
  written (run "profileId=alpha host=10.0.0.5 port=22" "root-secret"
             SessionScenario.suDialogue)
  = ["su -" ++ lineFeed; "root-secret" ++ lineFeed] /\
  settled (run "profileId=alpha host=10.0.0.5 port=22" "root-secret"
             SessionScenario.suDialogue) = Some (inr tt).
Proof.
  destruct (su_protocol "profileId=alpha host=10.0.0.5 port=22" "root-secret"
              SessionScenario.suDialogue) as (W & _ & _ & _ & _).
  split; [|vm_compute; reflexivity].
  rewrite W. vm_compute. reflexivity.
Defined.

End SuFacts.

(** ** Closing and reconnecting *)
Module SessionFacts.
Import JsString JsStringFacts Conn Exec Session.

(** X21. After [close] there is no connection: [isConnected] is false and a
    command is rejected at once, with the target in the message. If
    there was a connection it has been ended, with the su shell when
    there was one, and the manager is no longer elevated; the
    configuration is kept. A second [close] does nothing. *)
Theorem close_forgets (m : Manager) :
  let '(m', effects) := close m in
  conn m' = None /\ isConnected m' = false /\ sshConfig m' = sshConfig m /\
  close m' = (m', []) /\
  (conn m <> None ->
   suShell m' = false /\ In ConnEnd effects /\
   (suShell m = true -> isElevated m' = false /\ effects = [SuShellEnd; ConnEnd])) /\
  (forall timeoutMs events,
      execSshCommandWithConnection m' timeoutMs events
      = Some (Rejected ("SSH connection not established ("
                        ++ formatTargetContext (sshConfig m) ++ ")"))).
Proof.
  unfold close. destruct (conn m) as [alive|] eqn:C.
  - destruct (suShell m) eqn:S; cbn [conn isConnected sshConfig suShell isElevated];
      unfold isConnected, execSshCommandWithConnection; cbn;
      repeat split; auto; discriminate.
  - unfold isConnected, execSshCommandWithConnection. rewrite C.
    split; [reflexivity|]. split; [reflexivity|]. split; [reflexivity|].
    split; [reflexivity|]. split; [|reflexivity].
    intros N. now contradiction N.
Qed.

Lemma close_forgets_witness :
  fst (close SessionScenario.elevatedManager)
  = {| sshConfig := Scenario.target; conn := None; suShell := false; isElevated := false;
       suPromise := SuIdle |}.
Proof.
  pose proof (close_forgets SessionScenario.elevatedManager) as H.
  destruct (close SessionScenario.elevatedManager) as [m' effects] eqn:E.
  destruct H as (C & _ & G & _ & H & _).
  destruct H as (S & _ & H); [discriminate|]. destruct (H eq_refl) as [I _].
  assert (P : suPromise m' = SuIdle) by (vm_compute in E; now injection E as <- _).
  cbn [fst]. destruct m' as [c0 c1 s0 i0 p0]. cbn in *. now subst.
Defined.

Lemma connectOnce_elevated tm m n a :
  isElevated m = true -> suShell m = true ->
  isElevated (snd (fst (connectOnce tm m n a))) = true /\
  suShell (snd (fst (connectOnce tm m n a))) = true /\
  ~ In ActOpenSuShell (snd (connectOnce tm m n a)).
Proof.
  intros I S.
  assert (R : forall o,
             isElevated (snd (fst (onReady tm (setConn m (Some true)) n o))) = true /\
             suShell (snd (fst (onReady tm (setConn m (Some true)) n o))) = true /\
             ~ In ActOpenSuShell (snd (onReady tm (setConn m (Some true)) n o))).
  { intros o. unfold onReady. destruct (truthyOpt _ && _).
    - unfold ensureElevated. cbn [isElevated suShell setConn]. rewrite I, S.
      cbn. intuition discriminate.
    - cbn. intuition discriminate. }
  unfold connectOnce.
  destruct (transport a); cbn [fst snd setConn isElevated suShell].
  - apply R.
  - cbn. intuition discriminate.
  - cbn. intuition discriminate.
  - unfold awaitsDialogue. cbn [isElevated suShell setConn]. rewrite I, S.
    cbn [andb negb]. rewrite andb_false_r. apply R.
Qed.

Lemma retryLoop_elevated tm script remaining :
  forall attempt lastError m,
    isElevated m = true -> suShell m = true ->
    isElevated (snd (fst (retryLoop tm script remaining attempt lastError m))) = true /\
    suShell (snd (fst (retryLoop tm script remaining attempt lastError m))) = true /\
    ~ In ActOpenSuShell (snd (retryLoop tm script remaining attempt lastError m)).
Proof.
  induction remaining as [|remaining IH]; intros attempt lastError m I S.
  - cbn. auto.
  - cbn [retryLoop].
    destruct (connectOnce_elevated tm m attempt (script attempt) I S) as (I1 & S1 & A1).
    destruct (connectOnce tm m attempt (script attempt)) as [[[err|[]] m1] acts];
      cbn [fst snd] in *; [|auto].
    destruct (negb _ || _); [cbn; auto|].
    specialize (IH (Datatypes.S attempt) err m1 I1 S1).
    destruct (retryLoop tm script remaining (Datatypes.S attempt) err m1) as [[r m2] acts'].
    cbn [fst snd] in *. destruct IH as (I2 & S2 & A2). repeat split; auto.
    intros H. apply in_app_or in H as [H|[H|H]]; [auto | discriminate | auto].
Qed.

(** X22. When the transport drops, the manager forgets the connection but
    not the su shell that ran over it: [close] then does nothing, and a
    later [connect] opens no new su shell, so that the manager stays
    marked as elevated and its commands take the path of the su shell. *)
Theorem elevation_survives_reconnect (tm : option string) (script : nat -> Attempt)
    (m : Manager) :
  isElevated m = true -> suShell m = true ->
  close (transportDropped m) = (transportDropped m, []) /\
  let '(r, m', acts) := connect tm script (transportDropped m) in
  isElevated m' = true /\ suShell m' = true /\ ~ In ActOpenSuShell acts /\
  (forall timeoutMs events,
      conn m' <> None ->
      execSshCommandWithConnection m' timeoutMs events
      = settlement (runEvents (formatTargetContext (sshConfig m')) timeoutMs true
                      (start true) events)).
Proof.
  intros I S. split; [reflexivity|].
  unfold connect, connectWithRetry.
  change (isConnected (transportDropped m)) with false. cbv iota.
  pose proof (retryLoop_elevated tm script
                (Datatypes.S (length DEFAULT_CONNECT_RETRY_DELAYS_MS)) 0 undefinedError
                (transportDropped m) I S) as H.
  destruct (retryLoop _ _ _ _ _ _) as [[r m'] acts]. cbn [fst snd] in H.
  destruct H as (I' & S' & A). repeat split; auto.
  intros timeoutMs events C. unfold execSshCommandWithConnection.
  destruct (conn m'); [now rewrite S' | now contradiction C].
Qed.

Lemma elevation_survives_reconnect_witness :
  let '(r, m', acts) :=
    connect None (fun _ => {| transport := Ready; elevation := SuGranted |})
      (transportDropped SessionScenario.elevatedManager) in
  r = inr tt /\ suShell m' = true /\ ~ In ActOpenSuShell acts.
Proof.
  destruct (elevation_survives_reconnect None
              (fun _ => {| transport := Ready; elevation := SuGranted |})
              SessionScenario.elevatedManager eq_refl eq_refl) as [_ H].
  destruct (connect None _ _) as [[r m'] acts] eqn:E.
  destruct H as (_ & S & A & _). repeat split; auto.
  vm_compute in E. now injection E as <- _ _.
Defined.





End SessionFacts.

(** ** The elevated path *)
Module ElevatedFacts.
Import JsString JsStringFacts Conn Exec Elevated Tools.

Section Path.
Variables (target : string) (timeoutMs : Z).

Local Abbreviation step := (Exec.step target timeoutMs true).
Local Abbreviation run := (runEvents target timeoutMs true).

Lemma includes_prefix_false (a b sub : string) :
  includes (a ++ b) sub = false -> includes a sub = false.
Proof.
  intros H. destruct (includes a sub) eqn:E; [|reflexivity].
  now rewrite (includes_app_left _ b _ E) in H.
Qed.

Lemma run_waiting (es : list Event) :
  forall r,
    waiting r -> noTimer es = true ->
    includes (buffer r ++ shellText es) "#" = false ->
    waiting (run r es) /\ buffer (run r es) = buffer r ++ shellText es.
Proof.
  induction es as [|e es IH]; intros r W T H.
  - cbn. now rewrite append_empty_r.
  - cbn [noTimer forallb] in T. apply andb_true_iff in T as [Te T].
    destruct W as (R & S & L & O).
    assert (K : forall r', waiting r' -> buffer r' = buffer r -> shellText (e :: es) = shellText es ->
                           waiting (run r' es) /\ buffer (run r' es) = buffer r ++ shellText (e :: es)).
    { intros r' W' B E. rewrite E. rewrite <- B. apply IH; [exact W' | exact T|].
      rewrite B, <- E. exact H. }
    destruct e as [|err|chunk|chunk|code|chunk]; try discriminate Te;
      cbn [runEvents fold_left Exec.step].
    + cbn [orb]. apply K; [now repeat split | reflexivity | reflexivity].
    + rewrite O. apply K; [now repeat split | reflexivity | reflexivity].
    + rewrite O. apply K; [now repeat split | reflexivity | reflexivity].
    + rewrite O. cbn [negb]. apply K; [now repeat split | reflexivity | reflexivity].
    + cbn [shellText] in H |- *. unfold onShellData. rewrite L. cbn [negb].
      rewrite <- append_assoc in H.
      rewrite (includes_prefix_false _ _ _ H). cbn [negb].
      match goal with
      | |- waiting (fold_left _ es ?r1) /\ _ =>
          destruct (IH r1) as [W1 B1]; [now repeat split | exact T | exact H |]
      end.
      split; [exact W1|]. unfold runEvents in B1. rewrite B1. cbn [buffer].
      now rewrite append_assoc.
Qed.

Lemma step_resolved (r : Run) (e : Event) :
  isResolved r = true ->
  isResolved (step r e) = true /\ settlement (step r e) = settlement r.
Proof.
  intros R. destruct e as [|err|chunk|chunk|code|chunk]; cbn [Exec.step orb].
  - now rewrite R.
  - auto.
  - destruct (streamOpen r); auto.
  - destruct (streamOpen r); auto.
  - destruct (streamOpen r); cbn [negb]; [now rewrite R | auto].
  - unfold onShellData. destruct (listening r); cbn [negb]; [|auto].
    destruct (includes _ "#"); cbn [negb isResolved settlement]; [|auto].
    now rewrite R.
Qed.

Lemma run_resolved (es : list Event) :
  forall r, isResolved r = true ->
            isResolved (run r es) = true /\ settlement (run r es) = settlement r.
Proof.
  induction es as [|e es IH]; intros r R; [auto|].
  change (run r (e :: es)) with (run (step r e) es).
  destruct (step_resolved r e R) as [R1 S1].
  destruct (IH _ R1) as [R2 S2]. split; [exact R2 | now rewrite S2].
Qed.

End Path.

(** X23. On the elevated path the su shell is the only source: the promise
    stays pending while its output holds no hash sign, whatever the
    channel reports, and resolves with the chunk that brings the first
    one, with the lines between the first and the last of the output so
    far; what comes later changes nothing. A command sent with a
    description holds a hash sign, so that an output which repeats the
    command line settles the call. *)
Theorem elevated_resolves_on_hash (m : Manager) (timeoutMs : Z)
    (before : list Event) (chunk : string) (after : list Event) :
  conn m <> None -> suShell m = true -> noTimer before = true ->
  includes (shellText before) "#" = false ->
  execSshCommandWithConnection m timeoutMs before = None /\
  (includes (shellText before ++ chunk) "#" = true ->
   execSshCommandWithConnection m timeoutMs (before ++ ShellData chunk :: after)
   = Some (Resolved (replyOf (shellText before ++ chunk)))) /\
  (forall command description x y,
      truthy description = true ->
      includes (x ++ appendDescription command (Some description) ++ y) "#" = true).
Proof.
  intros C S T H. unfold execSshCommandWithConnection.
  destruct (conn m) as [alive|]; [|now contradiction C]. rewrite S.
  set (target := formatTargetContext (sshConfig m)).
  destruct (run_waiting target timeoutMs before (start true)) as [W B];
    [now repeat split | exact T | exact H |].
  change (buffer (start true) ++ shellText before) with (shellText before) in B.
  split; [apply W|]. split.
  - intros G. unfold runEvents. rewrite fold_left_app. cbn [fold_left].
    fold (runEvents target timeoutMs true (start true) before).
    set (r := runEvents target timeoutMs true (start true) before) in *.
    destruct W as (R & U & L & O).
    assert (E : Exec.step target timeoutMs true r (ShellData chunk)
                = Exec.step target timeoutMs true r (ShellData chunk)) by reflexivity.
    destruct (run_resolved target timeoutMs after
                (Exec.step target timeoutMs true r (ShellData chunk))) as [_ F].
    + cbn [Exec.step]. unfold onShellData. rewrite L, B, G, R. reflexivity.
    + unfold runEvents in F. rewrite F.
      cbn [Exec.step]. unfold onShellData. rewrite L, B, G, R. reflexivity.
  - intros command description x y D. unfold appendDescription. rewrite D.
    rewrite !append_assoc.
    change (" # " ++ ?z) with (String " " (String "#" (String " " z))).
    apply includes_app_right, includes_app_right.
    change (String " " (String "#" ?z)) with (" " ++ "#" ++ z).
    apply includes_middle.
Qed.

Lemma elevated_resolves_on_hash_witness :
  execSshCommandWithConnection SessionScenario.elevatedManager 60000 ServerScenario.echoed
  = Some (Resolved "").
Proof.
  destruct (elevated_resolves_on_hash SessionScenario.elevatedManager 60000 []
              "uptime # load check"
              [ShellData (newline ++ " 10:02 up 3 days" ++ newline ++ "root@box:~# ")])
    as (_ & H & _); [discriminate | reflexivity | reflexivity | reflexivity |].
  exact (H eq_refl).
Defined.

End ElevatedFacts.

(** ** The sudo tool *)
Module ToolFacts.
Import JsString JsStringFacts TextLemmas JsValue CommandUtils Tools UtilsFacts.

Lemma escaped_segments (text : string) :
  singleQuoted (escapeQuotes text)
  = join (String backslash (String singleQuote ""))
      (map singleQuoted (split singleQuote text)).
Proof.
  unfold singleQuoted, escapeQuotes, quoteEscape. rewrite append_cons.
  exact (quote_segments singleQuote (String backslash (String singleQuote "")) text).
Qed.

(** X24. In the command line that the sudo tool builds, the command, and
    the password when there is one, each stand as single-quoted segments
    that hold no single quote, separated by a single quote behind a
    backslash; the segments, with a single quote between them, are the
    text. Without a password sudo is called with [-n], and never
    prompts. *)
Theorem wrapSudo_quoted (sudoPassword : option string) (command : string) :
  let quotedText text :=
    join (String backslash (String singleQuote ""))
      (map singleQuoted (split singleQuote text)) in
  Forall (fun seg => indexOf singleQuote seg = None) (split singleQuote command) /\
  join (String singleQuote "") (split singleQuote command) = command /\
  (truthyOpt sudoPassword = false ->
   wrapSudo sudoPassword command = "sudo -n sh -c " ++ quotedText command) /\
  (forall pwd,
      sudoPassword = Some pwd -> truthy pwd = true ->
      join (String singleQuote "") (split singleQuote pwd) = pwd /\
      wrapSudo sudoPassword command
      = "printf '%s\n' " ++ quotedText pwd ++ " | sudo -p "
        ++ String doubleQuote (String doubleQuote "") ++ " -S sh -c " ++ quotedText command).
Proof.
  cbn zeta. split; [apply split_free|]. split; [apply join_split|]. split.
  - intros T. unfold wrapSudo. destruct sudoPassword as [pwd|]; cbn in T; rewrite ?T;
      now rewrite escaped_segments.
  - intros pwd -> T. split; [apply join_split|].
    unfold wrapSudo. rewrite T. now rewrite !escaped_segments.
Qed.

Lemma wrapSudo_quoted_witness :
  wrapSudo (Some "pa'ss") "echo 'hi'"
  = "printf '%s\n' 'pa'\''ss' | sudo -p " ++ String doubleQuote (String doubleQuote "")
    ++ " -S sh -c 'echo '\''hi'\'''".
Proof.
  destruct (wrapSudo_quoted (Some "pa'ss") "echo 'hi'") as (_ & _ & _ & H).
  destruct (H "pa'ss" eq_refl eq_refl) as [_ ->]. vm_compute. reflexivity.
Defined.

End ToolFacts.

(** ** The connection cache of the server and the SSH configuration *)
Module ServerFacts.
Import JsString JsStringFacts Json Res Types Loader Store Manager Accessors CommandUtils
       Server StoreFacts ManagerFacts.

Section WithPlatform.
Context {platform : Platform}.

Lemma portSchema_range (v : json) (n : Z) : portSchema v = inr n -> 1 <= n <= 65535.
Proof.
  unfold portSchema. destruct (positiveIntLike v) as [e|k] eqn:P; [discriminate|].
  cbn [Res.bind]. destruct (k <=? 65535) eqn:U; [|discriminate].
  intros H. injection H as <-.
  unfold positiveIntLike in P. destruct (intLike v) as [e|j]; [discriminate|].
  cbn [Res.bind] in P. destruct (0 <? j) eqn:L; [|discriminate].
  injection P as <-. lia.
Qed.

Lemma profileSchema_port (v : json) (p : ProfileDefinition) :
  profileSchema v = inr p -> 1 <= port p <= 65535.
Proof.
  unfold profileSchema. intros H. bind_inv H. injection H as <-. cbn [port].
  match goal with
  | E : withDefault portSchema 22 ?x = inr _ |- _ =>
      destruct x as [raw|]; unfold withDefault in E
  end.
  - eapply portSchema_range; eauto.
  - match goal with E : ok _ = inr _ |- _ => injection E as <- end. lia.
Qed.

Lemma validated_ports (env disk : gmap string string) (rawConfig : obj) (filePath : string)
    (cfg : ProfilesConfig) :
  validateRawProfilesConfig env disk rawConfig filePath = inr cfg ->
  forall p, In p (profiles cfg) -> 1 <= port p <= 65535.
Proof.
  unfold validateRawProfilesConfig. intros H. bind_inv H. injection H as <-.
  match goal with E : profilesConfigSchema _ = inr _ |- _ => revert E end.
  unfold profilesConfigSchema. intros H. bind_inv H. injection H as <-.
  cbn [profiles]. intros p I.
  match goal with
  | E : required _ (getProp "profiles" _) = inr _ |- _ =>
      apply required_inv in E as [x [_ M]]
  end.
  destruct x as [| | | |items|]; try discriminate.
  destruct items as [|item items]; [discriminate|].
  destruct (mapM_In _ _ _ M p I) as [raw [_ F]].
  exact (profileSchema_port _ _ F).
Qed.

Lemma validateProfileAuthFields_passwords (disk : gmap string string) (filePath : string)
    (ps : list ProfileDefinition) :
  validateProfileAuthFields disk filePath ps = inr tt ->
  forall p password,
    In p ps -> auth p = PasswordAuth password ->
    truthy password = true /\ trim password <> "".
Proof.
  induction ps as [|q ps IH]; intros H p password I A; [destruct I|].
  cbn [validateProfileAuthFields] in H. bind_inv H.
  destruct I as [->|I]; [|exact (IH H p password I A)].
  match goal with E : validateProfileAuth _ _ _ = inr _ |- _ => revert E end.
  unfold validateProfileAuth. rewrite A.
  destruct (truthy password); [|discriminate]. cbn [negb orb].
  destruct (String.eqb_spec (trim password) ""); [discriminate|]. auto.
Qed.

Lemma validated_passwords (env disk : gmap string string) (rawConfig : obj) (filePath : string)
    (cfg : ProfilesConfig) :
  validateRawProfilesConfig env disk rawConfig filePath = inr cfg ->
  forall p password,
    In p (profiles cfg) -> auth p = PasswordAuth password ->
    truthy password = true /\ trim password <> "".
Proof.
  unfold validateRawProfilesConfig. intros H. bind_inv H. injection H as <-.
  match goal with
  | E : validateProfileAuthFields _ _ _ = inr ?u |- _ =>
      destruct u; exact (validateProfileAuthFields_passwords _ _ _ E)
  end.
Qed.

Lemma sanitizePassword_truthy (p : string) :
  truthy p = true -> sanitizePassword (Some p) = Some p.
Proof. destruct p; [discriminate | reflexivity]. Qed.

(** What [buildSshConfigFromProfile] copies from the profile whenever it
    returns. *)
Lemma buildSshConfigFromProfile_fields (disk : gmap string string) (p : ProfileDefinition)
    (path : string) (c : Conn.SSHConfig) :
  buildSshConfigFromProfile disk p path = inr c ->
  Conn.profileId c = Some (id p) /\ Conn.host c = host p /\
  Conn.port c = port p /\ Conn.username c = user p.
Proof.
  unfold buildSshConfigFromProfile.
  destruct (auth p) as [password|keyPath].
  - intros H. injection H as <-. auto.
  - destruct (readFile disk (resolveKeyPath keyPath path)); [discriminate|].
    intros H. injection H as <-. auto.
Qed.

(** X25. The validation does not promise that the credentials load. For
    every profile of a configuration that has passed
    [validateRawProfilesConfig] the port lies between 1 and 65535. A
    profile with a password yields an SSH configuration that names the
    profile and its host and holds that password, which is not empty, and
    no key. For a profile with a key the validation has seen that the
    path exists, which is all that [access] tells: where the path is a
    file that can be read, the SSH configuration holds its content and no
    password; where it is a directory or cannot be read,
    [buildSshConfigFromProfile] throws, with the error of [readFile] in
    its message. *)
Theorem validated_profile_credentials (env disk : gmap string string) (rawConfig : obj)
    (filePath : string) (cfg : ProfilesConfig) (p : ProfileDefinition) :
  validateRawProfilesConfig env disk rawConfig filePath = inr cfg ->
  In p (profiles cfg) ->
  1 <= port p <= 65535 /\
  match auth p with
  | PasswordAuth password =>
      password <> "" /\
      exists c,
        buildSshConfigFromProfile disk p filePath = inr c /\
        Conn.profileId c = Some (id p) /\ Conn.host c = host p /\
        Conn.username c = user p /\ Conn.port c = port p /\
        Conn.password c = Some password /\ Conn.privateKey c = None
  | KeyAuth keyPath =>
      access disk (resolveKeyPath keyPath filePath) = true /\
      match disk !! resolveKeyPath keyPath filePath with
      | Some content =>
          exists c,
            buildSshConfigFromProfile disk p filePath = inr c /\
            Conn.profileId c = Some (id p) /\ Conn.host c = host p /\
            Conn.username c = user p /\ Conn.port c = port p /\
            Conn.password c = None /\ Conn.privateKey c = Some content
      | None =>
          exists message,
            unreadable (resolveKeyPath keyPath filePath) = Some message /\
            buildSshConfigFromProfile disk p filePath
            = inl ("Failed to load SSH credentials for profile " ++ quoted (id p)
                   ++ " (" ++ host p ++ ":" ++ pretty (port p) ++ "): " ++ message)
      end
  end.
Proof.
  intros V I.
  pose proof (validated_ports _ _ _ _ _ V p I) as R.
  pose proof (validated_passwords _ _ _ _ _ V p) as P.
  destruct (validated _ _ _ _ _ V) as (_ & _ & _ & K). specialize (K p).
  split; [exact R|].
  unfold buildSshConfigFromProfile.
  destruct (auth p) as [password|keyPath].
  - destruct (P password I eq_refl) as [T _].
    rewrite (sanitizePassword_truthy _ T).
    split; [intros ->; discriminate T|].
    eexists. split; [reflexivity|]. cbn. repeat split; auto.
  - specialize (K keyPath I eq_refl). split; [exact K|].
    unfold access in K. unfold readFile.
    destruct (disk !! resolveKeyPath keyPath filePath) as [content|] eqn:F.
    + eexists. split; [reflexivity|]. cbn. repeat split; auto.
    + cbn [orb] in K. rewrite bool_decide_eq_false_2 in K by (intros [x X]; discriminate X).
      cbn [orb] in K. apply bool_decide_eq_true_1 in K as [message U].
      exists message. split; [exact U|]. rewrite U. reflexivity.
Qed.

Lemma getActiveProfileId_found (s : Sys) (active : string) :
  consistent s = true ->
  activeProfileId (manager s) = Some active ->
  getActiveProfileId s = (inr active, s).
Proof.
  intros C A. destruct (consistent_inv s C) as (loaded & active' & L & A' & _ & _ & _ & K).
  rewrite A in A'. injection A' as <-.
  rewrite getActiveProfileId_run, ensureLoaded_run, L, A. cbn [truthyOpt]. rewrite K.
  reflexivity.
Qed.

(** X26. The tool [profiles-use] on a started server with a consistent
    manager. When the switch fails, the cached connection is left as it
    is. When it succeeds, the cached connection manager is closed and
    dropped, the reply names the profile that is now active, and the next
    [getConnectionManager], if it returns, returns a new, unconnected and
    unelevated manager for that profile, and caches it. *)
Theorem profilesUse_retargets (env : gmap string string) (profileId : string) (srv : State) :
  consistent (store srv) = true ->
  started srv = true ->
  match profilesUse env profileId srv with
  | (inl _, srv', effects) =>
      connectionManager srv' = connectionManager srv /\ effects = []
  | (inr reply, srv', effects) =>
      connectionManager srv' = None /\
      effects = match connectionManager srv with
                | Some m => snd (Session.close m)
                | None => []
                end /\
      exists profile,
        getActiveProfile (store srv') = (inr profile, store srv') /\
        id profile = fst reply /\
        forall m srv'',
          getConnectionManager srv' = (inr m, srv'') ->
          Conn.profileId (Conn.sshConfig m) = Some (fst reply) /\
          Conn.host (Conn.sshConfig m) = host profile /\
          Conn.username (Conn.sshConfig m) = user profile /\
          Conn.conn m = None /\ Conn.suShell m = false /\ Conn.isElevated m = false /\
          connectionManager srv'' = Some m
  end.
Proof.
  intros C St. unfold profilesUse.
  pose proof (setActiveProfile_consistent env profileId true (store srv) C) as C1.
  destruct (setActiveProfile env profileId true (store srv)) as [[e|summary] s1];
    cbn [snd] in C1.
  - split; reflexivity.
  - destruct (getActiveProfile_found s1 C1) as (loaded & profile & L & G & F & A & K).
    pose proof (getActiveProfileId_found s1 _ C1 A) as E.
    assert (Q : forall m srv'',
      getConnectionManager {| store := s1; started := started srv;
                              connectionManager := None |} = (inr m, srv'') ->
      Conn.profileId (Conn.sshConfig m) = Some (id profile) /\
      Conn.host (Conn.sshConfig m) = host profile /\
      Conn.username (Conn.sshConfig m) = user profile /\
      Conn.conn m = None /\ Conn.suShell m = false /\ Conn.isElevated m = false /\
      connectionManager srv'' = Some m).
    { intros m srv''. unfold getConnectionManager. cbn [started connectionManager store].
      rewrite St. cbn [negb]. unfold buildSshConfig. cbn [store]. rewrite G.
      cbn [fst Res.bind].
      destruct (fst (getConfigPath s1)) as [e|path]; cbn [Res.bind]; [discriminate|].
      destruct (buildSshConfigFromProfile (files s1) profile path) as [e|c] eqn:B;
        [discriminate|].
      destruct (buildSshConfigFromProfile_fields _ _ _ _ B) as (P1 & P2 & _ & P4).
      intros H. injection H as <- <-. cbn. repeat split; auto. }
    unfold closeConnectionManager, withStore. cbn [connectionManager store started].
    destruct (connectionManager srv) as [m|] eqn:CM; cbn [store]; rewrite E;
      cbn [store started connectionManager fst];
      (split; [reflexivity|]; split; [reflexivity|];
       exists profile; split; [exact G|]; split; [reflexivity|]; exact Q).
Qed.

End WithPlatform.

Import StoreScenario MoreScenario ServerScenario.

Lemma validated_profile_credentials_witness :
  isOk (validateRawProfilesConfig (platform := guarded) ∅ ∅ keyDocument configFile) = true /\
  buildSshConfigFromProfile (platform := guarded) ∅ keyProfile configFile
  = inl ("Failed to load SSH credentials for profile " ++ quoted "ops"
         ++ " (ops.example.com:22): EISDIR: illegal operation on a directory, read").
Proof.
  destruct (validateRawProfilesConfig (platform := guarded) ∅ ∅ keyDocument configFile)
    as [e|cfg] eqn:V; [vm_compute in V; discriminate V|].
  split; [reflexivity|].
  destruct (validated_profile_credentials (platform := guarded) ∅ ∅ keyDocument configFile cfg
              keyProfile V) as (_ & _ & message & U & B).
  - vm_compute in V. injection V as <-. left. reflexivity.
  - vm_compute in U. injection U as <-. exact B.
Defined.

Lemma profilesUse_retargets_witness :
  snd (fst (profilesUse (platform := posix) ∅ "alpha" serving))
  = {| store := snd (setActiveProfile (platform := posix) ∅ "alpha" true ready);
       started := true; connectionManager := None |} /\
  snd (profilesUse (platform := posix) ∅ "alpha" serving) = [Session.ConnEnd].
Proof.
  pose proof (profilesUse_retargets (platform := posix) ∅ "alpha" serving) as H.
  destruct (profilesUse (platform := posix) ∅ "alpha" serving) as [[[e|reply] srv'] effects] eqn:E.
  - vm_compute in E. discriminate E.
  - destruct H as (_ & H & _); [vm_compute; reflexivity | reflexivity |].
    cbn [fst snd]. split; [|rewrite H; vm_compute; reflexivity].
    assert (S : srv' = snd (fst (profilesUse (platform := posix) ∅ "alpha" serving)))
      by now rewrite E.
    rewrite S. vm_compute. reflexivity.
Defined.

End ServerFacts.

(** ** The one-shot [execSshCommand] *)
Module OneShotFacts.
Import JsString JsStringFacts Conn Exec CommandUtils OneShot.

Section Call.
Variables (target command : string) (stdin : option string) (timeoutMs : Z).

Local Abbreviation step := (OneShot.step target command stdin timeoutMs).
Local Abbreviation run := (OneShot.runEvents target command stdin timeoutMs).

Ltac fields :=
  cbn [endAbort endConn settle isResolved settlement timerArmed ready execPending
       streamOpen abortArmed abortPending abortStreamOpen commands ends stdout stderr].

Ltac sound_case U A K :=
  constructor; fields; rewrite ?U, ?A;
  try discriminate; auto;
  try solve [intros [X|X]; solve [auto | discriminate X]];
  try solve [intros text Q; eapply K; eauto];
  try solve [intros text Q; congruence];
  try solve [intros _; repeat split; auto].

Lemma oneshot_run_snoc (r : Run) (events : list Event) (e : Event) :
  run r (events ++ [e]) = step (run r events) e.
Proof. unfold runEvents. now rewrite fold_left_app. Qed.

Lemma oneshot_run_cons (r : Run) (events : list Event) (e : Event) :
  run r (e :: events) = run (step r e) events.
Proof. reflexivity. Qed.

Lemma oneshot_run_app (r : Run) (pre post : list Event) :
  run r (pre ++ post) = run (run r pre) post.
Proof. unfold runEvents. now rewrite fold_left_app. Qed.

Lemma start_sound : Sound command start.
Proof.
  constructor; cbn.
  - intros _. repeat split; reflexivity.
  - reflexivity.
  - intros H. exfalso. now apply H.
  - intros [H|H]; discriminate H.
  - discriminate.
Qed.

Lemma pending_resolved (r : Run) :
  Sound command r -> isResolved r = false -> forall text, settlement r <> Some (Resolved text).
Proof. intros [P _ _ _ _] U text. destruct (P U) as [N _]. congruence. Qed.

Lemma oneshot_step_sound (r : Run) (e : Event) : Sound command r -> Sound command (step r e).
Proof.
  intros H0. pose proof H0 as [P T St Sm R].
  assert (K : forall text n,
             settlement r = Some (Resolved text) -> (ends r <= n)%nat ->
             (1 <= n)%nat /\ ready r = true /\ commands r = [command]).
  { intros text n Q L. destruct (R text Q) as (E & X & C). repeat split; auto. lia. }
  destruct (isResolved r) eqn:U.
  - (* settled: only the abort and the ends go on *)
    assert (A : timerArmed r = false).
    { destruct (timerArmed r); [discriminate (T eq_refl) | reflexivity]. }
    destruct e as [throws| |err|chunk|chunk|code|message|hasStream| |]; cbn [OneShot.step].
    + rewrite A. exact H0.
    + destruct (ready r) eqn:Rd; [exact H0|].
      sound_case U A K.
      intros text Q. destruct (R text Q) as (_ & X & _). discriminate X.
    + destruct (execPending r) eqn:Ep; [|exact H0].
      pose proof (Sm (or_intror eq_refl)) as Rd.
      unfold onExecReply. cbn [isResolved]. rewrite U.
      destruct err as [message|]; cbn [negb]; sound_case U A K.
    + destruct (streamOpen r) eqn:So; [|exact H0]. sound_case U A K.
    + destruct (streamOpen r) eqn:So; [|exact H0]. sound_case U A K.
    + destruct (streamOpen r) eqn:So; [|exact H0].
      unfold onStreamClose. cbn [isResolved]. rewrite U. sound_case U A K.
    + rewrite U. exact H0.
    + destruct (abortPending r) eqn:Ap; [|exact H0].
      destruct hasStream; sound_case U A K.
    + destruct (abortStreamOpen r) eqn:As; [|exact H0]. sound_case U A K.
    + destruct (abortArmed r) eqn:Aa; [|exact H0]. sound_case U A K.
  - (* pending *)
    destruct (P eq_refl) as (N & TA & E & AA & AP & AS & C).
    destruct e as [throws| |err|chunk|chunk|code|message|hasStream| |]; cbn [OneShot.step].
    + rewrite TA. unfold onTimeout. cbn [isResolved]. rewrite U.
      destruct throws; sound_case U TA K; intros text Q; congruence.
    + destruct (ready r) eqn:Rd; [exact H0|]. sound_case U TA K.
      intros _. rewrite C. repeat split; auto.
    + destruct (execPending r) eqn:Ep; [|exact H0].
      pose proof (Sm (or_intror eq_refl)) as Rd.
      unfold onExecReply. cbn [isResolved]. rewrite U.
      destruct err as [message|]; cbn [negb]; sound_case U TA K.
    + destruct (streamOpen r) eqn:So; [|exact H0]. sound_case U TA K.
    + destruct (streamOpen r) eqn:So; [|exact H0]. sound_case U TA K.
    + destruct (streamOpen r) eqn:So; [|exact H0].
      pose proof (Sm (or_introl eq_refl)) as Rd. rewrite Rd in C.
      unfold onStreamClose. cbn [isResolved]. rewrite U. fields.
      destruct (truthy (stderr r)); sound_case U TA K.
      intros text _. rewrite E. repeat split; auto.
    + rewrite U. sound_case U TA K.
    + rewrite AP. exact H0.
    + rewrite AS. exact H0.
    + rewrite AA. exact H0.
Qed.

Lemma oneshot_run_sound (r : Run) (events : list Event) :
  Sound command r -> Sound command (run r events).
Proof.
  revert r. induction events as [|e events IH]; intros r H; [exact H|].
  rewrite oneshot_run_cons. apply IH, oneshot_step_sound, H.
Qed.

(** A settled promise stays as it is. *)
Lemma step_frozen (r : Run) (e : Event) :
  Sound command r -> isResolved r = true ->
  isResolved (step r e) = true /\ settlement (step r e) = settlement r.
Proof.
  intros [P T St Sm R] U.
  assert (A : timerArmed r = false).
  { destruct (timerArmed r) eqn:A; [|reflexivity]. rewrite (T eq_refl) in U. discriminate. }
  destruct e as [throws| |err|chunk|chunk|code|message|hasStream| |]; cbn [OneShot.step].
  - rewrite A. auto.
  - destruct (ready r); auto.
  - destruct (execPending r); [|auto]. unfold onExecReply. cbn [isResolved]. rewrite U.
    destruct err; cbn; auto.
  - destruct (streamOpen r); auto.
  - destruct (streamOpen r); auto.
  - destruct (streamOpen r); [|auto]. unfold onStreamClose. cbn [isResolved]. rewrite U.
    cbn. auto.
  - rewrite U. auto.
  - destruct (abortPending r); [|auto]. destruct hasStream; cbn; auto.
  - destruct (abortStreamOpen r); cbn; auto.
  - destruct (abortArmed r); cbn; auto.
Qed.

Lemma run_frozen (r : Run) (events : list Event) :
  Sound command r -> isResolved r = true ->
  isResolved (run r events) = true /\ settlement (run r events) = settlement r.
Proof.
  revert r. induction events as [|e events IH]; intros r H U; [auto|].
  rewrite oneshot_run_cons. destruct (step_frozen r e H U) as [U' Q].
  destruct (IH _ (oneshot_step_sound r e H) U') as [U'' Q']. split; congruence.
Qed.

(** The only event that resolves the promise is the close of the
    stream, on an empty standard error. *)
Lemma step_resolves (r : Run) (e : Event) (text : string) :
  Sound command r ->
  settlement (step r e) = Some (Resolved text) ->
  settlement r = Some (Resolved text) \/
  exists code, e = StreamClose code /\ stderr r = "" /\ text = stdout r.
Proof.
  intros H Q. destruct (isResolved r) eqn:U.
  - left. destruct (step_frozen r e H U) as [_ F]. congruence.
  - destruct H as [P T St Sm R]. destruct (P U) as (N & TA & _).
    destruct e as [throws| |err|chunk|chunk|code|message|hasStream| |];
      cbn [OneShot.step] in Q.
    + rewrite TA in Q. unfold onTimeout in Q. cbn [isResolved] in Q. rewrite U in Q.
      destruct throws; cbn in Q; congruence.
    + destruct (ready r); cbn in Q; congruence.
    + destruct (execPending r); [|congruence]. unfold onExecReply in Q.
      cbn [isResolved] in Q. rewrite U in Q. destruct err; cbn in Q; congruence.
    + destruct (streamOpen r); cbn in Q; congruence.
    + destruct (streamOpen r); cbn in Q; congruence.
    + destruct (streamOpen r); [|congruence]. unfold onStreamClose in Q.
      cbn [isResolved] in Q. rewrite U in Q. cbn [endConn stderr stdout] in Q.
      destruct (truthy (stderr r)) eqn:E; cbn in Q; [discriminate|].
      right. exists code. repeat split.
      * destruct (stderr r); [reflexivity | discriminate E].
      * congruence.
    + rewrite U in Q. cbn in Q. discriminate.
    + destruct (abortPending r); [|congruence]. destruct hasStream; cbn in Q; congruence.
    + destruct (abortStreamOpen r); cbn in Q; congruence.
    + destruct (abortArmed r); cbn in Q; congruence.
Qed.

Lemma run_resolves (events : list Event) (text : string) :
  settlement (run start events) = Some (Resolved text) ->
  exists pre code post,
    events = (pre ++ StreamClose code :: post)%list /\
    stderr (run start pre) = "" /\ text = stdout (run start pre).
Proof.
  induction events as [|e events IH] using rev_ind; [discriminate|].
  rewrite oneshot_run_snoc. intros Q.
  destruct (step_resolves _ _ _ (oneshot_run_sound start events start_sound) Q)
    as [Q'|(code & -> & E & X)].
  - destruct (IH Q') as (pre & code & post & -> & E & X).
    exists pre, code, (post ++ [e])%list. rewrite <- app_assoc. auto.
  - exists events, code, []. auto.
Qed.

Lemma ends_step (r : Run) (e : Event) : (ends r <= ends (step r e))%nat.
Proof.
  destruct e as [throws| |err|chunk|chunk|code|message|hasStream| |]; cbn [OneShot.step].
  - destruct (timerArmed r); [|lia]. unfold onTimeout. cbn [isResolved].
    destruct (isResolved r); [cbn; lia|]. destruct throws; cbn; lia.
  - destruct (ready r); cbn; lia.
  - destruct (execPending r); [|lia]. unfold onExecReply. cbn [isResolved].
    destruct err; [|cbn; lia]. destruct (isResolved r); cbn; lia.
  - destruct (streamOpen r); cbn; lia.
  - destruct (streamOpen r); cbn; lia.
  - destruct (streamOpen r); [|lia]. unfold onStreamClose. cbn [isResolved].
    destruct (isResolved r); [cbn; lia|]. cbn [endConn stderr stdout].
    destruct (truthy (stderr r)); cbn; lia.
  - destruct (isResolved r); cbn; lia.
  - destruct (abortPending r); [|lia]. destruct hasStream; cbn; lia.
  - destruct (abortStreamOpen r); cbn; lia.
  - destruct (abortArmed r); cbn; lia.
Qed.

(** Once the timer of the abort is armed, it stays armed until the
    connection is ended, and its firing ends the connection. *)
Lemma armed_step (r : Run) (e : Event) :
  abortArmed r = true \/ (1 <= ends r)%nat ->
  (abortArmed (step r e) = true \/ (1 <= ends (step r e))%nat) /\
  (e = AbortTimeout -> (1 <= ends (step r e))%nat).
Proof.
  intros [A|E].
  - destruct e as [throws| |err|chunk|chunk|code|message|hasStream| |]; cbn [OneShot.step];
      (split; [|try discriminate]).
    + destruct (timerArmed r); [|auto]. unfold onTimeout. cbn [isResolved].
      destruct (isResolved r); [cbn; auto|]. destruct throws; cbn; auto.
    + destruct (ready r); cbn; auto.
    + destruct (execPending r); [|auto]. unfold onExecReply. cbn [isResolved].
      destruct err; [|cbn; auto]. right. destruct (isResolved r); cbn; lia.
    + destruct (streamOpen r); cbn; auto.
    + destruct (streamOpen r); cbn; auto.
    + destruct (streamOpen r); [|auto]. unfold onStreamClose. cbn [isResolved].
      destruct (isResolved r); [cbn; auto|]. cbn [endConn stderr stdout].
      destruct (truthy (stderr r)); cbn; auto.
    + destruct (isResolved r); cbn; auto.
    + destruct (abortPending r); [|auto]. destruct hasStream; cbn; auto. right. lia.
    + destruct (abortStreamOpen r); cbn; auto. right. lia.
    + rewrite A. cbn. right. lia.
    + intros _. rewrite A. cbn. lia.
  - pose proof (ends_step r e). split; [right; lia | intros _; lia].
Qed.

Lemma armed_run (r : Run) (events : list Event) :
  abortArmed r = true \/ (1 <= ends r)%nat ->
  In AbortTimeout events -> (1 <= ends (run r events))%nat.
Proof.
  revert r. induction events as [|e events IH]; intros r J I; [destruct I|].
  rewrite oneshot_run_cons. destruct (armed_step r e J) as [J' K].
  destruct I as [->|I]; [|exact (IH _ J' I)].
  clear IH J'. specialize (K eq_refl). revert K. generalize (step r AbortTimeout).
  induction events as [|e events IH]; intros r' K; [exact K|].
  rewrite oneshot_run_cons. apply IH. pose proof (ends_step r' e). lia.
Qed.

Lemma commands_step (r : Run) (e : Event) (c : string) :
  In c (commands r) -> In c (commands (step r e)).
Proof.
  intros I.
  destruct e as [throws| |err|chunk|chunk|code|message|hasStream| |]; cbn [OneShot.step].
  - destruct (timerArmed r); [|auto]. unfold onTimeout. cbn [isResolved].
    destruct (isResolved r); [cbn; auto|]. destruct throws; cbn; auto.
    apply in_or_app. auto.
  - destruct (ready r); cbn; auto. apply in_or_app. auto.
  - destruct (execPending r); [|auto]. unfold onExecReply. cbn [isResolved].
    destruct err; [|cbn; auto]. destruct (isResolved r); cbn; auto.
  - destruct (streamOpen r); cbn; auto.
  - destruct (streamOpen r); cbn; auto.
  - destruct (streamOpen r); [|auto]. unfold onStreamClose. cbn [isResolved].
    destruct (isResolved r); [cbn; auto|]. cbn [endConn stderr stdout].
    destruct (truthy (stderr r)); cbn; auto.
  - destruct (isResolved r); cbn; auto.
  - destruct (abortPending r); [|auto]. destruct hasStream; cbn; auto.
  - destruct (abortStreamOpen r); cbn; auto.
  - destruct (abortArmed r); cbn; auto.
Qed.

Lemma commands_run (r : Run) (events : list Event) (c : string) :
  In c (commands r) -> In c (commands (run r events)).
Proof.
  revert r. induction events as [|e events IH]; intros r I; [exact I|].
  rewrite oneshot_run_cons. apply IH, commands_step, I.
Qed.

End Call.

(** X27. The promise of [execSshCommand] resolves only when the stream of
    the command closes on an empty standard error, whatever the exit
    code, and with the standard output received until then. By then the
    connection has been ended, and the command is the only request that
    was sent: no abort command. *)
Theorem execSshCommand_resolves (sshConfig : SSHConfig) (command : string)
    (stdin : option string) (timeoutMs : Z) (events : list Event) (text : string) :
  let r := execSshCommand sshConfig command stdin timeoutMs events in
  settlement r = Some (Resolved text) ->
  (exists pre code post,
      events = (pre ++ StreamClose code :: post)%list /\
      stderr (execSshCommand sshConfig command stdin timeoutMs pre) = "" /\
      text = stdout (execSshCommand sshConfig command stdin timeoutMs pre)) /\
  (1 <= ends r)%nat /\
  commands r = [command].
Proof.
  cbn zeta. unfold execSshCommand. intros Q. split.
  - exact (run_resolves _ _ _ _ _ _ Q).
  - pose proof (oneshot_run_sound (formatTargetContext sshConfig) command stdin timeoutMs
                  start events (start_sound command)) as [_ _ _ _ R].
    destruct (R text Q) as (E & _ & C). auto.
Qed.

(** X28. When the timeout fires on a pending call, the promise is rejected
    with the timeout and the target, and nothing that follows changes
    that; the abort command, a [pkill] of the escaped command line, has
    been sent, and the connection is ended once the timer of the abort
    has fired, at the latest. This holds as long as [conn.exec] takes
    the abort command: when it throws, the callback stops before the
    rejection and the promise is never settled. *)
Theorem execSshCommand_timeout (sshConfig : SSHConfig) (command : string)
    (stdin : option string) (timeoutMs : Z) (pre post : list Event) (execThrows : bool) :
  isResolved (execSshCommand sshConfig command stdin timeoutMs pre) = false ->
  let r := execSshCommand sshConfig command stdin timeoutMs
             (pre ++ Timeout execThrows :: post) in
  settlement r =
    (if execThrows then None
     else Some (Rejected (timeoutMessage timeoutMs (formatTargetContext sshConfig)))) /\
  (execThrows = false ->
   In (abortCommand command) (commands r)) /\
  (In AbortTimeout post -> (1 <= ends r)%nat).
Proof.
  intros U. cbn zeta. unfold execSshCommand in *. rewrite oneshot_run_app, oneshot_run_cons.
  set (target := formatTargetContext sshConfig) in *.
  pose proof (oneshot_run_sound target command stdin timeoutMs start pre (start_sound command)) as H.
  set (r0 := runEvents target command stdin timeoutMs start pre) in *.
  destruct (sound_pending _ _ H U) as (N & TA & E & _).
  assert (X : OneShot.step target command stdin timeoutMs r0 (Timeout execThrows)
              = onTimeout target command timeoutMs execThrows r0)
    by (cbn [OneShot.step]; now rewrite TA).
  rewrite X.
  pose proof (oneshot_step_sound target command stdin timeoutMs r0 (Timeout execThrows) H) as H1.
  rewrite X in H1.
  assert (U1 : isResolved (onTimeout target command timeoutMs execThrows r0) = true).
  { unfold onTimeout. cbn [isResolved]. rewrite U. now destruct execThrows. }
  destruct (run_frozen target command stdin timeoutMs _ post H1 U1) as [_ F].
  split; [|split].
  - rewrite F. unfold onTimeout. cbn [isResolved]. rewrite U.
    destruct execThrows; cbn; [exact N | reflexivity].
  - intros ->. apply commands_run. unfold onTimeout. cbn [isResolved]. rewrite U. cbn.
    apply in_or_app. right. left. reflexivity.
  - apply armed_run. left. unfold onTimeout. cbn [isResolved]. rewrite U.
    now destruct execThrows.
Qed.

Lemma execSshCommand_resolves_witness :
  stdout (execSshCommand Scenario.target "uname" None 60000 [Ready; ExecReply None]) = "" /\
  ends (execSshCommand Scenario.target "uname" None 60000
          [Ready; ExecReply None; StreamClose (ExitStatus 3)]) = 1%nat.
Proof.
  destruct (execSshCommand_resolves Scenario.target "uname" None 60000
              [Ready; ExecReply None; StreamClose (ExitStatus 3)] "")
    as ((pre & code & post & E & _ & X) & _ & _); [reflexivity|].
  split; reflexivity.
Defined.

Lemma execSshCommand_timeout_witness :
  (1 <= ends (execSshCommand Scenario.target "sleep 99" None 1000
                [Ready; ExecReply None; Timeout false; AbortTimeout]))%nat.
Proof.
  destruct (execSshCommand_timeout Scenario.target "sleep 99" None 1000
              [Ready; ExecReply None] [AbortTimeout] false) as (_ & _ & H);
    [reflexivity|].
  apply H. left. reflexivity.
Defined.

End OneShotFacts.
